(** * Protocol identification (joy, [src/proto_identify.c])

    A shallow embedding of the keyword list, of the keyword dictionary tree
    and of its matcher, over an explicit store of [keyword_dict_node]
    blocks, followed by the proofs of the properties claimed for them.

    Conventions of the model:
    - pointers are integers and [NULL] is [0]; [calloc] is a bump allocator
      that always succeeds and never hands an address out twice, [free]
      removes the block from the store;
    - reading through [NULL], reading a block that is not live and freeing
      a block twice are faults ([Crash]), after which nothing is known;
    - the C functions are state transformers [M A] over the file's globals
      ([keywords], [num_keywords], [kd_root]) and the store; the loops are
      recursive functions on what is left to traverse;
    - [destroy_kdn] follows pointers without a bound visible in its
      arguments, so it takes fuel;
    - [char] is signed, as on x86: a byte read through [const char *] has a
      value in [-128, 127].

    The proofs go through a description of the store as a tree ([forest],
    [models]): [insert] and [fsearch] are what [keyword_dict_add_keyword]
    and [search_keyword_dict] do to a store that holds a tree. *)

From stdpp Require Import gmap list.
From Stdlib Require Import ZArith Lia.

Local Open Scope Z_scope.

(** ** Protocol inference container and keyword list *)

Definition DIR_UNKNOWN : Z := 0.
Definition DIR_CLIENT : Z := 1.
Definition DIR_SERVER : Z := 2.

Record pi_container := Pi { dir : Z; app : Z }.

Definition MAX_VAL_LEN : Z := 32.
Definition MAX_VAL_BYTES : Z := 2 * MAX_VAL_LEN.
Definition MAX_KEYWORDS : Z := 256.
Definition WILDCARD : Z := 0x100.
Definition MAX_CHILDREN : Z := 257.
Definition NULL : Z := 0.

(** [value] holds the first [value_len] entries of the C array; the rest of
    the array is never read. *)
Record keyword_container := Keyword { value : list Z; kc_pi : pi_container }.

Definition value_len (kc : keyword_container) : Z := Z.of_nat (length (value kc)).

(** [edge] holds the first [num_children] entries of the C array: the only
    write is [edge[num_children] = e; num_children++]. *)
Record keyword_dict_node := Kdn {
  edge : list Z;
  child : Z;
  sibling : Z;
  pi : pi_container
}.

Definition num_children (n : keyword_dict_node) : Z := Z.of_nat (length (edge n)).

(** [calloc(1, sizeof(struct keyword_dict_node))] *)
Definition zero_kdn : keyword_dict_node :=
  {| edge := []; child := NULL; sibling := NULL; pi := Pi 0 0 |}.

(** ** Program state: the file's globals and the store *)

Record machine := Machine {
  keywords : list keyword_container;
  kd_root : Z;
  heap : gmap Z keyword_dict_node;
  brk : Z
}.

Definition num_keywords (s : machine) : Z := Z.of_nat (length (keywords s)).

(** Process start: no keyword, no tree, nothing allocated. *)
Definition startup : machine :=
  {| keywords := []; kd_root := NULL; heap := ∅; brk := 1 |}.

Inductive fault :=
| NullDeref
| BadPointer (a : Z)
| DoubleFree (a : Z).

Inductive outcome (A : Type) :=
| Ok (x : A) (s : machine)
| Crash (f : fault)
| OutOfFuel.
Arguments Ok {A} x s.
Arguments Crash {A} f.
Arguments OutOfFuel {A}.

Definition M (A : Type) : Type := machine → outcome A.

Definition ret {A} (x : A) : M A := λ s, Ok x s.

Definition bind {A B} (m : M A) (k : A → M B) : M B :=
  λ s, match m s with
       | Ok x s' => k x s'
       | Crash f => Crash f
       | OutOfFuel => OutOfFuel
       end.

Notation "'let*' x := m 'in' k" := (bind m (λ x, k))
  (at level 10, x name, m at level 100, k at level 200).

Definition get : M machine := λ s, Ok s s.

Definition set_heap (h : gmap Z keyword_dict_node) (s : machine) : machine :=
  {| keywords := keywords s; kd_root := kd_root s; heap := h; brk := brk s |}.

Definition load (a : Z) : M keyword_dict_node :=
  λ s, if a =? NULL then Crash NullDeref
       else match heap s !! a with
            | Some n => Ok n s
            | None => Crash (BadPointer a)
            end.

Definition store (a : Z) (n : keyword_dict_node) : M unit :=
  λ s, Ok tt (set_heap (<[a := n]> (heap s)) s).

(** [a->field = ...]: a read-modify-write of the block at [a]. *)
Definition modify (a : Z) (f : keyword_dict_node → keyword_dict_node) : M unit :=
  let* n := load a in store a (f n).

Definition with_child (c : Z) (n : keyword_dict_node) : keyword_dict_node :=
  {| edge := edge n; child := c; sibling := sibling n; pi := pi n |}.
Definition with_sibling (c : Z) (n : keyword_dict_node) : keyword_dict_node :=
  {| edge := edge n; child := child n; sibling := c; pi := pi n |}.
Definition with_pi (p : pi_container) (n : keyword_dict_node) : keyword_dict_node :=
  {| edge := edge n; child := child n; sibling := sibling n; pi := p |}.
(** [n->edge[n->num_children] = e; n->num_children++] *)
Definition push_edge (e : Z) (n : keyword_dict_node) : keyword_dict_node :=
  {| edge := edge n ++ [e]; child := child n; sibling := sibling n; pi := pi n |}.

Definition free (a : Z) : M unit :=
  λ s, if a =? NULL then Ok tt s
       else match heap s !! a with
            | Some _ => Ok tt (set_heap (delete a (heap s)) s)
            | None => Crash (DoubleFree a)
            end.

(** ** Keyword list *)

(** [val] is the array behind [value]; the [memcpy] is taken to stay within
    it, as [sizeof] of the array is what the callers pass. *)
Definition add_keyword (val : list Z) (value_bytes_len : Z) (p : pi_container) : M Z :=
  λ s, if num_keywords s >=? MAX_KEYWORDS then Ok 1 s
       else if value_bytes_len >? MAX_VAL_BYTES then Ok 1 s
       else
         let kc := {| value := take (Z.to_nat (value_bytes_len / 2)) val; kc_pi := p |} in
         Ok 0 {| keywords := keywords s ++ [kc]; kd_root := kd_root s;
                 heap := heap s; brk := brk s |}.

(** [sizeof] of an array of [uint16_t]. *)
Definition sizeof (val : list Z) : Z := 2 * Z.of_nat (length val).

Definition tls_client_hello : list Z := [0x16; 0x03; 0x01; WILDCARD; WILDCARD; 0x01].
Definition tls_server_hello : list Z := [0x16; 0x03; 0x01; WILDCARD; WILDCARD; 0x02].

Definition add_tls_identifiers : M Z :=
  let* r1 := add_keyword tls_client_hello (sizeof tls_client_hello) (Pi DIR_CLIENT 443) in
  if negb (r1 =? 0) then ret 1
  else
    let* r2 := add_keyword tls_server_hello (sizeof tls_server_hello) (Pi DIR_SERVER 443) in
    if negb (r2 =? 0) then ret 1 else ret 0.

Definition populate_keyword_identifiers : M Z :=
  let* r := add_tls_identifiers in
  if negb (r =? 0) then ret 1 else ret 0.

(** The [memset] clears slots that the list model does not hold: it is only
    reached with [num_keywords == 0]. *)
Definition init_keywords : M Z :=
  let* r := populate_keyword_identifiers in
  if negb (r =? 0) then ret 1 else ret 0.

(** ** Keyword dictionary tree *)

Definition alloc_kdn : M Z :=
  λ s, Ok (brk s)
          {| keywords := keywords s; kd_root := kd_root s;
             heap := <[brk s := zero_kdn]> (heap s); brk := brk s + 1 |}.

(** The [while (child != NULL)] loop of [destroy_kdn]; [recurse] is the
    recursive call. *)
Fixpoint destroy_children (recurse : Z → M unit) (fuel : nat) (chld : Z) : M unit :=
  match fuel with
  | O => λ _, OutOfFuel
  | S fuel' =>
    if chld =? NULL then ret tt
    else
      let* c := load chld in
      let sib := sibling c in
      let* _ := recurse chld in
      destroy_children recurse fuel' sib
  end.

Fixpoint destroy_kdn (fuel : nat) (node : Z) : M unit :=
  match fuel with
  | O => λ _, OutOfFuel
  | S fuel' =>
    if node =? NULL then ret tt
    else
      let* n := load node in
      if (child n =? NULL) || (num_children n =? 0) then free node
      else
        let* _ := destroy_children (destroy_kdn fuel') fuel' (child n) in
        free node
  end.

Definition kdn_create_child (parent : Z) (e : Z) : M Z :=
  if parent =? NULL then ret NULL
  else
    let* p := load parent in
    if negb (child p =? NULL) || negb (num_children p =? 0) then ret NULL
    else
      let* c := alloc_kdn in
      let* _ := modify parent (with_child c) in
      let* _ := modify parent (push_edge e) in
      let* p' := load parent in
      ret (child p').

Definition kdn_create_sibling (parent : Z) (chld : Z) (e : Z) : M Z :=
  if (parent =? NULL) || (chld =? NULL) then ret NULL
  else
    let* c := load chld in
    let* p := load parent in
    if num_children p =? MAX_CHILDREN - 1 then ret NULL
    else
      let* sib := alloc_kdn in
      let* _ := modify chld (with_sibling sib) in
      let* _ := modify parent (push_edge e) in
      let* c' := load chld in
      ret (sibling c').

(** The inner [for (k ...)] loop of [keyword_dict_add_keyword]: [edges] are
    the entries [edge[k..num_children)] still to compare, [chld] the child
    cursor.  Returns [match] and the cursor. *)
Fixpoint scan_edges (val : Z) (edges : list Z) (chld : Z) : M (bool * Z) :=
  match edges with
  | [] => ret (false, chld)
  | e :: edges' =>
    if val =? e then ret (true, chld)
    else
      let* c := load chld in
      scan_edges val edges' (if negb (sibling c =? NULL) then sibling c else chld)
  end.

(** The outer [for (i ...)] loop: returns the node reached. *)
Fixpoint add_path (vals : list Z) (node : Z) : M Z :=
  match vals with
  | [] => ret node
  | val :: vals' =>
    let* n := load node in
    let* node' :=
      (if negb (child n =? NULL) then
         let* r := scan_edges val (edge n) (child n) in
         if r.1 then ret r.2
         else kdn_create_sibling node r.2 val
       else kdn_create_child node val) in
    add_path vals' node'
  end.

Definition keyword_dict_add_keyword (root : Z) (kc : keyword_container) : M Z :=
  if root =? NULL then ret 0
  else
    let* node := add_path (value kc) root in
    let* _ := modify node (with_pi (kc_pi kc)) in
    ret 0.

Definition set_kd_root (r : Z) : M unit :=
  λ s, Ok tt {| keywords := keywords s; kd_root := r; heap := heap s; brk := brk s |}.

Fixpoint add_keywords (root : Z) (kcs : list keyword_container) : M unit :=
  match kcs with
  | [] => ret tt
  | kc :: kcs' => let* _ := keyword_dict_add_keyword root kc in add_keywords root kcs'
  end.

(** Always called as [construct_keyword_dict(&kd_root)]. *)
Definition construct_keyword_dict : M Z :=
  let* s := get in
  if negb (kd_root s =? NULL) then ret 1
  else
    let* r := alloc_kdn in
    let* _ := set_kd_root r in
    let* _ := add_keywords r (keywords s) in
    ret 0.

(** ** Matcher *)

(** The value of [*data] for a byte [b], [data] being [const char *]. *)
Definition char_of_byte (b : Z) : Z := (b + 128) mod 256 - 128.

(** The test [node->edge[i] == WILDCARD || *data == node->edge[i]] for the
    input byte [b]. *)
Definition edge_matches (b e : Z) : bool :=
  (e =? WILDCARD) || (char_of_byte b =? e).

(** The [for (i ...)] loop of [search_keyword_dict]: [edges] are the entries
    [edge[i..num_children)] still to try, [chld] the child cursor, [descend]
    what is done below a matching child that carries no inference. *)
Fixpoint search_children (b : Z) (descend : Z → M Z) (edges : list Z) (chld : Z) : M Z :=
  match edges with
  | [] => ret NULL
  | e :: edges' =>
    if edge_matches b e then
      let* c := load chld in
      if negb (app (pi c) =? 0) then ret chld
      else descend chld
    else
      let* c := load chld in
      search_children b descend edges' (sibling c)
  end.

(** Returns the node whose [pi] is pointed to by the result, or [NULL]. *)
Fixpoint search_keyword_dict (root : Z) (data : list Z) : M Z :=
  match data with
  | [] => ret NULL
  | b :: data' =>
    if root =? NULL then ret NULL
    else
      let* node := load root in
      search_children b
        (λ chld, if Z.of_nat (length data) =? 1 then ret NULL
                 else search_keyword_dict chld data')
        (edge node) (child node)
  end.

(** ** Module interface *)

Definition proto_identify_init_keyword_dict : M Z :=
  let* s := get in
  if negb (kd_root s =? NULL) then ret 1
  else
    let* r := (if num_keywords s =? 0 then init_keywords else ret 0) in
    if negb (r =? 0) then ret 1
    else let* _ := construct_keyword_dict in ret 0.

Definition proto_identify_destroy_keyword_dict (fuel : nat) : M unit :=
  let* s := get in
  if kd_root s =? NULL then ret tt
  else destroy_kdn fuel (kd_root s).

Definition identify_tcp_protocol (tcp_data : list Z) : M Z :=
  if Z.of_nat (length tcp_data) =? 0 then ret 0
  else
    let* s := get in
    let* _ := (if kd_root s =? NULL then proto_identify_init_keyword_dict else ret 0) in
    let* s' := get in
    let* p := search_keyword_dict (kd_root s') tcp_data in
    if negb (p =? NULL) then
      let* n := load p in
      ret (app (pi n))
    else ret 0.

(** ** Notions used to state properties of the tree *)

(** The node reached from [node] along the edges labelled [vals], or [NULL]:
    [add_path] without the branches that create nodes. *)
Fixpoint path_end (vals : list Z) (node : Z) : M Z :=
  match vals with
  | [] => ret node
  | val :: vals' =>
    let* n := load node in
    if negb (child n =? NULL) then
      let* r := scan_edges val (edge n) (child n) in
      if r.1 then path_end vals' r.2 else ret NULL
    else ret NULL
  end.

(** Below [a] the tree is one unbranched path spelling [vals]: each node on
    it has exactly the edge to the next one, which has no sibling. *)
Fixpoint single_chain (h : gmap Z keyword_dict_node) (a : Z) (vals : list Z) : Prop :=
  match vals with
  | [] => True
  | v :: vals' =>
    ∃ n c, h !! a = Some n ∧ edge n = [v] ∧ h !! child n = Some c ∧
           sibling c = NULL ∧ single_chain h (child n) vals'
  end.

(** States the module gets into from process start when the dictionary is
    never torn down. *)
Inductive reachable : machine → Prop :=
| reachable_startup : reachable startup
| reachable_add s val n p r s' :
    reachable s → add_keyword val n p s = Ok r s' → reachable s'
| reachable_init s r s' :
    reachable s → proto_identify_init_keyword_dict s = Ok r s' → reachable s'
| reachable_identify s data r s' :
    reachable s → identify_tcp_protocol data s = Ok r s' → reachable s'.

(** ** The dictionary as a tree

    A [forest] is a sibling chain: [FCons e a p kids next] is the node at
    address [a], entered from its parent through the edge [e], followed by
    its younger siblings [next].  [cells] lists the blocks a forest occupies
    in the store. *)

Inductive forest :=
| FNil
| FCons (e a : Z) (p : pi_container) (kids next : forest).

Fixpoint labels (f : forest) : list Z :=
  match f with FNil => [] | FCons e _ _ _ nx => e :: labels nx end.

Definition faddr (f : forest) : Z :=
  match f with FNil => NULL | FCons _ a _ _ _ => a end.

Fixpoint cells (f : forest) : list (Z * keyword_dict_node) :=
  match f with
  | FNil => []
  | FCons _ a p kids nx =>
    (a, Kdn (labels kids) (faddr kids) (faddr nx) p) :: cells kids ++ cells nx
  end.

Definition addrs (f : forest) : list Z := (cells f).*1.

Definition leaf (e a : Z) : forest := FCons e a (Pi 0 0) FNil FNil.

Fixpoint chain_insert (on_hit : forest → option (forest * Z))
    (on_miss : option (forest * Z)) (v : Z) (c : forest) : option (forest * Z) :=
  match c with
  | FNil => on_miss
  | FCons e a q kids nx =>
    if v =? e then on_hit c
    else match chain_insert on_hit on_miss v nx with
         | Some (nx', b') => Some (FCons e a q kids nx', b')
         | None => None
         end
  end.

Fixpoint insert (vals : list Z) (p : pi_container) (b : Z) (f : forest)
  : option (forest * Z) :=
  match f with
  | FNil => None
  | FCons e a q kids nx =>
    match vals with
    | [] => Some (FCons e a p kids nx, b)
    | v :: vs =>
      match chain_insert (insert vs p b)
              (if Z.of_nat (length (labels kids)) =? MAX_CHILDREN - 1 then None
               else insert vs p (b + 1) (leaf v b))
              v kids with
      | Some (kids', b') => Some (FCons e a q kids' nx, b')
      | None => None
      end
    end
  end.

Definition holds (h : gmap Z keyword_dict_node) (l : list (Z * keyword_dict_node)) : Prop :=
  ∀ a n, (a, n) ∈ l → h !! a = Some n.

(** A sibling chain split at a cursor: the nodes before it, first to last. *)
Record elder := Elder { el_edge : Z; el_addr : Z; el_pi : pi_container; el_kids : forest }.

Definition plug (pre : list elder) (c : forest) : forest :=
  foldr (λ n nx, FCons (el_edge n) (el_addr n) (el_pi n) (el_kids n) nx) c pre.

Definition next_addr (pre : list elder) (x : Z) : Z :=
  match pre with [] => x | n :: _ => el_addr n end.

Fixpoint pre_cells (pre : list elder) (x : Z) : list (Z * keyword_dict_node) :=
  match pre with
  | [] => []
  | n :: pre' =>
    (el_addr n, Kdn (labels (el_kids n)) (faddr (el_kids n)) (next_addr pre' x) (el_pi n))
      :: cells (el_kids n) ++ pre_cells pre' x
  end.

Definition last_addr (pre : list elder) : Z :=
  match last pre with Some n => el_addr n | None => NULL end.

Definition add_and_mark (vals : list Z) (p : pi_container) (node : Z) : M unit :=
  let* n := add_path vals node in modify n (with_pi p).

Definition node_at (h : gmap Z keyword_dict_node) (a : Z) (kids : forest)
    (sib : Z) (q : pi_container) : Prop :=
  h !! a = Some (Kdn (labels kids) (faddr kids) sib q) ∧ holds h (cells kids).

Definition grown (s : machine) (h : gmap Z keyword_dict_node) : machine :=
  {| keywords := keywords s; kd_root := kd_root s; heap := h; brk := brk s + 1 |}.

Fixpoint insert_all (kcs : list keyword_container) (b : Z) (f : forest)
  : option (forest * Z) :=
  match kcs with
  | [] => Some (f, b)
  | kc :: kcs' =>
    match insert (value kc) (kc_pi kc) b f with
    | Some (f', b') => insert_all kcs' b' f'
    | None => None
    end
  end.

(** The store holds the tree [f], rooted at [kd_root]. *)
Record models (s : machine) (f : forest) : Prop := {
  models_root : ∃ q kids, f = FCons 0 (kd_root s) q kids FNil;
  models_cells : holds (heap s) (cells f);
  models_nodup : NoDup (addrs f);
  models_bound : ∀ x, x ∈ addrs f → 0 < x < brk s
}.

Fixpoint fsearch_chain (b : Z) (descend : forest → Z) (c : forest) : Z :=
  match c with
  | FNil => NULL
  | FCons e a p _ nx =>
    if edge_matches b e then
      if negb (app p =? 0) then a else descend c
    else fsearch_chain b descend nx
  end.

Fixpoint fsearch (data : list Z) (f : forest) : Z :=
  match data with
  | [] => NULL
  | b :: data' =>
    match f with
    | FNil => NULL
    | FCons _ _ _ kids _ =>
      fsearch_chain b
        (λ c, if Z.of_nat (length data) =? 1 then NULL else fsearch data' c) kids
    end
  end.

Fixpoint every (P : list Z → Prop) (f : forest) : Prop :=
  match f with
  | FNil => True
  | FCons _ _ _ kids nx => P (labels kids) ∧ every P kids ∧ every P nx
  end.

(** The state in which [construct_keyword_dict] starts adding keywords. *)
Definition rooted (s : machine) : machine :=
  {| keywords := keywords s; kd_root := brk s;
     heap := <[brk s := zero_kdn]> (heap s); brk := brk s + 1 |}.

(** The part of the chain [c] that starts at the first node entered through
    the edge [v]. *)
Fixpoint hit (v : Z) (c : forest) : forest :=
  match c with
  | FNil => FNil
  | FCons e _ _ _ nx => if v =? e then c else hit v nx
  end.

(** [path_end] on trees. *)
Fixpoint locate (vals : list Z) (f : forest) : Z :=
  match vals with
  | [] => faddr f
  | v :: vals' =>
    match f with
    | FNil => NULL
    | FCons _ _ _ kids _ => locate vals' (hit v kids)
    end
  end.

(** The inference stored at the node [locate] finds. *)
Fixpoint locate_pi (vals : list Z) (f : forest) : option pi_container :=
  match f with
  | FNil => None
  | FCons _ _ p kids _ =>
    match vals with
    | [] => Some p
    | v :: vals' => locate_pi vals' (hit v kids)
    end
  end.

(** Addresses of the first node of [f] and of the nodes below it. *)
Definition own (f : forest) : list Z :=
  match f with
  | FNil => []
  | FCons _ a _ kids _ => a :: addrs kids
  end.

(** [single_chain] on trees. *)
Fixpoint chain_of (vals : list Z) (f : forest) : Prop :=
  match vals with
  | [] => True
  | v :: vals' =>
    match f with
    | FCons _ _ _ (FCons e a q k FNil) _ =>
      e = v ∧ chain_of vals' (FCons e a q k FNil)
    | _ => False
    end
  end.

(** The invariant of the states in [reachable]. *)
Definition intact (s : machine) : Prop :=
  (length (keywords s) ≤ 256)%nat ∧ 0 < brk s ∧
  (kd_root s = NULL ∨ ∃ f, models s f).

(** ** Catalogs used as concrete inputs *)

(** The table after one more keyword has been stored. *)
Definition appended (s : machine) (kc : keyword_container) : machine :=
  {| keywords := keywords s ++ [kc]; kd_root := kd_root s;
     heap := heap s; brk := brk s |}.

(** Adds the signatures of a catalog the way [add_tls_identifiers] adds its
    two, all with the inference [p]. *)
Fixpoint add_identifiers (catalog : list (list Z)) (p : pi_container) : M Z :=
  match catalog with
  | [] => ret 0
  | val :: catalog' =>
    let* r := add_keyword val (sizeof val) p in
    if negb (r =? 0) then ret 1 else add_identifiers catalog' p
  end.

(** One signature per byte value, each a single literal. *)
Definition byte_catalog : list (list Z) := (λ v, [v]) <$> seqZ 0 256.

Definition final_state {A} (o : outcome A) : machine :=
  match o with Ok _ s => s | _ => startup end.

(** The state once the TLS dictionary has been built at process start. *)
Definition tls_dictionary : machine :=
  Eval vm_compute in final_state (proto_identify_init_keyword_dict startup).

(** The TLS dictionary after one teardown. *)
Definition tls_torn_down : machine :=
  Eval vm_compute in final_state (proto_identify_destroy_keyword_dict 16 tls_dictionary).

(** The table once [init_keywords] has loaded the TLS catalog. *)
Definition tls_table : machine :=
  Eval vm_compute in final_state (init_keywords startup).

(** A table with the client signature only, and its dictionary. *)
Definition client_table : machine :=
  Eval vm_compute in
    final_state (add_keyword tls_client_hello (sizeof tls_client_hello)
                   (Pi DIR_CLIENT 443) startup).

Definition client_dictionary : machine :=
  Eval vm_compute in final_state (proto_identify_init_keyword_dict client_table).

(** The table of [byte_catalog], and its dictionary. *)
Definition byte_table : machine :=
  Eval vm_compute in final_state (add_identifiers byte_catalog (Pi DIR_UNKNOWN 80) startup).

Definition byte_dictionary : machine :=
  Eval vm_compute in final_state (proto_identify_init_keyword_dict byte_table).

(** ** Notions used for the further properties *)

(** Number of nodes of a forest. *)
Fixpoint fsize (f : forest) : nat :=
  match f with
  | FNil => O
  | FCons _ _ _ kids nx => S (fsize kids + fsize nx)
  end.

(** The program's test along a signature: [edge_matches], as
    [search_keyword_dict] applies it, holds of each symbol of [vals] and the
    input byte at its position. *)
Fixpoint matches_prefix (vals data : list Z) : bool :=
  match vals, data with
  | [], _ => true
  | v :: vals', b :: data' => edge_matches b v && matches_prefix vals' data'
  | _ :: _, [] => false
  end.

(** Below the first node of [f], the first child at each level is entered
    through the next symbol of [vals]. *)
Fixpoint spine (vals : list Z) (f : forest) : Prop :=
  match vals with
  | [] => True
  | v :: vals' =>
    match f with
    | FCons _ _ _ (FCons e a q k nx) _ => e = v ∧ spine vals' (FCons e a q k nx)
    | _ => False
    end
  end.

(** The store holds the dictionary [construct_keyword_dict] builds from the
    keywords [pre]: root at [kd_root], nodes up to the allocation mark. *)
Definition built_from (s : machine) (pre : list keyword_container) (f : forest) : Prop :=
  models s f ∧
  insert_all pre (kd_root s + 1) (leaf 0 (kd_root s)) = Some (f, brk s).

(** What the module interface maintains: the table is within its array
    bounds, and the dictionary, once built, is the one of the keywords the
    table held at that moment. *)
Definition settled (s : machine) : Prop :=
  (length (keywords s) ≤ 256)%nat ∧ 0 < brk s ∧
  Forall (λ kc, (length (value kc) ≤ 32)%nat) (keywords s) ∧
  (kd_root s = NULL ∨
   ∃ f pre post, keywords s = pre ++ post ∧ built_from s pre f).

(** Number of symbols in all signatures of a table. *)
Definition total_symbols (kcs : list keyword_container) : Z :=
  foldr (λ kc n, Z.of_nat (length (value kc)) + n) 0 kcs.

(** Following [sibling] from [a] visits exactly [n] nodes and ends at
    [NULL]. *)
Fixpoint chain_at (h : gmap Z keyword_dict_node) (a : Z) (n : nat) : Prop :=
  match n with
  | O => a = NULL
  | S n' => a ≠ NULL ∧ ∃ c, h !! a = Some c ∧ chain_at h (sibling c) n'
  end.

(** ** Matching as the specification words it

    An edge matches when its symbol equals [WILDCARD] or equals the first
    byte of the remaining input; a signature matches an input when its
    symbols match the input's first bytes one by one.  The program's own
    test is [edge_matches], which compares through [char]. *)

(** An input byte, and a 16-bit symbol ([uint16_t]). *)
Definition is_byte (b : Z) : Prop := 0 ≤ b ≤ 0xFF.
Definition is_symbol (v : Z) : Prop := 0 ≤ v ≤ 0xFFFF.

(** A wildcard or a literal below [0x80]. *)
Definition plain_symbol (v : Z) : Prop := v = WILDCARD ∨ 0 ≤ v ≤ 0x7F.

Definition symbol_matches (b v : Z) : bool := (v =? WILDCARD) || (v =? b).

Fixpoint signature_matches (vals data : list Z) : bool :=
  match vals, data with
  | [], _ => true
  | v :: vals', b :: data' => symbol_matches b v && signature_matches vals' data'
  | _ :: _, [] => false
  end.

(** A table in which a signature occurs twice, and one in which a signature
    extends another. *)
Definition duplicate_table : machine :=
  appended (appended (appended startup (Keyword [0x41] (Pi DIR_CLIENT 80)))
                     (Keyword [0x41] (Pi DIR_CLIENT 8080)))
           (Keyword [0x42] (Pi DIR_CLIENT 21)).

Definition prefix_table : machine :=
  appended (appended startup (Keyword [0x41; 0x42] (Pi DIR_CLIENT 80)))
           (Keyword [0x41] (Pi DIR_CLIENT 8080)).

(** * Proofs *)

Lemma holds_app h l1 l2 : holds h (l1 ++ l2) ↔ holds h l1 ∧ holds h l2.
Proof.
  unfold holds. split.
  - intros H. split; intros a n Hin; apply H, elem_of_app; auto.
  - intros [H1 H2] a n [?|?]%elem_of_app; auto.
Qed.

Lemma holds_cons h a n l : holds h ((a, n) :: l) ↔ h !! a = Some n ∧ holds h l.
Proof.
  unfold holds. split.
  - intros H. split; [apply H; left|intros ???; apply H; right; done].
  - intros [H1 H2] a' n' Hin. apply elem_of_cons in Hin as [[= -> ->]|?]; auto.
Qed.

Lemma holds_nil h : holds h [].
Proof. intros a n Hin. by apply elem_of_nil in Hin. Qed.

Lemma holds_frame h h' l :
  holds h l → (∀ x, x ∈ l.*1 → h' !! x = h !! x) → holds h' l.
Proof.
  intros H Hfr a n Hin. rewrite Hfr; [by apply H|].
  apply list_elem_of_fmap. by exists (a, n).
Qed.

Lemma faddr_plug pre c : faddr (plug pre c) = next_addr pre (faddr c).
Proof. by destruct pre. Qed.

Lemma labels_plug pre c : labels (plug pre c) = (el_edge <$> pre) ++ labels c.
Proof. induction pre as [|n pre IH]; simpl; [done|by rewrite IH]. Qed.

Lemma cells_plug pre c : cells (plug pre c) = pre_cells pre (faddr c) ++ cells c.
Proof.
  induction pre as [|n pre IH]; simpl; [done|].
  rewrite IH, faddr_plug. by rewrite <- !app_assoc.
Qed.

Lemma split_chain v c :
  ∃ pre ck, c = plug pre ck ∧ (v ∉ el_edge <$> pre) ∧
    match ck with FNil => True | FCons e _ _ _ _ => e = v end.
Proof.
  induction c as [|e a q kids _ nx IH].
  - exists [], FNil. split_and!; [done|apply not_elem_of_nil|done].
  - destruct (decide (e = v)) as [->|Hne].
    + exists [], (FCons v a q kids nx). split_and!; [done|apply not_elem_of_nil|done].
    + destruct IH as (pre & ck & -> & Hnin & Hck).
      exists (Elder e a q kids :: pre), ck. split_and!; [done| |done].
      simpl. rewrite not_elem_of_cons. split; [congruence|done].
Qed.

Lemma chain_insert_plug on_hit on_miss v pre ck :
  v ∉ (el_edge <$> pre) →
  match ck with FNil => True | FCons e _ _ _ _ => e = v end →
  chain_insert on_hit on_miss v (plug pre ck) =
    match (match ck with FNil => on_miss | _ => on_hit ck end) with
    | Some (ck', b') => Some (plug pre ck', b')
    | None => None
    end.
Proof.
  intros Hnin Hck. induction pre as [|n pre IH]; simpl.
  - destruct ck as [|e a q k nx]; simpl.
    + by destruct on_miss as [[??]|].
    + subst e. rewrite Z.eqb_refl. by destruct (on_hit _) as [[??]|].
  - simpl in Hnin. apply not_elem_of_cons in Hnin as [Hne Hnin].
    destruct (Z.eqb_spec v (el_edge n)) as [->|_]; [done|].
    rewrite IH by done.
    by destruct (match ck with FNil => on_miss | _ => on_hit ck end) as [[??]|].
Qed.

Lemma addrs_plug pre c : addrs (plug pre c) = (pre_cells pre (faddr c)).*1 ++ addrs c.
Proof. unfold addrs. by rewrite cells_plug, fmap_app. Qed.

Lemma pre_cells_addrs pre x y : (pre_cells pre x).*1 = (pre_cells pre y).*1.
Proof.
  induction pre as [|n pre IH]; simpl; [done|].
  by rewrite !fmap_app, IH.
Qed.

Lemma addrs_cons e a p kids nx :
  addrs (FCons e a p kids nx) = a :: addrs kids ++ addrs nx.
Proof. unfold addrs. simpl. by rewrite fmap_app. Qed.

(** What [insert] does to the node it starts from: label, address and
    younger siblings stay, the nodes below it gain the blocks [b .. b'-1]. *)
Lemma insert_shape vals p : ∀ b e a q kids nx f' b',
  insert vals p b (FCons e a q kids nx) = Some (f', b') →
  ∃ q' kids', f' = FCons e a q' kids' nx ∧ b ≤ b' ∧
    addrs kids' ≡ₚ addrs kids ++ seqZ b (b' - b).
Proof.
  induction vals as [|v vs IH]; intros b e a q kids nx f' b' Hins; simpl in Hins.
  - injection Hins as <- <-. exists p, kids. split_and!; [done|lia|].
    rewrite Z.sub_diag. simpl. by rewrite app_nil_r.
  - destruct (split_chain v kids) as (pre & ck & -> & Hnin & Hck).
    rewrite chain_insert_plug in Hins by done.
    destruct ck as [|e' a' q' k' nx'].
    + destruct (_ =? _); [done|].
      destruct (insert vs p (b + 1) (leaf v b)) as [[ck' b'']|] eqn:Hrec; [|done].
      injection Hins as <- <-.
      apply IH in Hrec as (q'' & k'' & -> & Hle & Hperm).
      eexists _, _. split_and!; [done|lia|].
      rewrite !addrs_plug, addrs_cons. simpl.
      rewrite (pre_cells_addrs pre _ 0), Hperm. unfold addrs; simpl.
      rewrite !app_nil_r. apply Permutation_app_head.
      replace (b'' - b) with (Z.succ (b'' - (b + 1))) by lia.
      rewrite (seqZ_cons b) by lia. by rewrite Z.pred_succ.
    + subst e'.
      destruct (insert vs p b (FCons v a' q' k' nx')) as [[ck' b'']|] eqn:Hrec; [|done].
      injection Hins as <- <-.
      apply IH in Hrec as (q'' & k'' & -> & Hle & Hperm).
      eexists _, _. split_and!; [done|lia|].
      rewrite !addrs_plug, !addrs_cons. simpl. rewrite Hperm.
      rewrite <- !app_assoc. apply Permutation_app_head.
      simpl. constructor. rewrite <- !app_assoc.
      apply Permutation_app_head, Permutation_app_comm.
Qed.

Lemma bind_Ok {A B} (m : M A) (k : A → M B) s x s' :
  m s = Ok x s' → bind m k s = k x s'.
Proof. unfold bind. by intros ->. Qed.

Lemma bind_bind_Ok {A B C} (m : M A) (k1 : A → M B) (k2 : B → M C) s x s' :
  m s = Ok x s' → bind (bind m k1) k2 s = bind (k1 x) k2 s'.
Proof. unfold bind. by intros ->. Qed.

Lemma load_Ok s a n : a ≠ NULL → heap s !! a = Some n → load a s = Ok n s.
Proof.
  intros Ha Hn. unfold load. destruct (Z.eqb_spec a NULL); [done|]. by rewrite Hn.
Qed.

Lemma modify_Ok s a n f :
  a ≠ NULL → heap s !! a = Some n →
  modify a f s = Ok tt (set_heap (<[a := f n]> (heap s)) s).
Proof.
  intros Ha Hn. unfold modify. by rewrite (bind_Ok _ _ _ _ _ (load_Ok _ _ _ Ha Hn)).
Qed.

Lemma plug_nil_inv pre ck : plug pre ck = FNil → pre = [] ∧ ck = FNil.
Proof. by destruct pre. Qed.

Lemma faddr_nonzero c : c ≠ FNil → (∀ x, x ∈ addrs c → x ≠ NULL) → faddr c ≠ NULL.
Proof.
  destruct c as [|e a q k nx]; [done|]. intros _ H. apply H.
  rewrite addrs_cons. left.
Qed.

Lemma scan_edges_plug s v pre ck :
  holds (heap s) (cells (plug pre ck)) →
  (∀ x, x ∈ addrs (plug pre ck) → x ≠ NULL) →
  (v ∉ el_edge <$> pre) →
  match ck with FNil => pre ≠ [] | FCons e _ _ _ _ => e = v end →
  scan_edges v (labels (plug pre ck)) (faddr (plug pre ck)) s =
    Ok (match ck with FNil => (false, last_addr pre) | _ => (true, faddr ck) end) s.
Proof.
  induction pre as [|n pre IH]; intros Hh Hnz Hnin Hck.
  - destruct ck as [|e a q k nx]; [done|]. subst e. simpl.
    by rewrite Z.eqb_refl.
  - simpl in *. apply not_elem_of_cons in Hnin as [Hne Hnin].
    destruct (Z.eqb_spec v (el_edge n)) as [?|_]; [done|].
    apply holds_cons in Hh as [Hn Hh]. apply holds_app in Hh as [_ Hh].
    assert (el_addr n ≠ NULL) as Hn0.
    { apply Hnz. rewrite addrs_cons. left. }
    rewrite (bind_Ok _ _ _ _ _ (load_Ok _ _ _ Hn0 Hn)). simpl.
    assert (∀ x, x ∈ addrs (plug pre ck) → x ≠ NULL) as Hnz'.
    { intros x Hx. apply Hnz. rewrite addrs_cons. right.
      apply elem_of_app. by right. }
    assert (plug pre ck = FNil ∨ plug pre ck ≠ FNil) as [Hnil|Hnn]
      by (destruct (plug pre ck); [by left|by right]).
    + apply plug_nil_inv in Hnil as [-> ->]. simpl. done.
    + pose proof (faddr_nonzero _ Hnn Hnz') as Hf.
      destruct (Z.eqb_spec (faddr (plug pre ck)) NULL) as [?|_]; [done|]. simpl.
      rewrite IH; [|done|done|done|].
      * destruct ck; [|done]. f_equal. f_equal. unfold last_addr. simpl.
        destruct pre; [done|]. done.
      * destruct ck; [|done]. by destruct pre.
Qed.

Lemma add_and_mark_cons v vs p node s :
  add_and_mark (v :: vs) p node s =
  (let* n := load node in
   let* node' :=
     (if negb (child n =? NULL) then
        let* r := scan_edges v (edge n) (child n) in
        if r.1 then ret r.2 else kdn_create_sibling node r.2 v
      else kdn_create_child node v) in
   add_and_mark vs p node') s.
Proof.
  unfold add_and_mark. simpl. unfold bind.
  destruct (load node s) as [n s1| |]; [|done..].
  by destruct (if negb (child n =? NULL) then _ else _) as [? ?| |].
Qed.

Lemma add_and_mark_null vals p s : add_and_mark vals p NULL s = Crash NullDeref.
Proof. by destruct vals. Qed.

Lemma kdn_create_child_Ok s a sib q v :
  a ≠ NULL → a ≠ brk s →
  heap s !! a = Some (Kdn [] NULL sib q) →
  kdn_create_child a v s =
    Ok (brk s) (grown s (<[a := Kdn [v] (brk s) sib q]> (<[brk s := zero_kdn]> (heap s)))).
Proof.
  intros Ha0 Hab Ha. unfold kdn_create_child.
  destruct (Z.eqb_spec a NULL) as [?|_]; [done|].
  rewrite (bind_Ok _ _ _ _ _ (load_Ok _ _ _ Ha0 Ha)). simpl.
  unfold bind at 1. simpl.
  erewrite (bind_Ok (modify _ _)); cycle 1.
  { apply modify_Ok; [done|]. simpl. by rewrite lookup_insert_ne. }
  erewrite (bind_Ok (modify _ _)); cycle 1.
  { apply modify_Ok; [done|]. simpl. by rewrite lookup_insert_eq. }
  erewrite (bind_Ok (load _)); cycle 1.
  { apply load_Ok; [done|]. simpl. by rewrite lookup_insert_eq. }
  unfold ret, grown, set_heap. simpl. by rewrite insert_insert_eq.
Qed.

Lemma kdn_create_sibling_full s a l v na nl :
  a ≠ NULL → l ≠ NULL →
  heap s !! a = Some na → heap s !! l = Some nl →
  num_children na = MAX_CHILDREN - 1 →
  kdn_create_sibling a l v s = Ok NULL s.
Proof.
  intros Ha0 Hl0 Ha Hl Hfull. unfold kdn_create_sibling.
  destruct (Z.eqb_spec a NULL) as [?|_]; [done|].
  destruct (Z.eqb_spec l NULL) as [?|_]; [done|]. simpl.
  rewrite (bind_Ok _ _ _ _ _ (load_Ok _ _ _ Hl0 Hl)).
  rewrite (bind_Ok _ _ _ _ _ (load_Ok _ _ _ Ha0 Ha)).
  by rewrite Hfull.
Qed.

Lemma kdn_create_sibling_Ok s a l v na nl :
  a ≠ NULL → l ≠ NULL → a ≠ l → a ≠ brk s → l ≠ brk s →
  heap s !! a = Some na → heap s !! l = Some nl →
  num_children na ≠ MAX_CHILDREN - 1 →
  kdn_create_sibling a l v s =
    Ok (brk s) (grown s (<[a := push_edge v na]>
                          (<[l := with_sibling (brk s) nl]>
                            (<[brk s := zero_kdn]> (heap s))))).
Proof.
  intros Ha0 Hl0 Hal Hab Hlb Ha Hl Hfull. unfold kdn_create_sibling.
  destruct (Z.eqb_spec a NULL) as [?|_]; [done|].
  destruct (Z.eqb_spec l NULL) as [?|_]; [done|]. simpl.
  rewrite (bind_Ok _ _ _ _ _ (load_Ok _ _ _ Hl0 Hl)).
  rewrite (bind_Ok _ _ _ _ _ (load_Ok _ _ _ Ha0 Ha)).
  destruct (Z.eqb_spec (num_children na) (MAX_CHILDREN - 1)) as [?|_]; [done|].
  unfold bind at 1. simpl.
  erewrite (bind_Ok (modify _ _)); cycle 1.
  { apply modify_Ok; [done|]. simpl. by rewrite lookup_insert_ne. }
  erewrite (bind_Ok (modify _ _)); cycle 1.
  { apply modify_Ok; [done|]. simpl. rewrite lookup_insert_ne by done.
    by rewrite lookup_insert_ne. }
  erewrite (bind_Ok (load _)); cycle 1.
  { apply load_Ok; [done|]. simpl. rewrite lookup_insert_ne by done.
    by rewrite lookup_insert_eq. }
  done.
Qed.

Lemma pre_cells_snoc pre nl x :
  pre_cells (pre ++ [nl]) x =
    pre_cells pre (el_addr nl) ++
    (el_addr nl, Kdn (labels (el_kids nl)) (faddr (el_kids nl)) x (el_pi nl))
      :: cells (el_kids nl).
Proof.
  induction pre as [|n pre IH]; simpl.
  - by rewrite app_nil_r.
  - rewrite IH. rewrite <- !app_assoc. by destruct pre.
Qed.

Lemma cells_plug_snoc pre nl c :
  cells (plug (pre ++ [nl]) c) =
    pre_cells pre (el_addr nl) ++
    (el_addr nl, Kdn (labels (el_kids nl)) (faddr (el_kids nl)) (faddr c) (el_pi nl))
      :: cells (el_kids nl) ++ cells c.
Proof. rewrite cells_plug, pre_cells_snoc. by rewrite <- app_assoc. Qed.

Lemma add_path_refines vals p : ∀ s e a q kids nx sib,
  node_at (heap s) a kids sib q →
  NoDup (a :: addrs kids) →
  (∀ x, x ∈ a :: addrs kids → 0 < x < brk s) →
  match insert vals p (brk s) (FCons e a q kids nx) with
  | Some (f', b') =>
    ∃ s' q' kids', f' = FCons e a q' kids' nx ∧
      add_and_mark vals p a s = Ok tt s' ∧
      brk s' = b' ∧ keywords s' = keywords s ∧ kd_root s' = kd_root s ∧
      node_at (heap s') a kids' sib q' ∧
      (∀ x, x ≠ a → x ∉ addrs kids' → heap s' !! x = heap s !! x)
  | None => add_and_mark vals p a s = Crash NullDeref
  end.
Proof.
  induction vals as [|v vs IH]; intros s e a q kids nx sib [Ha Hkids] Hnd Hbd.
  - simpl. exists (set_heap (<[a := with_pi p (Kdn (labels kids) (faddr kids) sib q)]> (heap s)) s), p, kids.
    assert (a ≠ NULL) as Ha0.
    { assert (0 < a < brk s) by (apply Hbd; left). unfold NULL. lia. }
    split_and!; try done.
    + unfold add_and_mark. simpl. unfold bind, ret. by apply modify_Ok.
    + split; simpl.
      * by rewrite lookup_insert_eq.
      * eapply holds_frame; [done|]. intros x Hx. simpl.
        rewrite lookup_insert_ne; [done|]. intros ->.
        by apply NoDup_cons in Hnd as [? _].
    + intros x Hx _. simpl. by rewrite lookup_insert_ne.
  - assert (0 < a < brk s) as Habd by (apply Hbd; left).
    assert (a ≠ NULL) as Ha0 by (unfold NULL; lia).
    assert (∀ s1 b, heap s1 !! b = Some zero_kdn → 0 < b < brk s1 →
      match insert vs p (brk s1) (leaf v b) with
      | Some (f', b') =>
        ∃ s' q' kids', f' = FCons v b q' kids' FNil ∧
          add_and_mark vs p b s1 = Ok tt s' ∧
          brk s' = b' ∧ keywords s' = keywords s1 ∧ kd_root s' = kd_root s1 ∧
          node_at (heap s') b kids' NULL q' ∧
          (∀ x, x ≠ b → x ∉ addrs kids' → heap s' !! x = heap s1 !! x)
      | None => add_and_mark vs p b s1 = Crash NullDeref
      end) as Hleaf.
    { intros s1 b Hb Hbb. apply (IH s1 v b (Pi 0 0) FNil FNil NULL).
      - split; [done|apply holds_nil].
      - apply NoDup_singleton.
      - intros x Hx. apply list_elem_of_singleton in Hx as ->. done. }
    rewrite add_and_mark_cons.
    rewrite (bind_Ok _ _ _ _ _ (load_Ok _ _ _ Ha0 Ha)).
    cbn [insert child edge].
    destruct (split_chain v kids) as (pre & ck & -> & Hnin & Hck).
    rewrite chain_insert_plug by done.
    destruct ck as [|e' a' q' k' nx']; [destruct pre as [|nl pre _] using rev_ind|].
    + (* no child yet: kdn_create_child *)
      simpl in *.
      assert (a ≠ brk s) as Hab by lia.
      rewrite (bind_Ok _ _ _ _ _ (kdn_create_child_Ok _ _ _ _ v Ha0 Hab Ha)).
      set (s1 := grown s _).
      specialize (Hleaf s1 (brk s)). simpl in Hleaf.
      rewrite lookup_insert_ne, lookup_insert_eq in Hleaf by lia.
      specialize (Hleaf eq_refl ltac:(lia)).
      destruct (insert vs p (brk s + 1) (leaf v (brk s))) as [[f' b']|] eqn:Hins;
        [|done].
      destruct Hleaf as (s' & q' & k' & -> & Hrun & Hbrk & Hkw & Hroot & [Hb Hk'] & Hfr).
      apply insert_shape in Hins as (? & ? & [= <- <-] & Hle & Hperm).
      assert (∀ x, x ∈ addrs k' → brk s + 1 ≤ x) as Hfresh.
      { intros x Hx. rewrite Hperm in Hx. simpl in Hx.
        apply elem_of_seqZ in Hx. lia. }
      assert (a ∉ addrs k') as Hak by (intros ?%Hfresh; lia).
      exists s', q, (FCons v (brk s) q' k' FNil). split_and!; try done.
      * split; simpl.
        -- rewrite Hfr by (done || lia). subst s1. simpl.
           by rewrite lookup_insert_eq.
        -- rewrite app_nil_r. by apply holds_cons.
      * intros x Hxa Hx. rewrite addrs_cons, app_nil_r in Hx.
        apply not_elem_of_cons in Hx as [Hxb Hx].
        rewrite Hfr by done. subst s1. simpl.
        by rewrite !lookup_insert_ne.
    + (* no edge for [v]: kdn_create_sibling after the last child *)
      clear Hck. set (kids := plug (pre ++ [nl]) FNil) in *.
      assert (kids ≠ FNil) as Hne.
      { intros [Hp _]%plug_nil_inv. by destruct pre. }
      assert (∀ x, x ∈ addrs kids → x ≠ NULL) as Hnz.
      { intros x Hx. assert (0 < x < brk s) by (apply Hbd; by right).
        unfold NULL; lia. }
      pose proof (faddr_nonzero _ Hne Hnz) as Hf.
      destruct (Z.eqb_spec (faddr kids) NULL) as [?|_]; [done|]. cbn [negb].
      rewrite (bind_bind_Ok _ _ _ _ _ _
                 (scan_edges_plug s v (pre ++ [nl]) FNil Hkids Hnz Hnin
                    ltac:(by destruct pre))).
      cbn [fst snd]. unfold last_addr. rewrite last_snoc.
      pose proof Hkids as Hkids'. unfold kids in Hkids'.
      rewrite cells_plug_snoc in Hkids'.
      apply holds_app in Hkids' as [Hpre Hl].
      apply holds_cons in Hl as [Hl Hkl]. rewrite app_nil_r in Hkl.
      pose proof Hnd as Hnd'. unfold kids, addrs in Hnd'.
      rewrite cells_plug_snoc, app_nil_r, fmap_app, fmap_cons in Hnd'.
      cbn [fst] in Hnd'. fold (addrs (el_kids nl)) in Hnd'.
      set (l := el_addr nl) in *.
      assert (addrs kids = (pre_cells pre l).*1 ++ l :: addrs (el_kids nl)) as Hdec.
      { unfold kids, addrs. by rewrite cells_plug_snoc, app_nil_r, fmap_app. }
      apply NoDup_cons in Hnd' as [Hak Hnd'].
      apply NoDup_app in Hnd' as (_ & Hpl & Hnd').
      apply NoDup_cons in Hnd' as [Hlk _].
      rewrite <- Hdec in Hak.
      assert (∀ x, x ∈ addrs kids → x ≠ a ∧ x < brk s) as Hold.
      { intros x Hx. split; [by intros ->|]. apply Hbd. by right. }
      assert (l ∈ addrs kids) as Hlin.
      { rewrite Hdec. apply elem_of_app. right. left. }
      destruct (Hold _ Hlin) as [Hla Hlb]. pose proof (Hnz _ Hlin) as Hl0.
      destruct (Z.eqb_spec (Z.of_nat (length (labels kids))) (MAX_CHILDREN - 1))
        as [Hfull|Hnf].
      { rewrite (bind_Ok _ _ _ _ _
                   (kdn_create_sibling_full s a l v _ _ Ha0 Hl0 Ha Hl Hfull)).
        apply add_and_mark_null. }
      rewrite (bind_Ok _ _ _ _ _
                 (kdn_create_sibling_Ok s a l v _ _ Ha0 Hl0 ltac:(done)
                    ltac:(lia) ltac:(lia) Ha Hl Hnf)).
      set (s1 := grown s _).
      specialize (Hleaf s1 (brk s)). simpl in Hleaf.
      rewrite !lookup_insert_ne, lookup_insert_eq in Hleaf by lia.
      specialize (Hleaf eq_refl ltac:(lia)).
      destruct (insert vs p (brk s + 1) (leaf v (brk s))) as [[f' b']|] eqn:Hins;
        [|done].
      destruct Hleaf as (s' & q' & k' & -> & Hrun & Hbrk & Hkw & Hroot & [Hb Hk'] & Hfr).
      apply insert_shape in Hins as (? & ? & [= <- <-] & Hle & Hperm).
      assert (∀ x, x ∈ addrs k' → brk s + 1 ≤ x) as Hfresh.
      { intros x Hx. rewrite Hperm in Hx. simpl in Hx.
        apply elem_of_seqZ in Hx. lia. }
      assert (∀ x, x < brk s → x ≠ a → x ≠ l → heap s' !! x = heap s !! x) as Hfr'.
      { intros x Hx Hxa Hxl. rewrite Hfr; [|lia|intros ?%Hfresh; lia].
        subst s1. simpl. rewrite !lookup_insert_ne by (done || lia). done. }
      exists s', q, (plug (pre ++ [nl]) (FCons v (brk s) q' k' FNil)).
      split_and!; try done.
      * split.
        -- rewrite Hfr; [|lia|intros ?%Hfresh; lia]. subst s1. simpl.
           rewrite lookup_insert_eq. unfold push_edge. simpl.
           f_equal. f_equal.
           ++ unfold kids. rewrite !labels_plug. simpl. by rewrite app_nil_r.
           ++ unfold kids. rewrite !faddr_plug. by destruct pre.
        -- rewrite cells_plug_snoc. apply holds_app. split; [|apply holds_cons; split].
           ++ eapply holds_frame; [done|]. intros x Hx.
              assert (x ∈ addrs kids) as Hxin
                by (rewrite Hdec; apply elem_of_app; by left).
              destruct (Hold x Hxin). apply Hfr'; [done..|].
              intros ->. by apply (Hpl l); [|left].
           ++ rewrite Hfr; [|lia|intros ?%Hfresh; lia]. subst s1. simpl.
              rewrite lookup_insert_ne by done. rewrite lookup_insert_eq. done.
           ++ apply holds_app. split.
              ** eapply holds_frame; [done|]. intros x Hx.
                 assert (x ∈ addrs kids) as Hxin.
                 { rewrite Hdec. apply elem_of_app. right. by right. }
                 destruct (Hold x Hxin). apply Hfr'; [done..|].
                 by intros ->.
              ** simpl. rewrite app_nil_r. by apply holds_cons.
      * intros x Hxa Hx. unfold addrs in Hx.
        rewrite cells_plug_snoc, fmap_app, fmap_cons, fmap_app in Hx.
        cbn [cells fst] in Hx. rewrite app_nil_r, fmap_cons in Hx. cbn [fst] in Hx.
        rewrite Hfr.
        -- subst s1. simpl. rewrite !lookup_insert_ne; [done|..].
           ++ intros <-. apply Hx. apply elem_of_app. right. right.
              apply elem_of_app. right. left.
           ++ intros <-. apply Hx. apply elem_of_app. right. left.
           ++ done.
        -- intros ->. apply Hx. apply elem_of_app. right. right.
           apply elem_of_app. right. left.
        -- intros Hin. apply Hx. apply elem_of_app. right. right.
           apply elem_of_app. right. by right.
    + (* an edge for [v] exists: follow it *)
      subst e'. set (kids := plug pre (FCons v a' q' k' nx')) in *.
      assert (kids ≠ FNil) as Hne.
      { intros [_ ?]%plug_nil_inv. done. }
      assert (∀ x, x ∈ addrs kids → x ≠ NULL) as Hnz.
      { intros x Hx. assert (0 < x < brk s) by (apply Hbd; by right).
        unfold NULL; lia. }
      pose proof (faddr_nonzero _ Hne Hnz) as Hf.
      destruct (Z.eqb_spec (faddr kids) NULL) as [?|_]; [done|]. cbn [negb].
      rewrite (bind_bind_Ok _ _ _ _ _ _
                 (scan_edges_plug s v pre _ Hkids Hnz Hnin eq_refl)).
      cbn [fst snd faddr]. unfold ret at 1. unfold bind at 1.
      assert (addrs kids = (pre_cells pre a').*1 ++ a' :: addrs k' ++ addrs nx') as Hdec.
      { unfold kids. by rewrite addrs_plug, addrs_cons. }
      pose proof Hkids as Hkids'. unfold kids in Hkids'.
      rewrite cells_plug in Hkids'. cbn [cells faddr] in Hkids'.
      apply holds_app in Hkids' as [Hpre Hck].
      apply holds_cons in Hck as [Ha' Hck]. apply holds_app in Hck as [Hk' Hnx'].
      pose proof Hnd as Hnd'. rewrite Hdec in Hnd'.
      apply NoDup_cons in Hnd' as [Hak Hnd']. rewrite <- Hdec in Hak.
      apply NoDup_app in Hnd' as (_ & Hpl & Hnd').
      assert (∀ x, x ∈ addrs kids → x ≠ a ∧ 0 < x < brk s) as Hold.
      { intros x Hx. split; [by intros ->|]. apply Hbd. by right. }
      apply NoDup_cons in Hnd' as [Ha'k Hnd'].
      apply NoDup_app in Hnd' as (Hndk & Hkn & _).
      assert (∀ x, x ∈ a' :: addrs k' → x ∈ addrs kids) as Hsub.
      { intros x Hx. rewrite Hdec. apply elem_of_app. right.
        apply elem_of_cons in Hx as [->|Hx]; [left|right].
        apply elem_of_app. by left. }
      specialize (IH s v a' q' k' nx' (faddr nx') (conj Ha' Hk')).
      destruct (insert vs p (brk s) (FCons v a' q' k' nx')) as [[f' b']|] eqn:Hins;
        cycle 1.
      { apply IH.
        - apply NoDup_cons. split; [|done]. intros ?. apply Ha'k, elem_of_app. by left.
        - intros x Hx. by apply Hold, Hsub. }
      destruct IH as (s' & q'' & k'' & -> & Hrun & Hbrk & Hkw & Hroot & [Hb Hk''] & Hfr).
      { apply NoDup_cons. split; [|done]. intros ?. apply Ha'k, elem_of_app. by left. }
      { intros x Hx. by apply Hold, Hsub. }
      apply insert_shape in Hins as (? & ? & [= <- <-] & Hle & Hperm).
      assert (∀ x, x ∈ addrs k'' → x ∈ addrs k' ∨ brk s ≤ x) as Hfresh.
      { intros x Hx. rewrite Hperm in Hx. apply elem_of_app in Hx as [?|Hx]; [by left|].
        apply elem_of_seqZ in Hx. right. lia. }
      assert (∀ x, x < brk s → x ≠ a' → x ∉ addrs k' → heap s' !! x = heap s !! x)
        as Hfr'.
      { intros x Hx Hxa Hxk. apply Hfr; [done|]. intros [?|?]%Hfresh; [done|lia]. }
      exists s', q, (plug pre (FCons v a' q'' k'' nx')).
      split_and!; try done.
      * split.
        -- rewrite Hfr'; [|lia| |].
           ++ rewrite Ha. unfold kids. by rewrite !labels_plug, !faddr_plug.
           ++ intros ->. apply Hak, Hsub. left.
           ++ intros ?. apply Hak, Hsub. by right.
        -- rewrite cells_plug. cbn [cells faddr]. apply holds_app. split.
           ++ eapply holds_frame; [done|]. intros x Hx.
              assert (x ∈ addrs kids) as Hxin
                by (rewrite Hdec; apply elem_of_app; by left).
              destruct (Hold x Hxin) as [? [? ?]]. apply Hfr'; [done|..].
              ** intros ->. by apply (Hpl a'); [|left].
              ** intros ?. apply (Hpl x); [done|]. right. apply elem_of_app. by left.
           ++ apply holds_cons. split; [done|]. apply holds_app. split; [done|].
              eapply holds_frame; [done|]. intros x Hx.
              assert (x ∈ addrs kids) as Hxin.
              { rewrite Hdec. apply elem_of_app. right. right. apply elem_of_app. by right. }
              destruct (Hold x Hxin) as [? [? ?]]. apply Hfr'; [done|..].
              ** intros ->. apply Ha'k. apply elem_of_app. by right.
              ** intros ?. by apply (Hkn x).
      * intros x Hxa Hx. rewrite addrs_plug, addrs_cons in Hx.
        apply Hfr.
        -- intros ->. apply Hx. apply elem_of_app. right. left.
        -- intros ?. apply Hx. apply elem_of_app. right. right.
           apply elem_of_app. by left.
Qed.

Lemma insert_all_shape kcs : ∀ b e a q kids nx f' b',
  insert_all kcs b (FCons e a q kids nx) = Some (f', b') →
  ∃ q' kids', f' = FCons e a q' kids' nx ∧ b ≤ b' ∧
    addrs kids' ≡ₚ addrs kids ++ seqZ b (b' - b).
Proof.
  induction kcs as [|kc kcs IH]; intros b e a q kids nx f' b' Hins; simpl in Hins.
  - injection Hins as <- <-. exists q, kids. split_and!; [done|lia|].
    by rewrite Z.sub_diag, app_nil_r.
  - destruct (insert _ _ _ _) as [[f1 b1]|] eqn:H1; [|done].
    apply insert_shape in H1 as (q1 & kids1 & -> & Hle1 & Hp1).
    apply IH in Hins as (q2 & kids2 & -> & Hle2 & Hp2).
    exists q2, kids2. split_and!; [done|lia|].
    rewrite Hp2, Hp1, <- app_assoc. apply Permutation_app_head.
    replace (b' - b) with ((b1 - b) + (b' - b1)) by lia.
    rewrite seqZ_app by lia. by replace (b + (b1 - b)) with b1 by lia.
Qed.

Lemma keyword_dict_add_keyword_refines s f kc :
  models s f →
  match insert (value kc) (kc_pi kc) (brk s) f with
  | Some (f', b') =>
    ∃ s', keyword_dict_add_keyword (kd_root s) kc s = Ok 0 s' ∧
      models s' f' ∧ brk s' = b' ∧ keywords s' = keywords s ∧
      kd_root s' = kd_root s ∧
      (∀ x, x ∉ addrs f' → heap s' !! x = heap s !! x)
  | None => keyword_dict_add_keyword (kd_root s) kc s = Crash NullDeref
  end.
Proof.
  intros [(q & kids & ->) Hc Hnd Hbd].
  rewrite addrs_cons, app_nil_r in Hnd, Hbd.
  simpl in Hc. rewrite app_nil_r in Hc. apply holds_cons in Hc as [Hr Hk].
  pose proof (add_path_refines (value kc) (kc_pi kc) s 0 (kd_root s) q kids FNil NULL
                (conj Hr Hk) Hnd Hbd) as H.
  assert (kd_root s ≠ NULL) as Hr0.
  { assert (0 < kd_root s < brk s) by (apply Hbd; left). unfold NULL; lia. }
  unfold keyword_dict_add_keyword.
  destruct (Z.eqb_spec (kd_root s) NULL) as [?|_]; [done|].
  destruct (insert _ _ _ _) as [[f' b']|] eqn:Hins.
  - destruct H as (s' & q' & kids' & -> & Hrun & Hbrk & Hkw & Hroot & [Hr' Hk'] & Hfr).
    apply insert_shape in Hins as (? & ? & [= <- <-] & Hle & Hperm).
    exists s'. split_and!; try done.
    + unfold add_and_mark in Hrun. unfold bind in *.
      destruct (add_path _ _ _) as [n s1| |]; [|done..].
      destruct (modify _ _ _) as [[] s2| |]; [|done..].
      by injection Hrun as ->.
    + split.
      * rewrite Hroot. by eexists _, _.
      * simpl. rewrite app_nil_r. by apply holds_cons.
      * rewrite addrs_cons, app_nil_r. rewrite Hperm.
        apply NoDup_cons in Hnd as [Hn1 Hn2]. apply NoDup_cons. split.
        -- intros [?|Hx%elem_of_seqZ]%elem_of_app; [done|].
           assert (0 < kd_root s < brk s) by (apply Hbd; left). lia.
        -- apply NoDup_app. split_and!; [done| |apply NoDup_seqZ].
           intros x Hx Hx'%elem_of_seqZ.
           assert (0 < x < brk s) by (apply Hbd; by right). lia.
      * intros x. rewrite addrs_cons, app_nil_r. rewrite Hperm.
        intros [->|[Hx|Hx%elem_of_seqZ]%elem_of_app]%elem_of_cons.
        -- assert (0 < kd_root s < brk s) by (apply Hbd; left). lia.
        -- assert (0 < x < brk s) by (apply Hbd; by right). lia.
        -- assert (0 < kd_root s < brk s) by (apply Hbd; left). lia.
    + intros x Hx. rewrite addrs_cons, app_nil_r in Hx.
      apply not_elem_of_cons in Hx as [??]. by apply Hfr.
  - unfold add_and_mark in H. unfold bind in *.
    destruct (add_path _ _ _) as [n s1| |]; [|congruence..].
    destruct (modify _ _ _) as [[] s2| |]; congruence.
Qed.

Lemma add_keywords_refines kcs : ∀ s f,
  models s f →
  match insert_all kcs (brk s) f with
  | Some (f', b') =>
    ∃ s', add_keywords (kd_root s) kcs s = Ok tt s' ∧
      models s' f' ∧ brk s' = b' ∧ keywords s' = keywords s ∧
      kd_root s' = kd_root s ∧
      (∀ x, x ∉ addrs f' → heap s' !! x = heap s !! x)
  | None => add_keywords (kd_root s) kcs s = Crash NullDeref
  end.
Proof.
  induction kcs as [|kc kcs IH]; intros s f Hm; simpl.
  - by exists s.
  - pose proof (keyword_dict_add_keyword_refines s f kc Hm) as H.
    destruct (insert _ _ _ _) as [[f1 b1]|].
    + destruct H as (s1 & Hrun & Hm1 & <- & Hkw1 & Hroot1 & Hfr1).
      rewrite (bind_Ok _ _ _ _ _ Hrun). rewrite <- Hroot1.
      specialize (IH s1 f1 Hm1).
      destruct (insert_all _ _ _) as [[f2 b2]|] eqn:Hall; [|done].
      destruct IH as (s2 & Hrun2 & Hm2 & <- & Hkw2 & Hroot2 & Hfr2).
      exists s2. split_and!; try done; try congruence.
      intros x Hx. rewrite Hfr2 by done. apply Hfr1. intros Hx1. apply Hx.
      destruct Hm1 as [(q1 & k1 & ->) _ _ _].
      apply insert_all_shape in Hall as (q2 & k2 & -> & _ & Hp).
      rewrite addrs_cons, app_nil_r in Hx1 |- *.
      apply elem_of_cons in Hx1 as [->|Hx1]; [left|right].
      rewrite Hp. apply elem_of_app. by left.
    + unfold bind. by rewrite H.
Qed.

Lemma search_children_refines s b descend fdescend c :
  holds (heap s) (cells c) →
  (∀ x, x ∈ addrs c → x ≠ NULL) →
  (∀ e a p k nx, holds (heap s) (cells (FCons e a p k nx)) →
     (∀ x, x ∈ addrs (FCons e a p k nx) → x ≠ NULL) →
     descend a s = Ok (fdescend (FCons e a p k nx)) s) →
  search_children b descend (labels c) (faddr c) s = Ok (fsearch_chain b fdescend c) s.
Proof.
  intros Hc Hnz Hd. induction c as [|e a p k _ nx IH]; [done|].
  pose proof Hc as Hc'. simpl in Hc'. apply holds_cons in Hc' as [Ha Hc'].
  apply holds_app in Hc' as [_ Hnx].
  assert (a ≠ NULL) as Ha0 by (apply Hnz; rewrite addrs_cons; left).
  simpl. unfold edge_matches.
  destruct ((e =? WILDCARD) || (char_of_byte b =? e));
    rewrite (bind_Ok _ _ _ _ _ (load_Ok _ _ _ Ha0 Ha)); simpl.
  - destruct (negb (app p =? 0)); [done|]. by apply Hd.
  - apply IH; [done|]. intros x Hx. apply Hnz. rewrite addrs_cons. right.
    apply elem_of_app. by right.
Qed.

Lemma search_keyword_dict_refines s data : ∀ e a p k nx,
  holds (heap s) (cells (FCons e a p k nx)) →
  (∀ x, x ∈ addrs (FCons e a p k nx) → x ≠ NULL) →
  search_keyword_dict a data s = Ok (fsearch data (FCons e a p k nx)) s.
Proof.
  induction data as [|b data IH]; intros e a p k nx Hc Hnz; [done|].
  pose proof Hc as Hc'. simpl in Hc'. apply holds_cons in Hc' as [Ha Hc'].
  apply holds_app in Hc' as [Hk _].
  assert (a ≠ NULL) as Ha0 by (apply Hnz; rewrite addrs_cons; left).
  cbn [search_keyword_dict fsearch].
  destruct (Z.eqb_spec a NULL) as [?|_]; [done|].
  rewrite (bind_Ok _ _ _ _ _ (load_Ok _ _ _ Ha0 Ha)). cbn [edge child].
  apply search_children_refines; [done| |].
  - intros x Hx. apply Hnz. rewrite addrs_cons. right. apply elem_of_app. by left.
  - intros e' a' p' k' nx' Hc' Hnz'.
    destruct (_ =? 1); [done|]. by apply IH.
Qed.

Lemma every_mono (P Q : list Z → Prop) f :
  (∀ l, P l → Q l) → every P f → every Q f.
Proof.
  intros HPQ. induction f as [|e a q kids IHk nx IHn]; simpl; [done|].
  intros (? & ? & ?). auto.
Qed.

Lemma every_plug P pre c :
  every P (plug pre c) ↔
  Forall (λ n, P (labels (el_kids n)) ∧ every P (el_kids n)) pre ∧ every P c.
Proof.
  induction pre as [|n pre IH]; simpl.
  - split; [intros ?; split; [constructor|done]|by intros [_ ?]].
  - rewrite Forall_cons, IH. tauto.
Qed.

Lemma insert_every (P Q : list Z → Prop) vals p :
  (∀ l, P l → Q l) → P [] →
  (∀ l v, P l → v ∉ l → Z.of_nat (length l) ≠ MAX_CHILDREN - 1 → Q (l ++ [v])) →
  ∀ b f f' b', every P f → insert vals p b f = Some (f', b') → every Q f'.
Proof.
  intros HPQ Hnil Hsnoc.
  induction vals as [|v vs IH]; intros b f f' b' Hf Hins;
    destruct f as [|e a q kids nx]; try done; simpl in Hins.
  - injection Hins as <- <-. by apply (every_mono P).
  - destruct Hf as (HP & Hkids & Hnx).
    destruct (split_chain v kids) as (pre & ck & -> & Hnin & Hck).
    rewrite chain_insert_plug in Hins by done.
    apply every_plug in Hkids as [Hpre Hck'].
    assert (Forall (λ n, Q (labels (el_kids n)) ∧ every Q (el_kids n)) pre) as Hpre'.
    { eapply Forall_impl; [done|]. intros n [??]. split; [auto|by apply (every_mono P)]. }
    destruct ck as [|e' a' q' k' nx'].
    + destruct (Z.eqb_spec (Z.of_nat (length (labels (plug pre FNil)))) (MAX_CHILDREN - 1))
        as [|Hlen]; [done|].
      destruct (insert vs p (b + 1) (leaf v b)) as [[ck' b'']|] eqn:Hrec; [|done].
      injection Hins as <- <-.
      pose proof Hrec as Hsh. apply insert_shape in Hsh as (q'' & k'' & -> & _ & _).
      apply IH in Hrec; [|done].
      simpl. split_and!.
      * rewrite labels_plug in *. simpl in *. rewrite app_nil_r in HP, Hlen.
        by apply Hsnoc.
      * by apply every_plug.
      * by apply (every_mono P).
    + subst e'.
      destruct (insert vs p b (FCons v a' q' k' nx')) as [[ck' b'']|] eqn:Hrec; [|done].
      injection Hins as <- <-.
      pose proof Hrec as Hsh. apply insert_shape in Hsh as (q'' & k'' & -> & _ & _).
      apply IH in Hrec; [|done].
      simpl. split_and!.
      * rewrite labels_plug in *. simpl in *. auto.
      * by apply every_plug.
      * by apply (every_mono P).
Qed.

Lemma insert_succeeds vals p : ∀ b f,
  f ≠ FNil →
  every (λ l, Z.of_nat (length l) < MAX_CHILDREN - 1) f →
  is_Some (insert vals p b f).
Proof.
  induction vals as [|v vs IH]; intros b f Hne Hf;
    destruct f as [|e a q kids nx]; try done; simpl.
  destruct Hf as (HP & Hkids & Hnx).
  destruct (split_chain v kids) as (pre & ck & -> & Hnin & Hck).
  rewrite chain_insert_plug by done.
  apply every_plug in Hkids as [Hpre Hck'].
  destruct ck as [|e' a' q' k' nx'].
  - destruct (Z.eqb_spec (Z.of_nat (length (labels (plug pre FNil)))) (MAX_CHILDREN - 1))
      as [|Hlen]; [lia|].
    destruct (IH (b + 1) (leaf v b)) as [[??] ->]; [done|simpl|done].
    unfold MAX_CHILDREN. split_and!; [lia|done..].
  - destruct (IH b (FCons e' a' q' k' nx')) as [[??] ->]; done.
Qed.

Lemma insert_all_succeeds kcs : ∀ (n : nat) b f,
  f ≠ FNil →
  (n + length kcs ≤ 256)%nat →
  every (λ l, length l ≤ n)%nat f →
  every (NoDup (A:=Z)) f →
  ∃ f' b', insert_all kcs b f = Some (f', b') ∧
    every (λ l, length l ≤ n + length kcs)%nat f' ∧ every (NoDup (A:=Z)) f'.
Proof.
  induction kcs as [|kc kcs IH]; intros n b f Hne Hn Hw Hnd; simpl in *.
  - exists f, b. split_and!; [done| |done].
    eapply every_mono; [|exact Hw]. simpl. intros; lia.
  - destruct (insert_succeeds (value kc) (kc_pi kc) b f) as [[f1 b1] H1]; [done| |].
    { eapply every_mono; [|exact Hw]. intros l ?. simpl in *. unfold MAX_CHILDREN. lia. }
    rewrite H1.
    destruct (IH (S n) b1 f1) as (f' & b' & H2 & Hw' & Hnd').
    + destruct f as [|e a q kids nx]; [done|].
      by apply insert_shape in H1 as (? & ? & -> & _).
    + lia.
    + apply (insert_every (λ l, length l ≤ n)%nat _ (value kc) (kc_pi kc))
        with (b := b) (f := f) (b' := b1); simpl; try done; try (intros; lia).
      intros l v ? ? ?. rewrite length_app. simpl. lia.
    + apply (insert_every (NoDup (A:=Z)) _ (value kc) (kc_pi kc))
        with (b := b) (f := f) (b' := b1); try done.
      * apply NoDup_nil_2.
      * intros l v ? ? ?. apply NoDup_app. split_and!; [done| |apply NoDup_singleton].
        by intros x Hx ->%list_elem_of_singleton.
    + exists f', b'. split_and!; [done| |done].
      eapply every_mono; [|exact Hw']. simpl. intros; lia.
Qed.

Lemma rooted_models s : 0 < brk s → models (rooted s) (leaf 0 (brk s)).
Proof.
  intros Hb. split; simpl.
  - by eexists _, _.
  - apply holds_cons. split; [by rewrite lookup_insert_eq|apply holds_nil].
  - apply NoDup_singleton.
  - intros x ->%list_elem_of_singleton. simpl. lia.
Qed.

Lemma construct_keyword_dict_refines s :
  kd_root s = NULL → 0 < brk s → (length (keywords s) ≤ 256)%nat →
  ∃ s' f,
    construct_keyword_dict s = Ok 0 s' ∧
    insert_all (keywords s) (brk s + 1) (leaf 0 (brk s)) = Some (f, brk s') ∧
    models s' f ∧ every (NoDup (A:=Z)) f ∧
    every (λ l, length l ≤ length (keywords s))%nat f ∧
    kd_root s' = brk s ∧ keywords s' = keywords s ∧
    (∀ x, x ∉ addrs f → heap s' !! x = heap s !! x).
Proof.
  intros Hroot Hb Hlen.
  destruct (insert_all_succeeds (keywords s) 0 (brk s + 1) (leaf 0 (brk s)))
    as (f & b' & Hall & Hw & Hnd); [done|simpl; lia|simpl;split_and!; try done|
                                   simpl; split_and!; try done; apply NoDup_nil_2|].
  pose proof (add_keywords_refines (keywords s) (rooted s) _ (rooted_models s Hb)) as H.
  simpl in H. rewrite Hall in H.
  destruct H as (s' & Hrun & Hm & <- & Hkw & Hr & Hfr).
  exists s', f. split_and!; try done.
  - unfold construct_keyword_dict, bind, get. rewrite Hroot. simpl.
    fold (rooted s). unfold bind in *. by rewrite Hrun.
  - intros x Hx. rewrite Hfr by done. simpl. apply lookup_insert_ne.
    intros <-. apply Hx.
    apply insert_all_shape in Hall as (q' & k' & -> & _). rewrite addrs_cons. left.
Qed.

(** ** Walking a path *)

Lemma hit_plug v pre ck :
  (v ∉ el_edge <$> pre) →
  match ck with FNil => True | FCons e _ _ _ _ => e = v end →
  hit v (plug pre ck) = ck.
Proof.
  intros Hnin Hck. induction pre as [|n pre IH]; simpl.
  - destruct ck as [|e a q k nx]; [done|]. simpl. subst e. by rewrite Z.eqb_refl.
  - simpl in Hnin. apply not_elem_of_cons in Hnin as [Hne Hnin].
    destruct (Z.eqb_spec v (el_edge n)) as [?|_]; [done|]. by apply IH.
Qed.

Lemma locate_nil vals : locate vals FNil = NULL.
Proof. by destruct vals. Qed.

Lemma path_end_refines s vals : ∀ e a p k nx,
  holds (heap s) (cells (FCons e a p k nx)) →
  (∀ x, x ∈ addrs (FCons e a p k nx) → x ≠ NULL) →
  path_end vals a s = Ok (locate vals (FCons e a p k nx)) s.
Proof.
  induction vals as [|v vs IH]; intros e a p k nx Hc Hnz; [done|].
  pose proof Hc as Hc'. simpl in Hc'. apply holds_cons in Hc' as [Ha Hc'].
  apply holds_app in Hc' as [Hk _].
  assert (a ≠ NULL) as Ha0 by (apply Hnz; rewrite addrs_cons; left).
  assert (∀ x, x ∈ addrs k → x ≠ NULL) as Hnzk.
  { intros x Hx. apply Hnz. rewrite addrs_cons. right. apply elem_of_app. by left. }
  cbn [path_end locate].
  rewrite (bind_Ok _ _ _ _ _ (load_Ok _ _ _ Ha0 Ha)). cbn [edge child].
  destruct (split_chain v k) as (pre & ck & -> & Hnin & Hck).
  rewrite hit_plug by done.
  assert (plug pre ck = FNil ∨ plug pre ck ≠ FNil) as [Hnil|Hnn]
    by (destruct (plug pre ck); [by left|by right]).
  - rewrite Hnil. simpl. apply plug_nil_inv in Hnil as [_ ->].
    by rewrite locate_nil.
  - pose proof (faddr_nonzero _ Hnn Hnzk) as Hf.
    destruct (Z.eqb_spec (faddr (plug pre ck)) NULL) as [?|_]; [done|]. cbn [negb].
    rewrite (bind_Ok _ _ _ _ _ (scan_edges_plug s v pre ck Hk Hnzk Hnin
      ltac:(destruct ck; [intros ->; by apply Hnn|done]))).
    destruct ck as [|e' a' q' k' nx']; [by rewrite locate_nil|].
    cbn [fst snd faddr]. apply IH.
    + rewrite cells_plug in Hk. by apply holds_app in Hk as [_ ?].
    + intros x Hx. apply Hnzk. rewrite addrs_plug. apply elem_of_app. by right.
Qed.

(** ** Where the matcher and a path can end *)

Lemma char_of_byte_range b : -128 ≤ char_of_byte b ≤ 127.
Proof. unfold char_of_byte. pose proof (Z.mod_pos_bound (b + 128) 256). lia. Qed.

Lemma edge_matches_high b e : 0x80 ≤ e ≤ 0xFF → edge_matches b e = false.
Proof.
  intros He. unfold edge_matches, WILDCARD.
  pose proof (char_of_byte_range b).
  destruct (Z.eqb_spec e 256); [lia|]. destruct (Z.eqb_spec (char_of_byte b) e); [lia|done].
Qed.

Lemma own_addrs f x : x ∈ own f → x ∈ addrs f.
Proof.
  destruct f as [|e a p k nx]; [done|]. simpl. rewrite addrs_cons.
  intros [->|?]%elem_of_cons; [left|right]. apply elem_of_app. by left.
Qed.

Lemma addrs_hit v c x : x ∈ addrs (hit v c) → x ∈ addrs c.
Proof.
  induction c as [|e a p k _ nx IH]; [done|]. simpl.
  destruct (v =? e); [done|]. intros Hx. rewrite addrs_cons. right.
  apply elem_of_app. right. by apply IH.
Qed.

Lemma fsearch_nil data : fsearch data FNil = NULL.
Proof. by destruct data. Qed.

Lemma locate_own vals : ∀ f, locate vals f ≠ NULL → locate vals f ∈ own f.
Proof.
  induction vals as [|v vs IH]; intros [|e a p k nx] H; try done; simpl in *.
  - left.
  - right. by apply (addrs_hit v), own_addrs, IH.
Qed.

Lemma locate_below v vs e a p k nx :
  locate (v :: vs) (FCons e a p k nx) ≠ NULL →
  locate (v :: vs) (FCons e a p k nx) ∈ addrs k.
Proof. simpl. intros H. by apply (addrs_hit v), own_addrs, locate_own. Qed.

Lemma fsearch_chain_in b descend c :
  (∀ c', descend c' ≠ NULL → descend c' ∈ own c') →
  fsearch_chain b descend c ≠ NULL → fsearch_chain b descend c ∈ addrs c.
Proof.
  intros Hd. induction c as [|e a p k _ nx IH]; [done|]. simpl.
  rewrite addrs_cons. destruct (edge_matches b e).
  - destruct (negb (app p =? 0)); [left|].
    intros H. apply Hd in H. simpl in H.
    apply elem_of_cons in H as [->|?]; [left|right]. apply elem_of_app. by left.
  - intros H. right. apply elem_of_app. right. by apply IH.
Qed.

Lemma fsearch_below data : ∀ e a p k nx,
  fsearch data (FCons e a p k nx) ≠ NULL →
  fsearch data (FCons e a p k nx) ∈ addrs k.
Proof.
  induction data as [|b data IH]; intros e a p k nx; [done|].
  cbn [fsearch]. apply fsearch_chain_in.
  intros [|e' a' p' k' nx'].
  - destruct (_ =? 1); [done|]. by rewrite fsearch_nil.
  - destruct (_ =? 1); [done|]. intros H. right. by apply IH.
Qed.

Lemma fsearch_own data f : fsearch data f ≠ NULL → fsearch data f ∈ own f.
Proof.
  destruct f as [|e a p k nx]; [by rewrite fsearch_nil|].
  intros H. right. by apply fsearch_below.
Qed.

(** A path with a literal in [0x80, 0xFF] ends where no search ends. *)
Lemma fsearch_locate_apart data : ∀ vals e a p k nx,
  NoDup (a :: addrs k) →
  (∃ v, v ∈ vals ∧ 0x80 ≤ v ≤ 0xFF) →
  fsearch data (FCons e a p k nx) ≠ NULL →
  fsearch data (FCons e a p k nx) ≠ locate vals (FCons e a p k nx).
Proof.
  induction data as [|b data IH]; intros vals e a p k nx Hnd Hhigh Hres; [done|].
  destruct vals as [|v vs].
  { destruct Hhigh as (v & Hv & _). by apply elem_of_nil in Hv. }
  cbn [fsearch locate] in *.
  set (descend := λ c, if Z.of_nat (length (b :: data)) =? 1 then NULL
                       else fsearch data c) in *.
  assert (∀ c', descend c' ≠ NULL → descend c' ∈ own c') as Hd.
  { intros c'. unfold descend. destruct (_ =? 1); [done|]. apply fsearch_own. }
  assert (∀ vs e a p k nx, NoDup (a :: addrs k) →
            (∃ v, v ∈ vs ∧ 0x80 ≤ v ≤ 0xFF) →
            descend (FCons e a p k nx) ≠ NULL →
            descend (FCons e a p k nx) ≠ locate vs (FCons e a p k nx)) as Hrec.
  { intros vs' e' a' p' k' nx'. unfold descend. destruct (_ =? 1); [done|]. apply IH. }
  clearbody descend. clear IH.
  apply NoDup_cons in Hnd as [_ Hnd]. clear a e p nx.
  induction k as [|e1 a1 p1 k1 _ nx1 IHc]; [done|].
  rewrite addrs_cons in Hnd. apply NoDup_cons in Hnd as [Ha1 Hnd].
  apply NoDup_app in Hnd as (Hk1 & Hdisj & Hnx1).
  assert (a1 ∉ addrs k1) as Ha1k by (intros ?; apply Ha1, elem_of_app; by left).
  cbn [fsearch_chain hit] in *.
  destruct (edge_matches b e1) eqn:Hm; destruct (Z.eqb_spec v e1) as [->|Hne].
  - (* the search and the path take the same edge *)
    assert (∃ v, v ∈ vs ∧ 0x80 ≤ v ≤ 0xFF) as Hhigh'.
    { destruct Hhigh as (w & [->|Hw]%elem_of_cons & Hr); [|by exists w].
      by rewrite edge_matches_high in Hm. }
    destruct (negb (app p1 =? 0)).
    + destruct vs as [|v' vs'].
      { destruct Hhigh' as (w & Hw & _). by apply elem_of_nil in Hw. }
      intros Heq. apply Ha1k. rewrite Heq at 1. apply locate_below.
      by rewrite <- Heq.
    + apply Hrec; [|done..]. apply NoDup_cons. by split.
  - (* the search takes this edge, the path a later one *)
    intros Heq.
    assert ((if negb (app p1 =? 0) then a1
             else descend (FCons e1 a1 p1 k1 nx1)) ∈ a1 :: addrs k1) as Hin.
    { destruct (negb (app p1 =? 0)); [left|]. by apply Hd. }
    rewrite Heq in Hin, Hres.
    apply locate_own, own_addrs, addrs_hit in Hres.
    apply elem_of_cons in Hin as [Hin|Hin].
    + apply Ha1. rewrite <- Hin. apply elem_of_app. by right.
    + by apply (Hdisj _ Hin).
  - (* the path takes this edge, the search a later one *)
    intros Heq. pose proof Hres as Hin. apply fsearch_chain_in in Hin; [|done].
    rewrite Heq in Hin, Hres. apply locate_own in Hres. cbn [own] in Hres.
    apply elem_of_cons in Hres as [Hr|Hr].
    + apply Ha1. rewrite <- Hr. apply elem_of_app. by right.
    + by apply (Hdisj _ Hr).
  - by apply IHc.
Qed.

(** ** Shared prefixes *)

Lemma insert_leaf_chain vals p : ∀ b e a q nx f' b',
  insert vals p b (FCons e a q FNil nx) = Some (f', b') → chain_of vals f'.
Proof.
  induction vals as [|v vs IH]; intros b e a q nx f' b' Hins; [done|].
  simpl in Hins.
  destruct (insert vs p (b + 1) (leaf v b)) as [[c b1]|] eqn:Hrec; [|done].
  injection Hins as <- <-.
  pose proof Hrec as Hsh. apply insert_shape in Hsh as (q' & k' & -> & _).
  simpl. split; [done|]. by apply IH in Hrec.
Qed.

Lemma insert_chain_of pfx rest p : ∀ b f f' b',
  chain_of pfx f → insert (pfx ++ rest) p b f = Some (f', b') → chain_of pfx f'.
Proof.
  induction pfx as [|v vs IH]; intros b f f' b' Hch Hins; [done|].
  destruct f as [|e a q [|e1 a1 q1 k1 [|]] nx]; try done.
  destruct Hch as [-> Hch]. simpl in Hins. rewrite Z.eqb_refl in Hins.
  fold (insert (vs ++ rest) p b (FCons v a1 q1 k1 FNil)) in Hins.
  destruct (insert (vs ++ rest) p b (FCons v a1 q1 k1 FNil)) as [[c b1]|] eqn:Hrec;
    [|done].
  injection Hins as <- <-.
  pose proof Hrec as Hsh. apply insert_shape in Hsh as (q' & k' & -> & _).
  simpl. split; [done|]. by apply IH in Hrec.
Qed.

Lemma chain_of_app pfx rest : ∀ f, chain_of (pfx ++ rest) f → chain_of pfx f.
Proof.
  induction pfx as [|v vs IH]; intros f H; [done|].
  destruct f as [|e a q [|e1 a1 q1 k1 [|]] nx]; try done.
  destruct H as [-> H]. split; [done|]. by apply IH.
Qed.

Lemma chain_of_single_chain h vals : ∀ e a p k nx,
  holds h (cells (FCons e a p k nx)) →
  chain_of vals (FCons e a p k nx) →
  single_chain h a vals.
Proof.
  induction vals as [|v vs IH]; intros e a p k nx Hc Hch; [done|].
  simpl in Hc. apply holds_cons in Hc as [Ha Hc]. apply holds_app in Hc as [Hk _].
  destruct k as [|e1 a1 q1 k1 [|]]; try done. destruct Hch as [-> Hch].
  pose proof Hk as Hk'. apply holds_cons in Hk' as [Ha1 _].
  simpl. eexists _, _. split_and!; [done..|].
  by apply (IH v a1 q1 k1 FNil).
Qed.

(** ** From the tree to the blocks of the store *)

Lemma every_cells P f a n : every P f → (a, n) ∈ cells f → P (edge n).
Proof.
  induction f as [|e a' p k IHk nx IHn]; simpl.
  - by intros _ ?%elem_of_nil.
  - intros (HP & Hk & Hn) [[= -> ->]|[?|?]%elem_of_app]%elem_of_cons; auto.
Qed.

Lemma models_lookup s f a n :
  models s f → a ∈ addrs f → heap s !! a = Some n → (a, n) ∈ cells f.
Proof.
  intros Hm Ha Hn. apply list_elem_of_fmap in Ha as ([a' n'] & -> & Hin).
  pose proof (models_cells _ _ Hm _ _ Hin) as Hn'. simpl in *. congruence.
Qed.

(** ** The module interface on intact states *)

Lemma models_search s f data :
  models s f →
  search_keyword_dict (kd_root s) data s = Ok (fsearch data f) s ∧
  (fsearch data f ≠ NULL → is_Some (heap s !! fsearch data f)).
Proof.
  intros [(q & kids & ->) Hc Hnd Hbd].
  assert (∀ x, x ∈ addrs (FCons 0 (kd_root s) q kids FNil) → x ≠ NULL) as Hnz.
  { intros x Hx. apply Hbd in Hx. unfold NULL. lia. }
  split; [by apply search_keyword_dict_refines|].
  intros Hp. apply fsearch_own, own_addrs in Hp.
  apply list_elem_of_fmap in Hp as ([a n] & Heq & Hin). simpl in Heq.
  rewrite Heq. by rewrite (Hc _ _ Hin).
Qed.

Lemma init_keywords_Ok s :
  keywords s = [] →
  init_keywords s =
    Ok 0 {| keywords := [Keyword tls_client_hello (Pi DIR_CLIENT 443);
                         Keyword tls_server_hello (Pi DIR_SERVER 443)];
            kd_root := kd_root s; heap := heap s; brk := brk s |}.
Proof. destruct s as [kws r h b]. simpl. by intros ->. Qed.

Lemma init_keyword_dict_intact s :
  intact s → kd_root s = NULL →
  ∃ s' f, proto_identify_init_keyword_dict s = Ok 0 s' ∧ models s' f ∧ intact s'.
Proof.
  intros (Hlen & Hb & _) Hroot.
  unfold proto_identify_init_keyword_dict, bind, get. rewrite Hroot. simpl.
  assert (∃ s1, (if num_keywords s =? 0 then init_keywords else ret 0) s = Ok 0 s1 ∧
                kd_root s1 = NULL ∧ 0 < brk s1 ∧ (length (keywords s1) ≤ 256)%nat)
    as (s1 & -> & Hroot1 & Hb1 & Hlen1).
  { unfold num_keywords. destruct (keywords s) as [|kc kcs] eqn:Hk.
    - simpl. rewrite init_keywords_Ok by done. eexists. split; [done|]. simpl. lia.
    - exists s. rewrite Hk. split; [|done].
      by destruct (Z.eqb_spec (Z.of_nat (length (kc :: kcs))) 0). }
  simpl.
  destruct (construct_keyword_dict_refines s1 Hroot1 Hb1 Hlen1)
    as (s' & f & -> & _ & Hm & _ & _ & Hr & Hkw & _).
  exists s', f. split; [done|]. split; [done|]. unfold intact. split_and!.
  - by rewrite Hkw.
  - pose proof (models_bound _ _ Hm).
    destruct Hm as [(q & k & ->) _ _ Hbd].
    assert (0 < kd_root s' < brk s') by (apply Hbd; rewrite addrs_cons; left). lia.
  - right. by exists f.
Qed.

Lemma init_keyword_dict_preserves s r s' :
  intact s → proto_identify_init_keyword_dict s = Ok r s' → intact s'.
Proof.
  intros Hs Hrun. destruct (Z.eqb_spec (kd_root s) NULL) as [Hroot|Hroot].
  - destruct (init_keyword_dict_intact s Hs Hroot) as (s1 & f & Heq & _ & ?). congruence.
  - unfold proto_identify_init_keyword_dict, bind, get in Hrun.
    destruct (Z.eqb_spec (kd_root s) NULL) as [?|_]; [done|]. simpl in Hrun.
    by injection Hrun as _ <-.
Qed.

Lemma add_keyword_preserves val n p s r s' :
  intact s → add_keyword val n p s = Ok r s' → intact s'.
Proof.
  intros (Hlen & Hb & Ht) Hrun. unfold add_keyword, num_keywords in Hrun.
  destruct (Z.geb_spec (Z.of_nat (length (keywords s))) MAX_KEYWORDS) as [?|Hlt].
  { by injection Hrun as _ <-. }
  destruct (n >? MAX_VAL_BYTES).
  { by injection Hrun as _ <-. }
  injection Hrun as _ <-. split_and!; simpl; [|done|].
  - rewrite length_app. simpl. unfold MAX_KEYWORDS in Hlt. lia.
  - destruct Ht as [?|[f [Hr Hc Hnd Hbd]]]; [by left|]. right. exists f. by split.
Qed.

Lemma identify_tcp_protocol_intact s data :
  intact s → ∃ port s', identify_tcp_protocol data s = Ok port s' ∧ intact s'.
Proof.
  intros Hs. unfold identify_tcp_protocol.
  destruct (Z.of_nat (length data) =? 0); [by exists 0, s|].
  unfold bind at 1. unfold get at 1.
  assert (∃ r s1 f, (if kd_root s =? NULL then proto_identify_init_keyword_dict
                     else ret 0) s = Ok r s1 ∧ models s1 f ∧ intact s1)
    as (r & s1 & f & Hrun & Hm & Hs1).
  { destruct (Z.eqb_spec (kd_root s) NULL) as [Hroot|Hroot].
    - destruct (init_keyword_dict_intact s Hs Hroot) as (s1 & f & ? & ? & ?).
      by exists 0, s1, f.
    - pose proof Hs as (? & ? & [?|[f Hm]]); [done|]. by exists 0, s, f. }
  rewrite (bind_Ok _ _ _ _ _ Hrun). unfold bind at 1. unfold get at 1.
  destruct (models_search s1 f data Hm) as [Hsearch Hlive].
  rewrite (bind_Ok _ _ _ _ _ Hsearch).
  destruct (Z.eqb_spec (fsearch data f) NULL) as [?|Hp]; [by exists 0, s1|].
  destruct (Hlive Hp) as [n Hn]. simpl.
  rewrite (bind_Ok _ _ _ _ _ (load_Ok _ _ _ Hp Hn)). by exists (app (pi n)), s1.
Qed.

Lemma startup_intact : intact startup.
Proof. split_and!; simpl; [lia|lia|by left]. Qed.

Lemma reachable_intact s : reachable s → intact s.
Proof.
  induction 1 as [|s val n p r s' _ IH Hrun|s r s' _ IH Hrun|s data r s' _ IH Hrun].
  - apply startup_intact.
  - by eapply add_keyword_preserves.
  - by eapply init_keyword_dict_preserves.
  - destruct (identify_tcp_protocol_intact s data IH) as (? & ? & ? & ?). congruence.
Qed.

(** ** Teardown *)

Lemma free_Ok a s s' :
  free a s = Ok tt s' →
  kd_root s' = kd_root s ∧ (a ≠ NULL → heap s' !! a = None).
Proof.
  unfold free. destruct (Z.eqb_spec a NULL) as [->|Ha].
  - intros [= <-]. done.
  - destruct (heap s !! a); [|done]. intros [= <-]. split; [done|].
    intros _. simpl. apply lookup_delete_eq.
Qed.

Lemma load_inv a s n s' : load a s = Ok n s' → s' = s ∧ a ≠ NULL ∧ heap s !! a = Some n.
Proof.
  unfold load. destruct (Z.eqb_spec a NULL); [done|].
  destruct (heap s !! a); [|done]. by intros [= -> ->].
Qed.

Lemma bind_inv {A B} (m : M A) (k : A → M B) s y s' :
  bind m k s = Ok y s' → ∃ x s1, m s = Ok x s1 ∧ k x s1 = Ok y s'.
Proof. unfold bind. destruct (m s) as [x s1| |]; [|done..]. by exists x, s1. Qed.

Lemma destroy_children_kd_root recurse fuel :
  (∀ c s s', recurse c s = Ok tt s' → kd_root s' = kd_root s) →
  ∀ c s s', destroy_children recurse fuel c s = Ok tt s' → kd_root s' = kd_root s.
Proof.
  intros Hrec. induction fuel as [|fuel IH]; intros c s s' Hrun; [done|].
  simpl in Hrun. destruct (c =? NULL); [by injection Hrun as <-|].
  apply bind_inv in Hrun as (cn & s1 & [-> _]%load_inv & Hrun).
  apply bind_inv in Hrun as ([] & s2 & H1%Hrec & H2%IH). congruence.
Qed.

Lemma destroy_kdn_kd_root fuel : ∀ node s s',
  destroy_kdn fuel node s = Ok tt s' → kd_root s' = kd_root s.
Proof.
  induction fuel as [|fuel IH]; intros node s s' Hrun; [done|].
  simpl in Hrun. destruct (node =? NULL); [by injection Hrun as <-|].
  apply bind_inv in Hrun as (n & s1 & [-> _]%load_inv & Hrun).
  destruct (_ || _).
  - by apply free_Ok in Hrun as [? _].
  - apply bind_inv in Hrun as ([] & s2 & H1 & [H2 _]%free_Ok).
    apply (destroy_children_kd_root _ _ IH) in H1. congruence.
Qed.

Lemma destroy_kdn_frees fuel node s s' :
  destroy_kdn fuel node s = Ok tt s' → node ≠ NULL → heap s' !! node = None.
Proof.
  destruct fuel as [|fuel]; [done|]. simpl. intros Hrun Hnode.
  destruct (Z.eqb_spec node NULL) as [?|_]; [done|].
  apply bind_inv in Hrun as (nd & s1 & [-> _]%load_inv & Hrun).
  destruct (_ || _).
  - apply free_Ok in Hrun as [_ ?]. auto.
  - apply bind_inv in Hrun as ([] & s2 & _ & [_ ?]%free_Ok). auto.
Qed.

(** Every completed teardown leaves [kd_root] pointing at a freed block, so
    the next teardown reads freed memory. *)
Lemma destroy_keyword_dict_dangling fuel s s' :
  kd_root s ≠ NULL →
  proto_identify_destroy_keyword_dict fuel s = Ok tt s' →
  kd_root s' = kd_root s ∧ heap s' !! kd_root s = None ∧
  ∀ fuel', proto_identify_destroy_keyword_dict (S fuel') s' =
           Crash (BadPointer (kd_root s)).
Proof.
  intros Hroot. unfold proto_identify_destroy_keyword_dict, bind, get.
  destruct (Z.eqb_spec (kd_root s) NULL) as [?|_]; [done|]. intros Hrun.
  pose proof (destroy_kdn_kd_root _ _ _ _ Hrun) as Hr.
  pose proof (destroy_kdn_frees _ _ _ _ Hrun Hroot) as Hf.
  split_and!; [done..|]. intros fuel'. rewrite Hr.
  destruct (Z.eqb_spec (kd_root s) NULL) as [?|_]; [done|]. simpl.
  destruct (Z.eqb_spec (kd_root s) NULL) as [?|_]; [done|].
  unfold bind, load. destruct (Z.eqb_spec (kd_root s) NULL) as [?|_]; [done|].
  by rewrite Hf.
Qed.

(** ** Longer input *)

Lemma search_children_stable b (d1 d2 : Z → M Z) s p s' :
  (∀ c, d1 c s = Ok p s' → d2 c s = Ok p s') →
  ∀ edges chld,
    search_children b d1 edges chld s = Ok p s' →
    search_children b d2 edges chld s = Ok p s'.
Proof.
  intros Hd. induction edges as [|e edges IH]; intros chld Hrun; [done|].
  simpl in *. destruct (edge_matches b e).
  - apply bind_inv in Hrun as (c & s1 & Hl & Hrun).
    rewrite (bind_Ok _ _ _ _ _ Hl). apply load_inv in Hl as (-> & _).
    destruct (negb (app (pi c) =? 0)); [done|]. by apply Hd.
  - apply bind_inv in Hrun as (c & s1 & Hl & Hrun).
    rewrite (bind_Ok _ _ _ _ _ Hl). apply load_inv in Hl as (-> & _).
    by apply IH.
Qed.

Lemma search_keyword_dict_stable data sfx : ∀ root s p s',
  search_keyword_dict root data s = Ok p s' → p ≠ NULL →
  search_keyword_dict root (data ++ sfx) s = Ok p s'.
Proof.
  induction data as [|b data IH]; intros root s p s' Hrun Hp.
  - by injection Hrun as <- <-.
  - rewrite <- app_comm_cons. cbn [search_keyword_dict] in *.
    destruct (root =? NULL); [by injection Hrun as <- <-|].
    apply bind_inv in Hrun as (node & s1 & Hl & Hrun).
    rewrite (bind_Ok _ _ _ _ _ Hl). apply load_inv in Hl as (-> & _).
    revert Hrun. apply search_children_stable. intros c.
    destruct data as [|b' data]; [by intros [= <- <-]|].
    destruct (Z.eqb_spec (Z.of_nat (length (b :: b' :: data))) 1) as [Hlen|_];
      [simpl in Hlen; lia|].
    destruct (Z.eqb_spec (Z.of_nat (length (b :: (b' :: data) ++ sfx))) 1) as [Hlen|_];
      [simpl in Hlen; lia|].
    intros Hrun. by apply IH.
Qed.

(** ** Signatures of the table have an end node *)

Lemma locate_next vals e a p k nx nx' :
  locate vals (FCons e a p k nx) = locate vals (FCons e a p k nx').
Proof. by destruct vals. Qed.

Lemma hit_plug_out v pre c : (v ∉ el_edge <$> pre) → hit v (plug pre c) = hit v c.
Proof.
  induction pre as [|n pre IH]; [done|]. simpl.
  intros [Hne Hnin]%not_elem_of_cons.
  destruct (Z.eqb_spec v (el_edge n)) as [?|_]; [done|]. by apply IH.
Qed.

Lemma locate_hit_plug_in vals v pre c c' :
  v ∈ el_edge <$> pre →
  locate vals (hit v (plug pre c)) = locate vals (hit v (plug pre c')).
Proof.
  induction pre as [|n pre IH]; simpl.
  - by intros ?%elem_of_nil.
  - intros Hin. destruct (Z.eqb_spec v (el_edge n)) as [_|Hne].
    + apply locate_next.
    + apply IH. apply elem_of_cons in Hin as [?|?]; done.
Qed.

Lemma insert_keeps_locate vals : ∀ vals2 p b f f' b',
  insert vals2 p b f = Some (f', b') →
  locate vals f ≠ NULL → locate vals f' = locate vals f.
Proof.
  induction vals as [|v vs IH]; intros vals2 p b f f' b' Hins Hloc;
    destruct f as [|e a q k nx]; try done.
  - by apply insert_shape in Hins as (? & ? & -> & _).
  - destruct vals2 as [|v2 vs2]; simpl in Hins.
    { by injection Hins as <- <-. }
    destruct (split_chain v2 k) as (pre & ck & -> & Hnin & Hck).
    rewrite chain_insert_plug in Hins by done.
    cbn [locate] in *.
    destruct (decide (v ∈ el_edge <$> pre)) as [Hin|Hout].
    { destruct (match ck with FNil => _ | _ => _ end) as [[ck' b1]|]; [|done].
      injection Hins as <- <-. cbn [locate]. by apply locate_hit_plug_in. }
    rewrite hit_plug_out in Hloc |- * by done.
    destruct ck as [|e' a' q' k' nx'].
    { by rewrite locate_nil in Hloc. }
    subst e'.
    destruct (insert vs2 p b (FCons v2 a' q' k' nx')) as [[ck' b1]|] eqn:Hrec; [|done].
    injection Hins as <- <-. cbn [locate]. rewrite hit_plug_out by done.
    pose proof Hrec as Hsh. apply insert_shape in Hsh as (q'' & k'' & -> & _).
    cbn [hit] in *. destruct (v =? v2); [|done]. by eapply IH.
Qed.

Lemma insert_locate vals : ∀ p b e a q k nx f' b',
  0 < a → 0 < b →
  (∀ x, x ∈ addrs k → 0 < x) →
  insert vals p b (FCons e a q k nx) = Some (f', b') →
  locate vals f' ≠ NULL.
Proof.
  induction vals as [|v vs IH]; intros p b e a q k nx f' b' Ha Hb Hk Hins;
    simpl in Hins.
  - injection Hins as <- <-. simpl. unfold NULL. lia.
  - destruct (split_chain v k) as (pre & ck & -> & Hnin & Hck).
    rewrite chain_insert_plug in Hins by done.
    destruct ck as [|e' a' q' k' nx'].
    + destruct (_ =? _); [done|].
      destruct (insert vs p (b + 1) (leaf v b)) as [[ck' b1]|] eqn:Hrec; [|done].
      injection Hins as <- <-. cbn [locate].
      pose proof Hrec as Hsh. apply insert_shape in Hsh as (q'' & k'' & -> & _).
      rewrite hit_plug by done.
      apply IH in Hrec; [done|lia|lia|]. by intros x ?%elem_of_nil.
    + subst e'.
      destruct (insert vs p b (FCons v a' q' k' nx')) as [[ck' b1]|] eqn:Hrec; [|done].
      injection Hins as <- <-. cbn [locate].
      pose proof Hrec as Hsh. apply insert_shape in Hsh as (q'' & k'' & -> & _).
      rewrite hit_plug by done.
      assert (∀ x, x ∈ addrs (FCons v a' q' k' nx') → 0 < x) as Hck'.
      { intros x Hx. apply Hk. rewrite addrs_plug. apply elem_of_app. by right. }
      apply IH in Hrec; [done| |done|].
      * apply Hck'. rewrite addrs_cons. left.
      * intros x Hx. apply Hck'. rewrite addrs_cons. right. apply elem_of_app. by left.
Qed.

Lemma insert_all_locate kcs : ∀ b e a q k nx f' b' kc,
  0 < a < b → (∀ x, x ∈ addrs k → 0 < x < b) →
  insert_all kcs b (FCons e a q k nx) = Some (f', b') →
  kc ∈ kcs → locate (value kc) f' ≠ NULL.
Proof.
  induction kcs as [|kc1 kcs IH]; intros b e a q k nx f' b' kc Ha Hk Hall Hin.
  { by apply elem_of_nil in Hin. }
  simpl in Hall.
  destruct (insert _ _ _ _) as [[f1 b1]|] eqn:H1; [|done].
  pose proof H1 as Hsh. apply insert_shape in Hsh as (q1 & k1 & -> & Hle & Hperm).
  assert (∀ x, x ∈ addrs k1 → 0 < x < b1) as Hk1.
  { intros x Hx. rewrite Hperm in Hx.
    apply elem_of_app in Hx as [Hx%Hk|Hx%elem_of_seqZ]; lia. }
  apply elem_of_cons in Hin as [->|Hin].
  - apply insert_locate in H1; [|lia|lia|intros x Hx%Hk; lia].
    clear IH Hperm Hk1. revert b1 q1 k1 f' Hle Hall H1.
    induction kcs as [|kc2 kcs IH2]; intros b1 q1 k1 f' Hle Hall H1; simpl in Hall.
    + by injection Hall as <- _.
    + destruct (insert (value kc2) _ _ _) as [[f2 b2]|] eqn:H2; [|done].
      pose proof H2 as Hsh. apply insert_shape in Hsh as (q2 & k2 & -> & Hle2 & _).
      apply (IH2 b2 q2 k2); [lia|done|].
      by rewrite (insert_keeps_locate _ _ _ _ _ _ _ H2 H1).
  - by apply (IH b1 e a q1 k1 nx f' b' kc); [lia|..].
Qed.

(** ** Signatures of the table keep their inference *)

Lemma locate_pi_nil vals : locate_pi vals FNil = None.
Proof. by destruct vals. Qed.

Lemma locate_pi_next vals e a p k nx nx' :
  locate_pi vals (FCons e a p k nx) = locate_pi vals (FCons e a p k nx').
Proof. by destruct vals. Qed.

Lemma locate_pi_hit_plug_in vals v pre c c' :
  v ∈ el_edge <$> pre →
  locate_pi vals (hit v (plug pre c)) = locate_pi vals (hit v (plug pre c')).
Proof.
  induction pre as [|n pre IH]; simpl.
  - by intros ?%elem_of_nil.
  - intros Hin. destruct (Z.eqb_spec v (el_edge n)) as [_|Hne].
    + apply locate_pi_next.
    + apply IH. apply elem_of_cons in Hin as [?|?]; done.
Qed.

Lemma insert_locate_pi vals : ∀ p b e a q k nx f' b',
  insert vals p b (FCons e a q k nx) = Some (f', b') →
  locate_pi vals f' = Some p.
Proof.
  induction vals as [|v vs IH]; intros p b e a q k nx f' b' Hins; simpl in Hins.
  - by injection Hins as <- <-.
  - destruct (split_chain v k) as (pre & ck & -> & Hnin & Hck).
    rewrite chain_insert_plug in Hins by done.
    destruct ck as [|e' a' q' k' nx'].
    + destruct (_ =? _); [done|].
      destruct (insert vs p (b + 1) (leaf v b)) as [[ck' b1]|] eqn:Hrec; [|done].
      injection Hins as <- <-. cbn [locate_pi].
      pose proof Hrec as Hsh. apply insert_shape in Hsh as (q'' & k'' & -> & _).
      rewrite hit_plug by done. by apply IH in Hrec.
    + subst e'.
      destruct (insert vs p b (FCons v a' q' k' nx')) as [[ck' b1]|] eqn:Hrec; [|done].
      injection Hins as <- <-. cbn [locate_pi].
      pose proof Hrec as Hsh. apply insert_shape in Hsh as (q'' & k'' & -> & _).
      rewrite hit_plug by done. by apply IH in Hrec.
Qed.

Lemma insert_keeps_locate_pi vals : ∀ vals2 p b f f' b',
  insert vals2 p b f = Some (f', b') →
  vals ≠ vals2 →
  locate_pi vals f' = locate_pi vals f ∨
  (locate_pi vals f = None ∧ locate_pi vals f' = Some (Pi 0 0)).
Proof.
  induction vals as [|v vs IH]; intros vals2 p b f f' b' Hins Hne;
    (destruct f as [|e a q k nx]; [by destruct vals2|]).
  - destruct vals2 as [|v2 vs2]; [done|]. left. simpl in Hins.
    destruct (chain_insert _ _ _ _) as [[k' b1]|]; [|done].
    by injection Hins as <- <-.
  - destruct vals2 as [|v2 vs2]; simpl in Hins.
    { injection Hins as <- <-. by left. }
    destruct (split_chain v2 k) as (pre & ck & -> & Hnin & Hck).
    rewrite chain_insert_plug in Hins by done.
    cbn [locate_pi] in *.
    destruct (decide (v ∈ el_edge <$> pre)) as [Hin|Hout].
    { destruct (match ck with FNil => _ | _ => _ end) as [[ck' b1]|]; [|done].
      injection Hins as <- <-. cbn [locate_pi]. left.
      by apply locate_pi_hit_plug_in. }
    rewrite (hit_plug_out v pre ck) by done.
    destruct ck as [|e' a' q' k' nx'].
    + destruct (_ =? _); [done|].
      destruct (insert vs2 p (b + 1) (leaf v2 b)) as [[ck' b1]|] eqn:Hrec; [|done].
      injection Hins as <- <-. cbn [locate_pi]. rewrite hit_plug_out by done.
      pose proof Hrec as Hsh. apply insert_shape in Hsh as (q'' & k'' & -> & _).
      cbn [hit]. destruct (Z.eqb_spec v v2) as [->|_]; [|by left].
      rewrite locate_pi_nil.
      destruct (IH vs2 _ _ _ _ _ Hrec) as [Heq|[_ Hnew]]; [congruence| |by right].
      rewrite Heq. destruct vs as [|v' vs']; [by right|left]. simpl.
      apply locate_pi_nil.
    + subst e'.
      destruct (insert vs2 p b (FCons v2 a' q' k' nx')) as [[ck' b1]|] eqn:Hrec; [|done].
      injection Hins as <- <-. cbn [locate_pi]. rewrite hit_plug_out by done.
      pose proof Hrec as Hsh. apply insert_shape in Hsh as (q'' & k'' & -> & _).
      cbn [hit] in *. destruct (Z.eqb_spec v v2) as [->|_]; [|by left].
      eapply IH; [done|]. congruence.
Qed.

(** Last write wins: after the whole table has been inserted, the path of
    each keyword ends at a node that carries the inference of a keyword of
    the table with the same signature. *)
Lemma insert_all_locate_pi kcs : ∀ done b e a q k nx f' b',
  insert_all kcs b (FCons e a q k nx) = Some (f', b') →
  (∀ kc, kc ∈ done → ∃ kc', kc' ∈ done ∧ value kc' = value kc ∧
     locate_pi (value kc) (FCons e a q k nx) = Some (kc_pi kc')) →
  ∀ kc, kc ∈ done ++ kcs → ∃ kc', kc' ∈ done ++ kcs ∧ value kc' = value kc ∧
     locate_pi (value kc) f' = Some (kc_pi kc').
Proof.
  induction kcs as [|kc1 kcs IH]; intros done b e a q k nx f' b' Hall Hinv.
  - injection Hall as <- <-. by rewrite app_nil_r.
  - simpl in Hall.
    destruct (insert _ _ _ _) as [[f1 b1]|] eqn:H1; [|done].
    pose proof H1 as Hsh. apply insert_shape in Hsh as (q1 & k1 & -> & _).
    replace (done ++ kc1 :: kcs) with ((done ++ [kc1]) ++ kcs)
      by by rewrite <- app_assoc.
    apply (IH _ _ _ _ _ _ _ _ _ Hall).
    intros kc Hkc.
    destruct (decide (value kc = value kc1)) as [Heq|Hne].
    + exists kc1. split_and!; [apply elem_of_app; right; left|done|].
      rewrite Heq. by eapply insert_locate_pi.
    + apply elem_of_app in Hkc as [Hkc|Hkc%list_elem_of_singleton]; [|by subst].
      destruct (Hinv kc Hkc) as (kc' & Hin' & Hv & Hpi).
      exists kc'. split_and!; [apply elem_of_app; by left|done|].
      destruct (insert_keeps_locate_pi (value kc) _ _ _ _ _ _ H1 Hne) as [->|[Hnone _]];
        [done|congruence].
Qed.

Lemma cells_hit v c x : x ∈ cells (hit v c) → x ∈ cells c.
Proof.
  induction c as [|e a p k _ nx IH]; [done|]. simpl.
  destruct (v =? e); [done|]. intros Hx. right. apply elem_of_app. right. by apply IH.
Qed.

Lemma locate_pi_cells vals : ∀ f,
  locate vals f ≠ NULL →
  ∃ n, (locate vals f, n) ∈ cells f ∧ locate_pi vals f = Some (pi n).
Proof.
  induction vals as [|v vs IH]; intros [|e a p k nx] Hloc; try done.
  - eexists. split; [left|done].
  - cbn [locate locate_pi] in *.
    destruct (IH _ Hloc) as (n & Hin & Hpi). exists n. split; [|done].
    simpl. right. apply elem_of_app. left. by apply (cells_hit v).
Qed.

(** ** What the matcher returns *)

Lemma fsearch_chain_hit b descend c :
  fsearch_chain b descend c ≠ NULL →
  ∃ e a p k nx,
    edge_matches b e = true ∧ hit e c = FCons e a p k nx ∧
    fsearch_chain b descend c =
      if negb (app p =? 0) then a else descend (FCons e a p k nx).
Proof.
  induction c as [|e1 a1 p1 k1 _ nx1 IH]; [done|]. simpl.
  destruct (edge_matches b e1) eqn:Hm.
  - intros _. exists e1, a1, p1, k1, nx1. by rewrite Z.eqb_refl.
  - intros (e & a & p & k & nx & He & Hhit & Hres)%IH.
    exists e, a, p, k, nx. split_and!; [done| |done].
    destruct (Z.eqb_spec e e1) as [->|_]; [congruence|done].
Qed.

(** The search ends at the end of a path whose symbols match the first
    bytes of the input, at a node with a non-zero protocol id. *)
Lemma fsearch_sound data : ∀ e0 a0 p0 k0 nx0,
  fsearch data (FCons e0 a0 p0 k0 nx0) ≠ NULL →
  ∃ path q,
    Forall2 (λ b e, edge_matches b e = true) (take (length path) data) path ∧
    locate path (FCons e0 a0 p0 k0 nx0) = fsearch data (FCons e0 a0 p0 k0 nx0) ∧
    locate_pi path (FCons e0 a0 p0 k0 nx0) = Some q ∧ app q ≠ 0.
Proof.
  induction data as [|b data IH]; intros e0 a0 p0 k0 nx0 Hres; [done|].
  cbn [fsearch] in *.
  destruct (fsearch_chain_hit _ _ _ Hres) as (e & a & p & k & nx & He & Hhit & Heq).
  rewrite Heq in *. destruct (Z.eqb_spec (app p) 0) as [Hz|Hnz]; cbn [negb] in *.
  - destruct (_ =? 1); [done|].
    destruct (IH _ _ _ _ _ Hres) as (path & q & Hm & Hloc & Hpi & Hq).
    exists (e :: path), q. cbn [locate locate_pi length firstn]. rewrite Hhit.
    split_and!; [by constructor|done..].
  - exists [e], p. cbn [locate locate_pi length firstn]. rewrite Hhit. simpl.
    split_and!; [|done..]. constructor; [done|]. rewrite take_0. constructor.
Qed.

(** Only the keywords of the table put a non-zero protocol id on a node. *)
Lemma insert_all_marked kcs : ∀ done b e a q k nx f' b',
  insert_all kcs b (FCons e a q k nx) = Some (f', b') →
  (∀ vals r, locate_pi vals (FCons e a q k nx) = Some r → app r ≠ 0 →
     ∃ kc, kc ∈ done ∧ value kc = vals ∧ kc_pi kc = r) →
  ∀ vals r, locate_pi vals f' = Some r → app r ≠ 0 →
    ∃ kc, kc ∈ done ++ kcs ∧ value kc = vals ∧ kc_pi kc = r.
Proof.
  induction kcs as [|kc1 kcs IH]; intros done b e a q k nx f' b' Hall Hinv.
  - injection Hall as <- <-. by rewrite app_nil_r.
  - simpl in Hall.
    destruct (insert _ _ _ _) as [[f1 b1]|] eqn:H1; [|done].
    pose proof H1 as Hsh. apply insert_shape in Hsh as (q1 & k1 & -> & _).
    replace (done ++ kc1 :: kcs) with ((done ++ [kc1]) ++ kcs)
      by by rewrite <- app_assoc.
    apply (IH _ _ _ _ _ _ _ _ _ Hall).
    intros vals r Hpi Hr.
    destruct (decide (vals = value kc1)) as [->|Hne].
    + exists kc1. split_and!; [apply elem_of_app; right; left|done|].
      rewrite (insert_locate_pi _ _ _ _ _ _ _ _ _ _ H1) in Hpi. congruence.
    + destruct (insert_keeps_locate_pi vals _ _ _ _ _ _ H1 Hne) as [Heq|[_ Hnew]].
      * rewrite Heq in Hpi. destruct (Hinv _ _ Hpi Hr) as (kc & ? & ? & ?).
        exists kc. split_and!; [apply elem_of_app; by left|done..].
      * rewrite Hnew in Hpi. injection Hpi as <-. done.
Qed.

(** Whatever [search_keyword_dict] returns in the dictionary built from a
    table is the inference of one of its keywords, whose signature matches
    the first bytes of the input. *)
Lemma search_keyword_dict_sound s s' f data p :
  models s' f →
  insert_all (keywords s) (brk s + 1) (leaf 0 (brk s)) = Some (f, brk s') →
  search_keyword_dict (kd_root s') data s' = Ok p s' → p ≠ NULL →
  ∃ n kc, heap s' !! p = Some n ∧ kc ∈ keywords s ∧ pi n = kc_pi kc ∧
          app (kc_pi kc) ≠ 0 ∧
          Forall2 (λ b e, edge_matches b e = true) (take (length (value kc)) data) (value kc).
Proof.
  intros Hm Hall Hsearch Hp.
  destruct (models_search s' f data Hm) as [Hsearch' _].
  rewrite Hsearch' in Hsearch. injection Hsearch as <-.
  pose proof Hm as [(q & k & ->) Hc _ _].
  destruct (fsearch_sound _ _ _ _ _ _ Hp) as (path & r & Hmatch & Hloc & Hpi & Hr).
  assert (∀ vals r', locate_pi vals (leaf 0 (brk s)) = Some r' → app r' ≠ 0 →
            ∃ kc, kc ∈ [] ∧ value kc = vals ∧ kc_pi kc = r') as Hleaf.
  { intros [|v vs] r'; simpl.
    - by intros [= <-].
    - by rewrite locate_pi_nil. }
  destruct (insert_all_marked _ [] _ _ _ _ _ _ _ _ Hall Hleaf path r Hpi Hr)
    as (kc & Hkc & <- & <-).
  rewrite <- Hloc in Hp. destruct (locate_pi_cells _ _ Hp) as (n & Hin & Hpi').
  exists n, kc. rewrite <- Hloc.
  split_and!; [by apply Hc|done|congruence|done..].
Qed.

Lemma matched_symbols_low bs es :
  Forall2 (λ b e, edge_matches b e = true) bs es →
  ∀ v, v ∈ es → ¬ (0x80 ≤ v ≤ 0xFF).
Proof.
  induction 1 as [|b e bs es Hm _ IH]; intros v Hv Hhigh.
  - by apply elem_of_nil in Hv.
  - apply elem_of_cons in Hv as [->|Hv]; [|by apply (IH v)].
    by rewrite edge_matches_high in Hm.
Qed.

Lemma tls_table_loaded : init_keywords startup = Ok 0 tls_table.
Proof. reflexivity. Qed.

(** ** The table and the dictionary behind the interface *)

Lemma matches_prefix_Forall2 vals : ∀ data,
  Forall2 (λ b e, edge_matches b e = true) (take (length vals) data) vals ↔
  matches_prefix vals data = true.
Proof.
  induction vals as [|v vs IH]; intros data; simpl.
  - split; [done|]. intros _. rewrite take_0. constructor.
  - destruct data as [|b data]; simpl.
    + split; [by intros ?%Forall2_nil_cons_inv|done].
    + rewrite andb_true_iff, <- IH, Forall2_cons. tauto.
Qed.

Lemma models_nonzero s f x : models s f → x ∈ addrs f → x ≠ NULL.
Proof. intros Hm Hx%(models_bound _ _ Hm). unfold NULL. lia. Qed.

Lemma identify_tcp_protocol_models s f data :
  models s f →
  ∃ port, identify_tcp_protocol data s = Ok port s ∧
    (fsearch data f = NULL → port = 0) ∧
    (∀ n, fsearch data f ≠ NULL → heap s !! fsearch data f = Some n →
          port = app (pi n)).
Proof.
  intros Hm. unfold identify_tcp_protocol.
  destruct data as [|b data].
  { exists 0. by split_and!. }
  destruct (Z.eqb_spec (Z.of_nat (length (b :: data))) 0) as [Hl|_];
    [simpl in Hl; lia|].
  assert (kd_root s ≠ NULL) as Hroot.
  { pose proof Hm as [(q & k & ->) _ _ _].
    eapply models_nonzero; [done|]. rewrite addrs_cons. left. }
  unfold bind at 1. unfold get at 1.
  destruct (Z.eqb_spec (kd_root s) NULL) as [?|_]; [done|].
  unfold bind at 1. unfold ret at 1. unfold bind at 1. unfold get at 1.
  destruct (models_search s f (b :: data) Hm) as [Hsearch Hlive].
  rewrite (bind_Ok _ _ _ _ _ Hsearch).
  destruct (Z.eqb_spec (fsearch (b :: data) f) NULL) as [Hp|Hp].
  - exists 0. by split_and!.
  - destruct (Hlive Hp) as [n Hn]. cbn [negb].
    rewrite (bind_Ok _ _ _ _ _ (load_Ok _ _ _ Hp Hn)).
    exists (app (pi n)). split_and!; [done|done|]. intros n' _ Hn'. congruence.
Qed.

Lemma add_keyword_settled val n p s r s' :
  settled s → add_keyword val n p s = Ok r s' → settled s'.
Proof.
  intros (Hlen & Hb & Hval & Ht) Hrun. unfold add_keyword, num_keywords in Hrun.
  destruct (Z.geb_spec (Z.of_nat (length (keywords s))) MAX_KEYWORDS) as [?|Hlt].
  { by injection Hrun as _ <-. }
  destruct (Z.gtb_spec n MAX_VAL_BYTES) as [?|Hn].
  { by injection Hrun as _ <-. }
  injection Hrun as _ <-. split_and!; simpl; [|done| |].
  - rewrite length_app. simpl. unfold MAX_KEYWORDS in Hlt. lia.
  - apply Forall_app. split; [done|]. constructor; [|constructor]. simpl.
    rewrite length_take. unfold MAX_VAL_BYTES, MAX_VAL_LEN in Hn.
    assert (n / 2 ≤ 32) by (apply Z.div_le_upper_bound; lia).
    assert (Z.to_nat (n / 2) ≤ 32)%nat by lia.
    etrans; [apply Nat.le_min_l|done].
  - destruct Ht as [?|(f & pre & post & Hk & [Hr Hc Hnd Hbd] & Hall)]; [by left|].
    right. exists f, pre, (post ++ [Keyword (take (Z.to_nat (n / 2)) val) p]).
    split; [by rewrite Hk, app_assoc|]. by split.
Qed.

Lemma init_keyword_dict_settled s :
  settled s → kd_root s = NULL →
  ∃ s' f, proto_identify_init_keyword_dict s = Ok 0 s' ∧
    built_from s' (keywords s') f ∧ settled s' ∧
    keywords s' = (if decide (keywords s = []) then keywords tls_table else keywords s).
Proof.
  intros (Hlen & Hb & Hval & _) Hroot.
  unfold proto_identify_init_keyword_dict, bind, get. rewrite Hroot. simpl.
  assert (∃ s1, (if num_keywords s =? 0 then init_keywords else ret 0) s = Ok 0 s1 ∧
                kd_root s1 = NULL ∧ 0 < brk s1 ∧ (length (keywords s1) ≤ 256)%nat ∧
                Forall (λ kc, (length (value kc) ≤ 32)%nat) (keywords s1) ∧
                keywords s1 =
                  (if decide (keywords s = []) then keywords tls_table else keywords s))
    as (s1 & -> & Hroot1 & Hb1 & Hlen1 & Hval1 & Hk1).
  { unfold num_keywords. destruct (keywords s) as [|kc kcs] eqn:Hk.
    - simpl. rewrite init_keywords_Ok by done. eexists. split; [done|]. simpl.
      split_and!; [done|done|lia| |done].
      repeat constructor; simpl; lia.
    - exists s. rewrite Hk. split_and!; [|done..].
      by destruct (Z.eqb_spec (Z.of_nat (length (kc :: kcs))) 0). }
  simpl.
  destruct (construct_keyword_dict_refines s1 Hroot1 Hb1 Hlen1)
    as (s' & f & -> & Hall & Hm & _ & _ & Hr & Hkw & _).
  assert (built_from s' (keywords s') f) as Hbuilt.
  { split; [done|]. by rewrite Hr, Hkw. }
  exists s', f. split; [done|]. split; [done|]. split; [|rewrite Hkw; exact Hk1].
  unfold settled. split_and!.
  - by rewrite Hkw.
  - destruct Hm as [(q & k & ->) _ _ Hbd].
    assert (0 < kd_root s' < brk s') by (apply Hbd; rewrite addrs_cons; left). lia.
  - by rewrite Hkw.
  - right. exists f, (keywords s'), []. by rewrite app_nil_r.
Qed.

(** The dictionary [identify_tcp_protocol] searches: the one at hand, or the
    one it has [proto_identify_init_keyword_dict] build first. *)
Lemma ensure_built s :
  settled s →
  ∃ r s1 f pre post,
    (if kd_root s =? NULL then proto_identify_init_keyword_dict else ret 0) s = Ok r s1 ∧
    keywords s1 = pre ++ post ∧ built_from s1 pre f ∧ settled s1.
Proof.
  intros Hs. destruct (Z.eqb_spec (kd_root s) NULL) as [Hroot|Hroot].
  - destruct (init_keyword_dict_settled s Hs Hroot) as (s1 & f & Hrun & Hbuilt & Hs1 & _).
    exists 0, s1, f, (keywords s1), []. rewrite app_nil_r. by split_and!.
  - pose proof Hs as (_ & _ & _ & [?|(f & pre & post & Hk & Hbuilt)]); [done|].
    exists 0, s, f, pre, post. by split_and!.
Qed.

Lemma identify_tcp_protocol_via s r s1 data :
  (if kd_root s =? NULL then proto_identify_init_keyword_dict else ret 0) s = Ok r s1 →
  kd_root s1 ≠ NULL → data ≠ [] →
  identify_tcp_protocol data s = identify_tcp_protocol data s1.
Proof.
  intros Hrun Hroot1 Hdata. unfold identify_tcp_protocol.
  destruct data as [|b data]; [done|].
  destruct (Z.eqb_spec (Z.of_nat (length (b :: data))) 0) as [Hl|_];
    [simpl in Hl; lia|].
  unfold bind at 1. unfold get at 1. rewrite (bind_Ok _ _ _ _ _ Hrun).
  symmetry. unfold bind at 1. unfold get at 1.
  destruct (Z.eqb_spec (kd_root s1) NULL) as [?|_]; [done|].
  unfold bind at 1. by unfold ret at 1.
Qed.

Lemma built_from_root s pre f : built_from s pre f → kd_root s ≠ NULL.
Proof.
  intros [Hm _]. pose proof Hm as [(q & k & ->) _ _ _].
  eapply models_nonzero; [done|]. rewrite addrs_cons. left.
Qed.

Lemma identify_tcp_protocol_settled s data port s' :
  settled s → identify_tcp_protocol data s = Ok port s' →
  settled s' ∧
  (port ≠ 0 → ∃ kc, kc ∈ keywords s' ∧ app (kc_pi kc) = port ∧
                    matches_prefix (value kc) data = true).
Proof.
  intros Hs Hrun. destruct data as [|b data].
  { injection Hrun as <- <-. by split. }
  destruct (ensure_built s Hs) as (r & s1 & f & pre & post & Hens & Hk & Hbuilt & Hs1).
  rewrite (identify_tcp_protocol_via s r s1) in Hrun;
    [|done|by eapply built_from_root|done].
  destruct Hbuilt as [Hm Hall].
  destruct (identify_tcp_protocol_models s1 f (b :: data) Hm) as (port' & Hrun' & Hnull & Hnode).
  rewrite Hrun' in Hrun. injection Hrun as -> ->. split; [done|].
  intros Hport.
  destruct (Z.eqb_spec (fsearch (b :: data) f) NULL) as [Hp|Hp]; [by apply Hnull in Hp|].
  destruct (models_search s' f (b :: data) Hm) as [Hsearch _].
  destruct (search_keyword_dict_sound
              {| keywords := pre; kd_root := NULL; heap := ∅; brk := kd_root s' |}
              s' f (b :: data) _ Hm Hall Hsearch Hp)
    as (n & kc & Hn & Hkc & Hpi & _ & Hmatch).
  simpl in Hkc. exists kc. split_and!.
  - rewrite Hk. apply elem_of_app. by left.
  - by rewrite (Hnode n Hp Hn), Hpi.
  - by apply matches_prefix_Forall2.
Qed.

Lemma startup_settled : settled startup.
Proof. split_and!; simpl; [lia|lia|constructor|by left]. Qed.

Lemma reachable_settled s : reachable s → settled s.
Proof.
  induction 1 as [|s val n p r s' _ IH Hrun|s r s' _ IH Hrun|s data r s' _ IH Hrun].
  - apply startup_settled.
  - by eapply add_keyword_settled.
  - destruct (Z.eqb_spec (kd_root s) NULL) as [Hroot|Hroot].
    + destruct (init_keyword_dict_settled s IH Hroot) as (s1 & f & Heq & _ & ? & _).
      congruence.
    + unfold proto_identify_init_keyword_dict, bind, get in Hrun.
      destruct (Z.eqb_spec (kd_root s) NULL) as [?|_]; [done|]. simpl in Hrun.
      by injection Hrun as _ <-.
  - by eapply identify_tcp_protocol_settled.
Qed.

(** ** The program's test and the specification's *)

Lemma char_of_byte_low b : 0 ≤ b ≤ 0x7F → char_of_byte b = b.
Proof. intros Hb. unfold char_of_byte. rewrite Z.mod_small by lia. lia. Qed.

Lemma char_of_byte_nonneg b : is_byte b → 0 ≤ char_of_byte b → char_of_byte b = b.
Proof.
  unfold is_byte. intros Hb Hc. destruct (decide (b ≤ 0x7F)) as [?|Hhigh].
  { apply char_of_byte_low. lia. }
  exfalso. unfold char_of_byte in Hc.
  replace (b + 128) with (b - 128 + 1 * 256) in Hc by lia.
  rewrite Z.mod_add, Z.mod_small in Hc by lia. lia.
Qed.

(** On bytes and 16-bit symbols the program accepts no more than the
    specification does. *)
Lemma edge_matches_symbol b v :
  is_byte b → is_symbol v → edge_matches b v = true → symbol_matches b v = true.
Proof.
  unfold edge_matches, symbol_matches, is_symbol.
  intros Hb Hv [H|H]%orb_true_iff; apply orb_true_iff; [by left|right].
  apply Z.eqb_eq in H. apply Z.eqb_eq. rewrite <- H.
  apply char_of_byte_nonneg; [done|lia].
Qed.

(** On wildcards and literals below [0x80] it accepts as much. *)
Lemma symbol_matches_edge b v :
  is_byte b → plain_symbol v → symbol_matches b v = true → edge_matches b v = true.
Proof.
  unfold edge_matches, symbol_matches, plain_symbol.
  intros Hb [->|Hv] H; [done|].
  apply orb_true_iff in H as [H|H]; apply orb_true_iff; [by left|right].
  apply Z.eqb_eq in H. subst b. apply Z.eqb_eq, char_of_byte_low. lia.
Qed.

Lemma plain_symbol_is_symbol v : plain_symbol v → is_symbol v.
Proof. unfold plain_symbol, is_symbol, WILDCARD. intros [->|?]; lia. Qed.

Lemma matches_prefix_signature vals : ∀ data,
  Forall is_byte data → Forall is_symbol vals →
  matches_prefix vals data = true → signature_matches vals data = true.
Proof.
  induction vals as [|v vs IH]; intros [|b data] Hdata Hvals; simpl; try done.
  apply Forall_cons in Hdata as [Hb Hdata]. apply Forall_cons in Hvals as [Hv Hvals].
  intros [H1 H2]%andb_true_iff. apply andb_true_iff. split.
  - by apply edge_matches_symbol.
  - by apply IH.
Qed.

Lemma signature_matches_plain vals : ∀ data,
  Forall is_byte data → Forall plain_symbol vals →
  signature_matches vals data = true → matches_prefix vals data = true.
Proof.
  induction vals as [|v vs IH]; intros [|b data] Hdata Hvals; simpl; try done.
  apply Forall_cons in Hdata as [Hb Hdata]. apply Forall_cons in Hvals as [Hv Hvals].
  intros [H1 H2]%andb_true_iff. apply andb_true_iff. split.
  - by apply symbol_matches_edge.
  - by apply IH.
Qed.

Lemma signature_matches_plain_eq vals data :
  Forall is_byte data → Forall plain_symbol vals →
  matches_prefix vals data = signature_matches vals data.
Proof.
  intros Hdata Hvals.
  destruct (signature_matches vals data) eqn:Hs.
  - by apply signature_matches_plain.
  - destruct (matches_prefix vals data) eqn:Hm; [|done].
    rewrite matches_prefix_signature in Hs; [done..| |done].
    eapply Forall_impl; [done|]. apply plain_symbol_is_symbol.
Qed.

(** ** Classification in the states the interface reaches *)

Lemma identify_tcp_protocol_unmatched s data :
  settled s → Forall is_byte data →
  ∃ port s', identify_tcp_protocol data s = Ok port s' ∧
    ((∀ kc, kc ∈ keywords s' →
        Forall is_symbol (value kc) ∧ signature_matches (value kc) data = false) →
     port = 0) ∧
    ((∀ vals t n, path_end vals (kd_root s') s' = Ok t s' → t ≠ NULL →
        heap s' !! t = Some n → app (pi n) ≠ 0 →
        Forall is_symbol vals ∧ signature_matches vals data = false) →
     port = 0).
Proof.
  intros Hs Hdata. destruct data as [|b data].
  { by exists 0, s. }
  destruct (ensure_built s Hs) as (r & s1 & f & pre & post & Hens & Hk & Hbuilt & Hs1).
  rewrite (identify_tcp_protocol_via s r s1);
    [|done|by eapply built_from_root|done].
  destruct Hbuilt as [Hm Hall].
  destruct (identify_tcp_protocol_models s1 f (b :: data) Hm) as (port & Hrun & Hnull & _).
  exists port, s1. split; [done|].
  destruct (models_search s1 f (b :: data) Hm) as [Hsearch _].
  split; intros Hno;
    (destruct (Z.eqb_spec (fsearch (b :: data) f) NULL) as [Hp|Hp]; [by apply Hnull|]);
    exfalso.
  - destruct (search_keyword_dict_sound
                {| keywords := pre; kd_root := NULL; heap := ∅; brk := kd_root s1 |}
                s1 f (b :: data) _ Hm Hall Hsearch Hp)
      as (n & kc & _ & Hkc & _ & _ & Hmatch).
    simpl in Hkc. destruct (Hno kc) as [Hsym Hfalse].
    { rewrite Hk. apply elem_of_app. by left. }
    apply matches_prefix_Forall2 in Hmatch.
    by rewrite (matches_prefix_signature _ _ Hdata Hsym Hmatch) in Hfalse.
  - pose proof Hm as [(q & k & Hf) Hc _ _]. rewrite Hf in Hp, Hc.
    destruct (fsearch_sound _ _ _ _ _ _ Hp) as (path & q' & Hmatch & Hloc & Hpi & Hq').
    rewrite <- Hloc in Hp. destruct (locate_pi_cells _ _ Hp) as (n & Hin & Hpi').
    destruct (Hno path (locate path (FCons 0 (kd_root s1) q k FNil)) n)
      as [Hsym Hfalse]; [|done|by apply Hc|congruence|].
    { apply path_end_refines; [done|]. intros x Hx.
      eapply models_nonzero; [done|]. by rewrite Hf. }
    apply matches_prefix_Forall2 in Hmatch.
    by rewrite (matches_prefix_signature _ _ Hdata Hsym Hmatch) in Hfalse.
Qed.

(** * The claims *)

(** C7: [add_keyword] fails (returns 1) exactly when the table already holds
    [MAX_KEYWORDS] keywords or the signature is longer than [MAX_VAL_LEN]
    symbols ([value_bytes_len > MAX_VAL_BYTES]); a failed call leaves the
    whole state, table and count included, as it was; a successful call
    appends the signature with its inference. *)
Theorem add_keyword_spec (s : machine) (val : list Z) (p : pi_container) :
  (add_keyword val (sizeof val) p s = Ok 1 s ∨
   add_keyword val (sizeof val) p s = Ok 0 (appended s (Keyword val p))) ∧
  (add_keyword val (sizeof val) p s = Ok 1 s ↔
   MAX_KEYWORDS ≤ num_keywords s ∨ MAX_VAL_LEN < Z.of_nat (length val)) ∧
  num_keywords (appended s (Keyword val p)) = num_keywords s + 1 ∧
  (∀ nbytes,
     (add_keyword val nbytes p s = Ok 1 s ↔
      MAX_KEYWORDS ≤ num_keywords s ∨ MAX_VAL_BYTES < nbytes) ∧
     (add_keyword val nbytes p s = Ok 1 s ∨
      add_keyword val nbytes p s =
        Ok 0 (appended s (Keyword (take (Z.to_nat (nbytes / 2)) val) p)))).
Proof.
  assert (∀ nbytes,
     (add_keyword val nbytes p s = Ok 1 s ↔
      MAX_KEYWORDS ≤ num_keywords s ∨ MAX_VAL_BYTES < nbytes) ∧
     (add_keyword val nbytes p s = Ok 1 s ∨
      add_keyword val nbytes p s =
        Ok 0 (appended s (Keyword (take (Z.to_nat (nbytes / 2)) val) p)))) as Hgen.
  { intros nbytes. unfold add_keyword.
    destruct (Z.geb_spec (num_keywords s) MAX_KEYWORDS) as [Hfull|Hroom].
    { split; [|by left]. split; [left; lia|done]. }
    destruct (Z.gtb_spec nbytes MAX_VAL_BYTES) as [Hlong|Hshort].
    { split; [|by left]. split; [right; lia|done]. }
    split; [|by right]. split; [done|lia]. }
  assert (take (Z.to_nat (sizeof val / 2)) val = val) as Htake.
  { unfold sizeof. rewrite Z.mul_comm, Z.div_mul, Nat2Z.id by done.
    by apply take_ge. }
  split_and!; [| |unfold num_keywords, appended; simpl; rewrite length_app; simpl; lia
              |done].
  - destruct (Hgen (sizeof val)) as [_ H]. by rewrite Htake in H.
  - destruct (Hgen (sizeof val)) as [-> _].
    unfold sizeof, MAX_VAL_BYTES, MAX_VAL_LEN. split; (intros [?|?]; [by left|right; lia]).
Qed.

(** C3: with the TLS catalog loaded, the six bytes [16 03 01 00 2F 01] are
    classified as 443 through the client signature's node and
    [16 03 01 00 2F 02] as 443 through the server signature's node, both on
    the first call (which builds the dictionary) and on later ones. *)
Theorem tls_hello_classified :
  proto_identify_init_keyword_dict startup = Ok 0 tls_dictionary ∧
  identify_tcp_protocol [0x16; 0x03; 0x01; 0x00; 0x2F; 0x01] startup
    = Ok 443 tls_dictionary ∧
  identify_tcp_protocol [0x16; 0x03; 0x01; 0x00; 0x2F; 0x02] startup
    = Ok 443 tls_dictionary ∧
  identify_tcp_protocol [0x16; 0x03; 0x01; 0x00; 0x2F; 0x01] tls_dictionary
    = Ok 443 tls_dictionary ∧
  identify_tcp_protocol [0x16; 0x03; 0x01; 0x00; 0x2F; 0x02] tls_dictionary
    = Ok 443 tls_dictionary ∧
  ∃ pc ps nc ns,
    search_keyword_dict (kd_root tls_dictionary)
      [0x16; 0x03; 0x01; 0x00; 0x2F; 0x01] tls_dictionary = Ok pc tls_dictionary ∧
    heap tls_dictionary !! pc = Some nc ∧ pi nc = Pi DIR_CLIENT 443 ∧
    search_keyword_dict (kd_root tls_dictionary)
      [0x16; 0x03; 0x01; 0x00; 0x2F; 0x02] tls_dictionary = Ok ps tls_dictionary ∧
    heap tls_dictionary !! ps = Some ns ∧ pi ns = Pi DIR_SERVER 443.
Proof.
  split_and!; [vm_compute; reflexivity..|].
  eexists _, _, _, _. split_and!; vm_compute; reflexivity.
Qed.

(** C5: with the TLS catalog loaded, the five bytes [16 03 01 00 2F] are
    classified as 0: the search runs out of input below the second wildcard
    and returns [NULL]. *)
Theorem tls_truncated_unknown :
  identify_tcp_protocol [0x16; 0x03; 0x01; 0x00; 0x2F] startup = Ok 0 tls_dictionary ∧
  identify_tcp_protocol [0x16; 0x03; 0x01; 0x00; 0x2F] tls_dictionary
    = Ok 0 tls_dictionary ∧
  search_keyword_dict (kd_root tls_dictionary) [0x16; 0x03; 0x01; 0x00; 0x2F]
    tls_dictionary = Ok NULL tls_dictionary.
Proof. split_and!; vm_compute; reflexivity. Qed.

(** C4: with the signature [16 03 01 * * 01] in the dictionary (alone, or
    together with the server signature of the TLS catalog), every input
    [16 03 01 x y 01] is classified as 443 and every input
    [16 03 01 x y 03] as 0, whatever the bytes [x] and [y]. *)
Theorem wildcard_matches_any_byte :
  add_keyword tls_client_hello (sizeof tls_client_hello) (Pi DIR_CLIENT 443) startup
    = Ok 0 client_table ∧
  proto_identify_init_keyword_dict client_table = Ok 0 client_dictionary ∧
  proto_identify_init_keyword_dict startup = Ok 0 tls_dictionary ∧
  ∀ x y,
    identify_tcp_protocol [0x16; 0x03; 0x01; x; y; 0x01] client_dictionary
      = Ok 443 client_dictionary ∧
    identify_tcp_protocol [0x16; 0x03; 0x01; x; y; 0x03] client_dictionary
      = Ok 0 client_dictionary ∧
    identify_tcp_protocol [0x16; 0x03; 0x01; x; y; 0x01] tls_dictionary
      = Ok 443 tls_dictionary ∧
    identify_tcp_protocol [0x16; 0x03; 0x01; x; y; 0x03] tls_dictionary
      = Ok 0 tls_dictionary.
Proof.
  split_and!; [vm_compute; reflexivity..|].
  intros x y. split_and!; vm_compute; reflexivity.
Qed.

(** C1: tearing the dictionary down twice.  After the TLS dictionary has
    been built, one [proto_identify_destroy_keyword_dict] frees all nine
    nodes and leaves [kd_root] as it was, so a second call is no no-op: it
    reads the freed root.  Before the dictionary is built ([kd_root] is
    [NULL]) the call does nothing. *)
Theorem destroy_twice_reads_freed_root :
  proto_identify_init_keyword_dict startup = Ok 0 tls_dictionary ∧
  proto_identify_destroy_keyword_dict 16 tls_dictionary = Ok tt tls_torn_down ∧
  heap tls_torn_down = ∅ ∧
  kd_root tls_torn_down = kd_root tls_dictionary ∧
  kd_root tls_dictionary ≠ NULL ∧
  (∀ fuel, proto_identify_destroy_keyword_dict (S fuel) tls_torn_down =
           Crash (BadPointer (kd_root tls_dictionary))) ∧
  (∀ s fuel, kd_root s = NULL → proto_identify_destroy_keyword_dict fuel s = Ok tt s).
Proof.
  split_and!; [vm_compute; reflexivity..|by vm_compute| |].
  - intros fuel. reflexivity.
  - intros s fuel Hroot. unfold proto_identify_destroy_keyword_dict, bind, get.
    by rewrite Hroot.
Qed.

(** C2: how many edges a node holds.  The table takes at most
    [MAX_KEYWORDS] = 256 signatures ([add_keyword] refuses one more) and a
    signature adds at most one edge to a node.  So for every table within
    capacity [construct_keyword_dict] succeeds, each signature's edges are
    present, leading from the root to its end node, and no node has more
    edges than the table has keywords: at most 256, never 257. *)
Theorem node_edges_within_table_capacity (s : machine) :
  kd_root s = NULL → 0 < brk s → num_keywords s ≤ MAX_KEYWORDS →
  ∃ s', construct_keyword_dict s = Ok 0 s' ∧
    (∀ a n, heap s' !! a = Some n → heap s !! a = None →
       num_children n ≤ num_keywords s ∧ num_children n < MAX_CHILDREN) ∧
    (∀ kc, kc ∈ keywords s →
       ∃ t, path_end (value kc) (kd_root s') s' = Ok t s' ∧ t ≠ NULL ∧
            is_Some (heap s' !! t)) ∧
    (∀ val n p, num_keywords s = MAX_KEYWORDS → add_keyword val n p s = Ok 1 s).
Proof.
  intros Hroot Hb Hlen.
  destruct (construct_keyword_dict_refines s Hroot Hb)
    as (s' & f & Hrun & Hall & Hm & _ & Hw & _ & _ & Hfr).
  { unfold num_keywords, MAX_KEYWORDS in Hlen. lia. }
  exists s'. split_and!; [done| | |].
  - intros a n Hn Hold.
    assert (num_children n ≤ num_keywords s) as Hle.
    { destruct (decide (a ∈ addrs f)) as [Hin|Hout].
      - unfold num_children, num_keywords. apply inj_le.
        eapply (every_cells _ f a n Hw). by eapply models_lookup.
      - rewrite Hfr in Hn by done. congruence. }
    split; [done|]. unfold MAX_KEYWORDS, MAX_CHILDREN in *. lia.
  - intros kc Hkc. pose proof Hm as [(q & k & ->) Hc _ _].
    assert (locate (value kc) (FCons 0 (kd_root s') q k FNil) ≠ NULL) as Hloc.
    { eapply (insert_all_locate _ _ _ _ _ _ _ _ _ kc); [| |done|done]; [lia|].
      by intros x ?%elem_of_nil. }
    destruct (locate_pi_cells _ _ Hloc) as (n & Hin & _).
    eexists. split_and!; [|done|exists n; by apply Hc].
    apply path_end_refines; [done|]. intros x Hx.
    by apply (models_bound _ _ Hm) in Hx as [? _]; unfold NULL; lia.
  - intros val n p Hfull. unfold add_keyword. rewrite Hfull. done.
Qed.

Lemma node_edges_within_table_capacity_witness :
  ∃ s', construct_keyword_dict byte_table = Ok 0 s' ∧
    (∀ a n, heap s' !! a = Some n → heap byte_table !! a = None →
       num_children n ≤ num_keywords byte_table ∧ num_children n < MAX_CHILDREN) ∧
    (∀ kc, kc ∈ keywords byte_table →
       ∃ t, path_end (value kc) (kd_root s') s' = Ok t s' ∧ t ≠ NULL ∧
            is_Some (heap s' !! t)) ∧
    (∀ val n p, num_keywords byte_table = MAX_KEYWORDS →
       add_keyword val n p byte_table = Ok 1 byte_table).
Proof.
  apply (node_edges_within_table_capacity byte_table); [reflexivity|reflexivity|].
  vm_compute. discriminate.
Defined.

(** C2, the input the claim names: the 256 one-byte signatures and the
    wildcard signature together induce 257 symbols at the root.  The table
    refuses the 257th signature, and the tree built from the table has 256
    edges at the root, the wildcard not among them. *)
Lemma wildcard_is_257th_symbol :
  length (byte_catalog ++ [[WILDCARD]]) = 257%nat ∧
  add_identifiers (byte_catalog ++ [[WILDCARD]]) (Pi DIR_UNKNOWN 80) startup
    = Ok 1 byte_table ∧
  num_keywords byte_table = MAX_KEYWORDS ∧
  proto_identify_init_keyword_dict byte_table = Ok 0 byte_dictionary ∧
  (∃ n, heap byte_dictionary !! kd_root byte_dictionary = Some n ∧
        edge n = seqZ 0 256 ∧ num_children n = 256) ∧
  path_end [WILDCARD] (kd_root byte_dictionary) byte_dictionary
    = Ok NULL byte_dictionary.
Proof.
  split_and!; [vm_compute; reflexivity..| |vm_compute; reflexivity].
  eexists. split_and!; vm_compute; reflexivity.
Qed.

(** C6: for every table within capacity, [construct_keyword_dict] builds a
    tree in which no node has two edges with the same symbol; and when the
    table holds two signatures with a common prefix, the tree starts with a
    single unbranched path spelling that prefix. *)
Theorem dictionary_edges_distinct (s : machine) :
  kd_root s = NULL → 0 < brk s → num_keywords s ≤ MAX_KEYWORDS →
  ∃ s', construct_keyword_dict s = Ok 0 s' ∧
    (∀ a n, heap s' !! a = Some n → heap s !! a = None → NoDup (edge n)) ∧
    (∀ pfx r1 r2 p1 p2,
       keywords s = [Keyword (pfx ++ r1) p1; Keyword (pfx ++ r2) p2] →
       single_chain (heap s') (kd_root s') pfx).
Proof.
  intros Hroot Hb Hlen.
  destruct (construct_keyword_dict_refines s Hroot Hb)
    as (s' & f & Hrun & Hall & Hm & Hnd & _ & Hr & Hkw & Hfr).
  { unfold num_keywords, MAX_KEYWORDS in Hlen. lia. }
  exists s'. split_and!; [done| |].
  - intros a n Hn Hold. destruct (decide (a ∈ addrs f)) as [Hin|Hout].
    + eapply (every_cells _ f a); [done|]. by eapply models_lookup.
    + rewrite Hfr in Hn by done. congruence.
  - intros pfx r1 r2 p1 p2 Hk. rewrite Hk in Hall. simpl in Hall.
    destruct (insert (pfx ++ r1) p1 (brk s + 1) (leaf 0 (brk s)))
      as [[f1 b1]|] eqn:H1; [|done].
    destruct (insert (pfx ++ r2) p2 b1 f1) as [[f2 b2]|] eqn:H2; [|done].
    injection Hall as -> _.
    apply insert_leaf_chain, chain_of_app in H1.
    pose proof (insert_chain_of _ _ _ _ _ _ _ H1 H2) as Hch.
    destruct Hm as [(q & k & ->) Hc _ _].
    by eapply chain_of_single_chain.
Qed.

Lemma dictionary_edges_distinct_witness :
  ∃ s', construct_keyword_dict tls_table = Ok 0 s' ∧
    (∀ a n, heap s' !! a = Some n → heap tls_table !! a = None → NoDup (edge n)) ∧
    (∀ pfx r1 r2 p1 p2,
       keywords tls_table = [Keyword (pfx ++ r1) p1; Keyword (pfx ++ r2) p2] →
       single_chain (heap s') (kd_root s') pfx).
Proof.
  apply (dictionary_edges_distinct tls_table); [reflexivity|reflexivity|].
  vm_compute. discriminate.
Defined.

(** C8: classification and errors.  In every state reached from process
    start without a teardown, [identify_tcp_protocol] returns a protocol id
    on every input, and the id is 0 when no signature of the table matches
    the input (nor any signature stored in the dictionary does), matching
    read as the specification words it.  On the empty input it returns 0 in
    any state whatsoever; on [FF FF FF], and on [17 03 01 00 00 01], against
    the TLS dictionary it returns 0.  After a teardown it does fail:
    [kd_root] still points to the freed root, which the search reads. *)
Theorem classification_total_until_teardown (s : machine) (data : list Z) :
  reachable s → Forall is_byte data →
  (∃ port s', identify_tcp_protocol data s = Ok port s' ∧
     ((∀ kc, kc ∈ keywords s' →
         Forall is_symbol (value kc) ∧ signature_matches (value kc) data = false) →
      port = 0) ∧
     ((∀ vals t n, path_end vals (kd_root s') s' = Ok t s' → t ≠ NULL →
         heap s' !! t = Some n → app (pi n) ≠ 0 →
         Forall is_symbol vals ∧ signature_matches vals data = false) →
      port = 0)) ∧
  (∀ s0, identify_tcp_protocol [] s0 = Ok 0 s0) ∧
  identify_tcp_protocol [0xFF; 0xFF; 0xFF] startup = Ok 0 tls_dictionary ∧
  identify_tcp_protocol [0xFF; 0xFF; 0xFF] tls_dictionary = Ok 0 tls_dictionary ∧
  identify_tcp_protocol [0x17; 0x03; 0x01; 0x00; 0x00; 0x01] tls_dictionary
    = Ok 0 tls_dictionary ∧
  reachable tls_dictionary ∧
  proto_identify_destroy_keyword_dict 16 tls_dictionary = Ok tt tls_torn_down ∧
  (∀ b rest, identify_tcp_protocol (b :: rest) tls_torn_down
             = Crash (BadPointer (kd_root tls_dictionary))).
Proof.
  intros Hs Hdata.
  split; [by apply identify_tcp_protocol_unmatched; [apply reachable_settled|]|].
  split; [done|]. split_and!; [vm_compute; reflexivity..| |vm_compute; reflexivity|].
  - apply (reachable_init startup 0); [constructor|vm_compute; reflexivity].
  - intros b rest. unfold identify_tcp_protocol.
    destruct (Z.eqb_spec (Z.of_nat (length (b :: rest))) 0) as [Hl|_];
      [simpl in Hl; lia|].
    reflexivity.
Qed.

Lemma classification_total_until_teardown_witness :
  (∃ port s', identify_tcp_protocol [0x17; 0x03; 0x01; 0x00; 0x00; 0x01] tls_dictionary
                = Ok port s' ∧
     ((∀ kc, kc ∈ keywords s' →
         Forall is_symbol (value kc) ∧
         signature_matches (value kc) [0x17; 0x03; 0x01; 0x00; 0x00; 0x01] = false) →
      port = 0) ∧
     ((∀ vals t n, path_end vals (kd_root s') s' = Ok t s' → t ≠ NULL →
         heap s' !! t = Some n → app (pi n) ≠ 0 →
         Forall is_symbol vals ∧
         signature_matches vals [0x17; 0x03; 0x01; 0x00; 0x00; 0x01] = false) →
      port = 0)) ∧
  (∀ s0, identify_tcp_protocol [] s0 = Ok 0 s0) ∧
  identify_tcp_protocol [0xFF; 0xFF; 0xFF] startup = Ok 0 tls_dictionary ∧
  identify_tcp_protocol [0xFF; 0xFF; 0xFF] tls_dictionary = Ok 0 tls_dictionary ∧
  identify_tcp_protocol [0x17; 0x03; 0x01; 0x00; 0x00; 0x01] tls_dictionary
    = Ok 0 tls_dictionary ∧
  reachable tls_dictionary ∧
  proto_identify_destroy_keyword_dict 16 tls_dictionary = Ok tt tls_torn_down ∧
  (∀ b rest, identify_tcp_protocol (b :: rest) tls_torn_down
             = Crash (BadPointer (kd_root tls_dictionary))).
Proof.
  apply (classification_total_until_teardown tls_dictionary
           [0x17; 0x03; 0x01; 0x00; 0x00; 0x01]).
  - apply (reachable_init startup 0); [constructor|vm_compute; reflexivity].
  - repeat (apply Forall_cons_2; [unfold is_byte; lia|]). apply Forall_nil_2.
Defined.

(** C9: a literal edge in [0x80, 0xFF] matches no input byte.  Therefore, in
    the dictionary of any table within capacity, the node at which a
    signature with such a literal ends (each signature of the table ends at
    a node, which carries the inference of a keyword with this signature) is
    never the node whose inference [search_keyword_dict] returns; what the
    search returns is always the inference of a keyword of the table that
    has no such literal. *)
Theorem high_literal_never_matched (s : machine) :
  kd_root s = NULL → 0 < brk s → num_keywords s ≤ MAX_KEYWORDS →
  (∀ b e, 0x80 ≤ e ≤ 0xFF → edge_matches b e = false) ∧
  ∃ s', construct_keyword_dict s = Ok 0 s' ∧
    (∀ kc, kc ∈ keywords s →
       ∃ t n kc', path_end (value kc) (kd_root s') s' = Ok t s' ∧ t ≠ NULL ∧
                  heap s' !! t = Some n ∧
                  kc' ∈ keywords s ∧ value kc' = value kc ∧ pi n = kc_pi kc') ∧
    (∀ vals data, (∃ v, v ∈ vals ∧ 0x80 ≤ v ≤ 0xFF) →
       ∃ t p, path_end vals (kd_root s') s' = Ok t s' ∧
              search_keyword_dict (kd_root s') data s' = Ok p s' ∧
              (p ≠ NULL → p ≠ t)) ∧
    (∀ data p, search_keyword_dict (kd_root s') data s' = Ok p s' → p ≠ NULL →
       ∃ n kc, heap s' !! p = Some n ∧ kc ∈ keywords s ∧ pi n = kc_pi kc ∧
               ∀ v, v ∈ value kc → ¬ (0x80 ≤ v ≤ 0xFF)).
Proof.
  intros Hroot Hb Hlen. split; [apply edge_matches_high|].
  destruct (construct_keyword_dict_refines s Hroot Hb)
    as (s' & f & Hrun & Hall & Hm & _).
  { unfold num_keywords, MAX_KEYWORDS in Hlen. lia. }
  exists s'. split; [done|].
  pose proof Hm as [(q & k & Hf) Hc Hnd Hbd].
  assert (∀ x, x ∈ addrs f → x ≠ NULL) as Hnz.
  { intros x Hx. apply Hbd in Hx. unfold NULL. lia. }
  split_and!.
  - intros kc Hkc. subst f.
    assert (locate (value kc) (FCons 0 (kd_root s') q k FNil) ≠ NULL) as Hloc.
    { eapply insert_all_locate; [| |done..]; [lia|]. by intros x ?%elem_of_nil. }
    destruct (locate_pi_cells _ _ Hloc) as (n & Hin & Hpi).
    destruct (insert_all_locate_pi _ [] _ _ _ _ _ _ _ _ Hall) with (kc := kc)
      as (kc' & Hkc' & Hval & Hpi'); [by intros ? ?%elem_of_nil|done|].
    exists (locate (value kc) (FCons 0 (kd_root s') q k FNil)), n, kc'.
    split_and!; [by apply path_end_refines|done|by apply Hc|done|done|congruence].
  - intros vals data Hhigh.
    destruct (models_search s' _ data Hm) as [Hsearch _]. subst f.
    eexists _, _. split_and!; [by apply path_end_refines|done|].
    apply fsearch_locate_apart; [|done].
    by rewrite addrs_cons, app_nil_r in Hnd.
  - intros data p Hsearch Hp.
    destruct (search_keyword_dict_sound s s' f data p Hm Hall Hsearch Hp)
      as (n & kc & Hn & Hkc & Hpi & _ & Hmatch).
    exists n, kc. split_and!; [done..|]. by eapply matched_symbols_low.
Qed.

Lemma high_literal_never_matched_witness :
  (∀ b e, 0x80 ≤ e ≤ 0xFF → edge_matches b e = false) ∧
  ∃ s', construct_keyword_dict byte_table = Ok 0 s' ∧
    (∀ kc, kc ∈ keywords byte_table →
       ∃ t n kc', path_end (value kc) (kd_root s') s' = Ok t s' ∧ t ≠ NULL ∧
                  heap s' !! t = Some n ∧
                  kc' ∈ keywords byte_table ∧ value kc' = value kc ∧
                  pi n = kc_pi kc') ∧
    (∀ vals data, (∃ v, v ∈ vals ∧ 0x80 ≤ v ≤ 0xFF) →
       ∃ t p, path_end vals (kd_root s') s' = Ok t s' ∧
              search_keyword_dict (kd_root s') data s' = Ok p s' ∧
              (p ≠ NULL → p ≠ t)) ∧
    (∀ data p, search_keyword_dict (kd_root s') data s' = Ok p s' → p ≠ NULL →
       ∃ n kc, heap s' !! p = Some n ∧ kc ∈ keywords byte_table ∧
               pi n = kc_pi kc ∧ ∀ v, v ∈ value kc → ¬ (0x80 ≤ v ≤ 0xFF)).
Proof.
  apply (high_literal_never_matched byte_table); [reflexivity|reflexivity|].
  vm_compute. discriminate.
Defined.

(** C10: more input never changes a match.  In any state, if
    [identify_tcp_protocol] returns a non-zero protocol id on [b], it
    returns the same id, and ends in the same state, on [b ++ sfx]. *)
Theorem classification_stable (s : machine) (b sfx : list Z) (port : Z) (s' : machine) :
  identify_tcp_protocol b s = Ok port s' → port ≠ 0 →
  identify_tcp_protocol (b ++ sfx) s = Ok port s'.
Proof.
  unfold identify_tcp_protocol. intros Hrun Hport.
  destruct b as [|x b]; [by injection Hrun as <- <-|].
  rewrite <- app_comm_cons.
  destruct (Z.eqb_spec (Z.of_nat (length (x :: b))) 0) as [Hl|_]; [simpl in Hl; lia|].
  destruct (Z.eqb_spec (Z.of_nat (length (x :: b ++ sfx))) 0) as [Hl|_];
    [simpl in Hl; lia|].
  apply bind_inv in Hrun as (s0 & s1 & [= <- <-] & Hrun).
  unfold bind at 1. unfold get at 1.
  apply bind_inv in Hrun as (r & s2 & Hinit & Hrun). rewrite (bind_Ok _ _ _ _ _ Hinit).
  apply bind_inv in Hrun as (s3 & s4 & [= <- <-] & Hrun).
  unfold bind at 1. unfold get at 1.
  apply bind_inv in Hrun as (p & s5 & Hsearch & Hrun).
  destruct (Z.eqb_spec p NULL) as [->|Hp]; [by injection Hrun as <- <-|].
  rewrite app_comm_cons.
  rewrite (bind_Ok _ _ _ _ _ (search_keyword_dict_stable _ sfx _ _ _ _ Hsearch Hp)).
  by destruct (Z.eqb_spec p NULL).
Qed.

Lemma classification_stable_witness :
  identify_tcp_protocol ([0x16; 0x03; 0x01; 0x00; 0x2F; 0x01] ++ [0x00; 0x2B])
    startup = Ok 443 tls_dictionary.
Proof.
  apply classification_stable; [vm_compute; reflexivity|discriminate].
Defined.

(** * Further properties *)

(** ** Teardown of a tree *)

Lemma destroy_kdn_node fuel s a p kids sib :
  (∀ s1, holds (heap s1) (cells kids) →
     ∃ s2, destroy_children (destroy_kdn fuel) fuel (faddr kids) s1 = Ok tt s2 ∧
       keywords s2 = keywords s1 ∧ kd_root s2 = kd_root s1 ∧ brk s2 = brk s1 ∧
       ∀ x, heap s2 !! x = if decide (x ∈ addrs kids) then None else heap s1 !! x) →
  heap s !! a = Some (Kdn (labels kids) (faddr kids) sib p) →
  holds (heap s) (cells kids) →
  a ≠ NULL → a ∉ addrs kids → (∀ x, x ∈ addrs kids → x ≠ NULL) →
  ∃ s', destroy_kdn (S fuel) a s = Ok tt s' ∧
    keywords s' = keywords s ∧ kd_root s' = kd_root s ∧ brk s' = brk s ∧
    ∀ x, heap s' !! x = if decide (x ∈ a :: addrs kids) then None else heap s !! x.
Proof.
  intros Hkids Ha Hk Ha0 Hak Hnz. cbn [destroy_kdn].
  destruct (Z.eqb_spec a NULL) as [?|_]; [done|].
  rewrite (bind_Ok _ _ _ _ _ (load_Ok _ _ _ Ha0 Ha)). cbn [child edge].
  destruct kids as [|e1 a1 p1 k1 nx1].
  - simpl. unfold free. destruct (Z.eqb_spec a NULL) as [?|_]; [done|].
    rewrite Ha. eexists. split_and!; [done..|]. intros x. cbn [heap set_heap].
    destruct (decide (x ∈ a :: addrs FNil)) as [[->|Hx]%elem_of_cons|Hx].
    + apply lookup_delete_eq.
    + by apply elem_of_nil in Hx.
    + apply lookup_delete_ne. intros ->. apply Hx. left.
  - assert (a1 ≠ NULL) as Ha1 by (apply Hnz; rewrite addrs_cons; left).
    cbn [faddr labels]. unfold num_children. cbn [edge length].
    destruct (Z.eqb_spec a1 NULL) as [?|_]; [done|].
    destruct (Z.eqb_spec (Z.of_nat (S (length (labels nx1)))) 0) as [?|_]; [lia|].
    cbn [orb].
    destruct (Hkids s Hk) as (s2 & Hrun & Hkw & Hr & Hb & Hheap).
    cbn [faddr] in Hrun. rewrite (bind_Ok _ _ _ _ _ Hrun).
    unfold free. destruct (Z.eqb_spec a NULL) as [?|_]; [done|].
    rewrite Hheap. destruct (decide (a ∈ _)) as [?|_]; [done|]. rewrite Ha.
    eexists. split_and!; [done..|]. intros x. cbn [heap set_heap].
    destruct (decide (x ∈ a :: addrs (FCons e1 a1 p1 k1 nx1)))
      as [[->|Hx]%elem_of_cons|Hx].
    + apply lookup_delete_eq.
    + rewrite lookup_delete_ne by (by intros ->). rewrite Hheap.
      by destruct (decide (x ∈ _)).
    + apply not_elem_of_cons in Hx as [Hxa Hx].
      rewrite lookup_delete_ne by done. rewrite Hheap.
      by destruct (decide (x ∈ _)).
Qed.

Lemma destroy_children_forest c : ∀ s fuel1 fuel2,
  holds (heap s) (cells c) → NoDup (addrs c) → (∀ x, x ∈ addrs c → x ≠ NULL) →
  (fsize c < fuel1)%nat → (fsize c < fuel2)%nat →
  ∃ s', destroy_children (destroy_kdn fuel1) fuel2 (faddr c) s = Ok tt s' ∧
    keywords s' = keywords s ∧ kd_root s' = kd_root s ∧ brk s' = brk s ∧
    ∀ x, heap s' !! x = if decide (x ∈ addrs c) then None else heap s !! x.
Proof.
  induction c as [|e a p kids IHk nx IHn]; intros s fuel1 fuel2 Hc Hnd Hnz Hf1 Hf2.
  - destruct fuel2 as [|fuel2]; [simpl in Hf2; lia|]. by exists s.
  - destruct fuel2 as [|fuel2]; [simpl in Hf2; lia|].
    destruct fuel1 as [|fuel1]; [simpl in Hf1; lia|].
    simpl in Hf1, Hf2.
    pose proof Hc as Hc'. simpl in Hc'. apply holds_cons in Hc' as [Ha Hc'].
    apply holds_app in Hc' as [Hk Hn].
    rewrite addrs_cons in Hnd, Hnz. apply NoDup_cons in Hnd as [Hak Hnd].
    apply NoDup_app in Hnd as (Hndk & Hdisj & Hndn).
    assert (a ≠ NULL) as Ha0 by (apply Hnz; left).
    cbn [destroy_children faddr].
    destruct (Z.eqb_spec a NULL) as [?|_]; [done|].
    rewrite (bind_Ok _ _ _ _ _ (load_Ok _ _ _ Ha0 Ha)). cbn [sibling].
    destruct (destroy_kdn_node fuel1 s a p kids (faddr nx)) as
      (s1 & Hrun1 & Hkw1 & Hr1 & Hb1 & Hheap1); [|done|done|done| | |].
    { intros s1 Hk1. apply IHk; [done|done| |lia|lia].
      intros x Hx. apply Hnz. right. apply elem_of_app. by left. }
    { intros ?. apply Hak, elem_of_app. by left. }
    { intros x Hx. apply Hnz. right. apply elem_of_app. by left. }
    rewrite (bind_Ok _ _ _ _ _ Hrun1).
    destruct (IHn s1 (S fuel1) fuel2) as (s2 & Hrun2 & Hkw2 & Hr2 & Hb2 & Hheap2);
      [|done| |lia|lia|].
    { eapply holds_frame; [done|]. intros x Hx. rewrite Hheap1.
      destruct (decide (x ∈ a :: addrs kids)) as [[->|Hxk]%elem_of_cons|_]; [| |done].
      - exfalso. apply Hak, elem_of_app. by right.
      - exfalso. by apply (Hdisj x). }
    { intros x Hx. apply Hnz. right. apply elem_of_app. by right. }
    exists s2. split_and!; [done|congruence..|].
    intros x. rewrite Hheap2, Hheap1, addrs_cons.
    destruct (decide (x ∈ addrs nx)) as [Hxn|Hxn];
      destruct (decide (x ∈ a :: addrs kids)) as [Hxk|Hxk];
      destruct (decide (x ∈ a :: addrs kids ++ addrs nx)) as [Hx|Hx]; try done;
      exfalso.
    + apply Hx. right. apply elem_of_app. by right.
    + apply Hx. right. apply elem_of_app. by right.
    + apply Hx. apply elem_of_cons in Hxk as [->|?]; [left|right].
      apply elem_of_app. by left.
    + apply elem_of_cons in Hx as [->|[?|?]%elem_of_app]; [|by apply Hxk; right|done].
      apply Hxk. left.
Qed.

Lemma destroy_keyword_dict_models s f fuel :
  models s f → (fsize f < fuel)%nat →
  ∃ s', proto_identify_destroy_keyword_dict fuel s = Ok tt s' ∧
    keywords s' = keywords s ∧ kd_root s' = kd_root s ∧ brk s' = brk s ∧
    ∀ x, heap s' !! x = if decide (x ∈ addrs f) then None else heap s !! x.
Proof.
  intros [(q & kids & ->) Hc Hnd Hbd] Hfuel.
  assert (∀ x, x ∈ addrs (FCons 0 (kd_root s) q kids FNil) → x ≠ NULL) as Hnz.
  { intros x Hx. apply Hbd in Hx. unfold NULL. lia. }
  rewrite addrs_cons, app_nil_r in Hnd, Hnz |- *.
  simpl in Hc. rewrite app_nil_r in Hc. apply holds_cons in Hc as [Hr Hk].
  apply NoDup_cons in Hnd as [Hrk Hndk].
  assert (kd_root s ≠ NULL) as Hr0 by (apply Hnz; left).
  unfold proto_identify_destroy_keyword_dict, bind, get.
  destruct (Z.eqb_spec (kd_root s) NULL) as [?|_]; [done|].
  destruct fuel as [|fuel]; [lia|]. simpl in Hfuel. rewrite Nat.add_0_r in Hfuel.
  apply (destroy_kdn_node fuel s (kd_root s) q kids NULL); try done.
  - intros s1 Hk1. apply destroy_children_forest; [done|done| |lia|lia].
    intros x Hx. apply Hnz. by right.
  - intros x Hx. apply Hnz. by right.
Qed.

Lemma built_addrs s s' f x :
  0 < brk s →
  insert_all (keywords s) (brk s + 1) (leaf 0 (brk s)) = Some (f, brk s') →
  x ∈ addrs f ↔ brk s ≤ x < brk s'.
Proof.
  intros Hb Hall. apply insert_all_shape in Hall as (q & k & -> & Hle & Hperm).
  rewrite addrs_cons, app_nil_r, elem_of_cons, Hperm. simpl.
  rewrite elem_of_seqZ. lia.
Qed.

(** X1: what the search returns.  In the dictionary built from any table
    within capacity, a non-[NULL] result of [search_keyword_dict] is the end
    node of the path of a keyword of the table; the node carries that
    keyword's inference, whose protocol id is not 0, and the keyword's
    signature matches the first bytes of the input. *)
Theorem search_returns_matching_keyword (s : machine) :
  kd_root s = NULL → 0 < brk s → num_keywords s ≤ MAX_KEYWORDS →
  ∃ s', construct_keyword_dict s = Ok 0 s' ∧
    ∀ data p, search_keyword_dict (kd_root s') data s' = Ok p s' → p ≠ NULL →
      ∃ n kc, kc ∈ keywords s ∧
        path_end (value kc) (kd_root s') s' = Ok p s' ∧
        heap s' !! p = Some n ∧ pi n = kc_pi kc ∧ app (kc_pi kc) ≠ 0 ∧
        matches_prefix (value kc) data = true.
Proof.
  intros Hroot Hb Hlen.
  destruct (construct_keyword_dict_refines s Hroot Hb)
    as (s' & f & Hrun & Hall & Hm & _).
  { unfold num_keywords, MAX_KEYWORDS in Hlen. lia. }
  exists s'. split; [done|]. intros data p Hsearch Hp.
  destruct (models_search s' f data Hm) as [Hsearch' _].
  rewrite Hsearch' in Hsearch. injection Hsearch as <-.
  pose proof Hm as [(q & k & ->) Hc _ _].
  destruct (fsearch_sound _ _ _ _ _ _ Hp) as (path & r & Hmatch & Hloc & Hpi & Hr).
  assert (∀ vals r', locate_pi vals (leaf 0 (brk s)) = Some r' → app r' ≠ 0 →
            ∃ kc, kc ∈ [] ∧ value kc = vals ∧ kc_pi kc = r') as Hleaf.
  { intros [|v vs] r'; simpl; [by intros [= <-]|by rewrite locate_pi_nil]. }
  destruct (insert_all_marked _ [] _ _ _ _ _ _ _ _ Hall Hleaf path r Hpi Hr)
    as (kc & Hkc & <- & <-).
  rewrite <- Hloc in Hp. destruct (locate_pi_cells _ _ Hp) as (n & Hin & Hpi').
  exists n, kc. rewrite <- Hloc.
  split_and!; [done| |by apply Hc|congruence|done|by apply matches_prefix_Forall2].
  apply path_end_refines; [done|]. intros x Hx. by eapply models_nonzero.
Qed.

Lemma search_returns_matching_keyword_witness :
  ∃ s', construct_keyword_dict tls_table = Ok 0 s' ∧
    ∀ data p, search_keyword_dict (kd_root s') data s' = Ok p s' → p ≠ NULL →
      ∃ n kc, kc ∈ keywords tls_table ∧
        path_end (value kc) (kd_root s') s' = Ok p s' ∧
        heap s' !! p = Some n ∧ pi n = kc_pi kc ∧ app (kc_pi kc) ≠ 0 ∧
        matches_prefix (value kc) data = true.
Proof.
  apply (search_returns_matching_keyword tls_table); [reflexivity|reflexivity|].
  vm_compute. discriminate.
Defined.

(** ** Last write wins *)

Lemma insert_all_keeps_pi kcs vals r : ∀ b e a q k nx f' b',
  insert_all kcs b (FCons e a q k nx) = Some (f', b') →
  (∀ kc, kc ∈ kcs → value kc ≠ vals) →
  locate_pi vals (FCons e a q k nx) = Some r → locate_pi vals f' = Some r.
Proof.
  induction kcs as [|kc kcs IH]; intros b e a q k nx f' b' Hall Hne Hpi;
    simpl in Hall.
  - by injection Hall as <- _.
  - destruct (insert _ _ _ _) as [[f1 b1]|] eqn:H1; [|done].
    pose proof H1 as Hsh. apply insert_shape in Hsh as (q1 & k1 & -> & _).
    eapply IH; [done| |].
    + intros kc' Hin. apply Hne. by right.
    + destruct (insert_keeps_locate_pi vals _ _ _ _ _ _ H1) as [->|[Hnone _]];
        [|done|congruence].
      intros Heq. apply (Hne kc); [left|done].
Qed.

Lemma insert_all_last_pi l1 : ∀ kc l2 b e a q k nx f' b',
  insert_all (l1 ++ kc :: l2) b (FCons e a q k nx) = Some (f', b') →
  (∀ kc', kc' ∈ l2 → value kc' ≠ value kc) →
  locate_pi (value kc) f' = Some (kc_pi kc).
Proof.
  induction l1 as [|k1 l1 IH]; intros kc l2 b e a q k nx f' b' Hall Hlast;
    simpl in Hall;
    (destruct (insert _ _ _ _) as [[f1 b1]|] eqn:H1; [|done]);
    pose proof H1 as Hsh; apply insert_shape in Hsh as (q1 & k1' & -> & _).
  - eapply insert_all_keeps_pi; [done..|]. by eapply insert_locate_pi.
  - by eapply IH.
Qed.

(** X2: last write wins.  In the dictionary built from any table within
    capacity, the path of each keyword ends at a node, and the node carries
    the inference of the last keyword of the table with that signature: a
    later duplicate silently replaces the inference of an earlier one. *)
Theorem last_duplicate_wins (s : machine) :
  kd_root s = NULL → 0 < brk s → num_keywords s ≤ MAX_KEYWORDS →
  ∃ s', construct_keyword_dict s = Ok 0 s' ∧
    ∀ l1 kc l2, keywords s = l1 ++ kc :: l2 →
      (∀ kc', kc' ∈ l2 → value kc' ≠ value kc) →
      ∃ t n, path_end (value kc) (kd_root s') s' = Ok t s' ∧ t ≠ NULL ∧
             heap s' !! t = Some n ∧ pi n = kc_pi kc.
Proof.
  intros Hroot Hb Hlen.
  destruct (construct_keyword_dict_refines s Hroot Hb)
    as (s' & f & Hrun & Hall & Hm & _).
  { unfold num_keywords, MAX_KEYWORDS in Hlen. lia. }
  exists s'. split; [done|]. intros l1 kc l2 Hk Hlast.
  pose proof Hm as [(q & k & ->) Hc _ _].
  assert (locate (value kc) (FCons 0 (kd_root s') q k FNil) ≠ NULL) as Hloc.
  { eapply (insert_all_locate _ _ _ _ _ _ _ _ _ kc); [| |done|]; [lia| |].
    - by intros x ?%elem_of_nil.
    - rewrite Hk. apply elem_of_app. right. left. }
  destruct (locate_pi_cells _ _ Hloc) as (n & Hin & Hpi).
  rewrite Hk in Hall. rewrite (insert_all_last_pi _ _ _ _ _ _ _ _ _ _ _ Hall Hlast) in Hpi.
  eexists _, n. split_and!; [|done|by apply Hc|congruence].
  apply path_end_refines; [done|]. intros x Hx. by eapply models_nonzero.
Qed.

Lemma last_duplicate_wins_witness :
  ∃ s' t n, construct_keyword_dict duplicate_table = Ok 0 s' ∧
    path_end [0x41] (kd_root s') s' = Ok t s' ∧ t ≠ NULL ∧
    heap s' !! t = Some n ∧ pi n = Pi DIR_CLIENT 8080.
Proof.
  destruct (last_duplicate_wins duplicate_table) as (s' & Hrun & Hlast);
    [reflexivity|reflexivity|vm_compute; discriminate|].
  destruct (Hlast [Keyword [0x41] (Pi DIR_CLIENT 80)]
                  (Keyword [0x41] (Pi DIR_CLIENT 8080))
                  [Keyword [0x42] (Pi DIR_CLIENT 21)]) as (t & n & Hend);
    [reflexivity| |].
  { intros kc' ->%list_elem_of_singleton. discriminate. }
  exists s', t, n. exact (conj Hrun Hend).
Defined.

(** ** The first signature of the table *)

Lemma spine_next vals e a p k nx nx' :
  spine vals (FCons e a p k nx) → spine vals (FCons e a p k nx').
Proof. by destruct vals. Qed.

Lemma chain_of_spine vals : ∀ f, chain_of vals f → spine vals f.
Proof.
  induction vals as [|v vs IH]; intros f H; [done|].
  destruct f as [|e a q [|e1 a1 q1 k1 [|]] nx]; try done.
  destruct H as [-> H]. split; [done|]. by apply IH.
Qed.

Lemma insert_spine vals : ∀ vals2 p b f f' b',
  spine vals f → insert vals2 p b f = Some (f', b') → spine vals f'.
Proof.
  induction vals as [|v vs IH]; intros vals2 p b f f' b' Hsp Hins; [done|].
  destruct f as [|e a q [|e1 a1 q1 k1 nx1] nx]; try done.
  destruct Hsp as [-> Hsp].
  destruct vals2 as [|v2 vs2]; simpl in Hins.
  { by injection Hins as <- <-. }
  destruct (Z.eqb_spec v2 v) as [->|Hne].
  - fold (insert vs2 p b (FCons v a1 q1 k1 nx1)) in Hins.
    destruct (insert vs2 p b (FCons v a1 q1 k1 nx1)) as [[c b1]|] eqn:Hrec; [|done].
    injection Hins as <- <-.
    pose proof Hrec as Hsh. apply insert_shape in Hsh as (q' & k' & -> & _).
    split; [done|]. by eapply IH.
  - destruct (chain_insert _ _ _ nx1) as [[nx1' b1]|]; [|done].
    injection Hins as <- <-. split; [done|]. by eapply spine_next.
Qed.

Lemma insert_all_spine kcs vals : ∀ b f f' b',
  f ≠ FNil → spine vals f → insert_all kcs b f = Some (f', b') → spine vals f'.
Proof.
  induction kcs as [|kc kcs IH]; intros b f f' b' Hne Hsp Hall; simpl in Hall.
  - by injection Hall as <- _.
  - destruct (insert _ _ _ _) as [[f1 b1]|] eqn:H1; [|done].
    eapply (IH b1 f1); [|by eapply insert_spine|done].
    destruct f as [|e a q k nx]; [done|].
    by apply insert_shape in H1 as (? & ? & -> & _).
Qed.

(** Along a spine whose end carries a protocol id, an input that the
    spine's symbols match is never left unclassified. *)
Lemma fsearch_spine vals : ∀ data e a p k nx r,
  vals ≠ [] →
  spine vals (FCons e a p k nx) →
  (∀ x, x ∈ addrs k → x ≠ NULL) →
  locate_pi vals (FCons e a p k nx) = Some r → app r ≠ 0 →
  matches_prefix vals data = true →
  fsearch data (FCons e a p k nx) ≠ NULL.
Proof.
  induction vals as [|v vs IH]; intros data e a p k nx r Hne Hsp Hnz Hpi Hr Hm;
    [done|].
  destruct k as [|e1 a1 p1 k1 nx1]; [done|]. destruct Hsp as [-> Hsp].
  destruct data as [|b data]; [done|]. cbn [matches_prefix] in Hm.
  apply andb_true_iff in Hm as [Hb Hm].
  cbn [fsearch fsearch_chain locate_pi hit] in *. rewrite Z.eqb_refl in Hpi.
  rewrite Hb.
  assert (a1 ≠ NULL) as Ha1 by (apply Hnz; rewrite addrs_cons; left).
  destruct (Z.eqb_spec (app p1) 0) as [Hz|_]; [|done]. cbn [negb].
  destruct vs as [|v' vs'].
  { simpl in Hpi. congruence. }
  destruct data as [|b' data']; [done|].
  destruct (Z.eqb_spec (Z.of_nat (length (b :: b' :: data'))) 1) as [Hl|_];
    [simpl in Hl; lia|].
  eapply IH; [done|done| |done..].
  intros x Hx. apply Hnz. rewrite addrs_cons. right. apply elem_of_app. by left.
Qed.




(** ** Classification over a built dictionary *)

(** With a single signature in the table, classification is the program's
    test along that signature. *)
Lemma single_signature_tested (s : machine) (vals : list Z) (p : pi_container)
    (data : list Z) :
  kd_root s = NULL → 0 < brk s →
  keywords s = [Keyword vals p] → vals ≠ [] → app p ≠ 0 →
  ∃ s', construct_keyword_dict s = Ok 0 s' ∧
    identify_tcp_protocol data s' =
      Ok (if matches_prefix vals data then app p else 0) s'.
Proof.
  intros Hroot Hb Hk Hval Happ.
  destruct (construct_keyword_dict_refines s Hroot Hb)
    as (s' & f & Hrun & Hall & Hm & _).
  { rewrite Hk. simpl. lia. }
  exists s'. split; [done|].
  destruct (identify_tcp_protocol_models s' f data Hm) as (port & -> & Hnull & Hnode).
  f_equal. destruct (models_search s' f data Hm) as [Hsearch _].
  destruct (Z.eqb_spec (fsearch data f) NULL) as [Hp|Hp].
  - rewrite (Hnull Hp).
    destruct (matches_prefix vals data) eqn:Hmatch; [|done]. exfalso.
    revert Hp. pose proof Hm as [(q & k & ->) Hc _ _].
    eapply (fsearch_spine vals); [done| | | |exact Happ|done].
    + rewrite Hk in Hall. simpl in Hall.
      destruct (insert vals p _ _) as [[f1 b1]|] eqn:H1; [|done].
      injection Hall as -> _. by eapply chain_of_spine, insert_leaf_chain.
    + intros x Hx. eapply models_nonzero; [done|]. rewrite addrs_cons. right.
      apply elem_of_app. by left.
    + rewrite Hk in Hall. simpl in Hall.
      destruct (insert vals p _ _) as [[f1 b1]|] eqn:H1; [|done].
      injection Hall as -> _. by eapply insert_locate_pi.
  - destruct (search_keyword_dict_sound s s' f data _ Hm Hall Hsearch Hp)
      as (n & kc' & Hn & Hkc' & Hpi & _ & Hmatch).
    rewrite Hk in Hkc'. apply list_elem_of_singleton in Hkc' as ->. simpl in *.
    apply matches_prefix_Forall2 in Hmatch. rewrite Hmatch.
    rewrite (Hnode n Hp Hn). by rewrite Hpi.
Qed.

(** X4: a dictionary with a single signature.  With one keyword (non-empty
    signature [vals] of 16-bit symbols, inference [p] with a non-zero
    protocol id) in the table, [identify_tcp_protocol] on the built
    dictionary returns 0 on every input that [vals] does not match; and when
    [vals] consists of wildcards and literals below [0x80], it returns [p]'s
    protocol id exactly on the inputs whose first bytes [vals] matches (each
    symbol the wildcard or equal to the byte). *)
Theorem single_signature_exact (s : machine) (vals : list Z) (p : pi_container)
    (data : list Z) :
  kd_root s = NULL → 0 < brk s →
  keywords s = [Keyword vals p] → vals ≠ [] → app p ≠ 0 →
  Forall is_symbol vals → Forall is_byte data →
  ∃ s', construct_keyword_dict s = Ok 0 s' ∧
    (signature_matches vals data = false →
     identify_tcp_protocol data s' = Ok 0 s') ∧
    (Forall plain_symbol vals →
     identify_tcp_protocol data s' =
       Ok (if signature_matches vals data then app p else 0) s').
Proof.
  intros Hroot Hb Hk Hval Happ Hsym Hdata.
  destruct (single_signature_tested s vals p data Hroot Hb Hk Hval Happ)
    as (s' & Hrun & Hid).
  exists s'. split; [done|]. split.
  - intros Hno. rewrite Hid.
    destruct (matches_prefix vals data) eqn:Hm; [|done].
    by rewrite (matches_prefix_signature _ _ Hdata Hsym Hm) in Hno.
  - intros Hplain. by rewrite Hid, signature_matches_plain_eq.
Qed.

Lemma single_signature_exact_witness :
  ∃ s', construct_keyword_dict client_table = Ok 0 s' ∧
    (signature_matches tls_client_hello [0x16; 0x03; 0x01; 0x7F; 0x00; 0x01; 0x42] = false →
     identify_tcp_protocol [0x16; 0x03; 0x01; 0x7F; 0x00; 0x01; 0x42] s' = Ok 0 s') ∧
    (Forall plain_symbol tls_client_hello →
     identify_tcp_protocol [0x16; 0x03; 0x01; 0x7F; 0x00; 0x01; 0x42] s' =
       Ok (if signature_matches tls_client_hello
                [0x16; 0x03; 0x01; 0x7F; 0x00; 0x01; 0x42]
           then app (Pi DIR_CLIENT 443) else 0) s').
Proof.
  apply (single_signature_exact client_table tls_client_hello (Pi DIR_CLIENT 443));
    [reflexivity|reflexivity|reflexivity|discriminate|discriminate
    |repeat (apply Forall_cons_2; [unfold is_symbol, WILDCARD; lia|]);
     apply Forall_nil_2
    |repeat (apply Forall_cons_2; [unfold is_byte; lia|]); apply Forall_nil_2].
Defined.

(** ** Building and tearing down *)

Lemma fsize_addrs f : fsize f = length (addrs f).
Proof.
  induction f as [|e a p kids IHk nx IHn]; [done|].
  rewrite addrs_cons. simpl. rewrite length_app. lia.
Qed.

(** X5: teardown releases exactly what the build allocated.  When nothing is
    live at or above the allocation mark, building the dictionary makes every
    block between the old and the new mark live, and
    [proto_identify_destroy_keyword_dict] (given recursion depth for that
    many nodes) frees them all: the store is again what it was before the
    build.  The table is kept, and [kd_root] still holds the address of the
    freed root. *)
Theorem build_then_teardown_restores_heap (s : machine) :
  kd_root s = NULL → 0 < brk s → (length (keywords s) ≤ 256)%nat →
  (∀ x, brk s ≤ x → heap s !! x = None) →
  ∃ s1, construct_keyword_dict s = Ok 0 s1 ∧
    (∀ x, brk s ≤ x < brk s1 → is_Some (heap s1 !! x)) ∧
    ∀ fuel, (Z.to_nat (brk s1 - brk s) < fuel)%nat →
      ∃ s2, proto_identify_destroy_keyword_dict fuel s1 = Ok tt s2 ∧
        heap s2 = heap s ∧ keywords s2 = keywords s ∧
        brk s2 = brk s1 ∧ kd_root s2 = brk s.
Proof.
  intros Hroot Hb Hlen Hfresh.
  destruct (construct_keyword_dict_refines s Hroot Hb Hlen)
    as (s1 & f & Hrun & Hall & Hm & _ & _ & Hr1 & Hk1 & Hframe).
  exists s1. split_and!; [done| |].
  - intros x Hx. apply (built_addrs s s1 f x Hb Hall) in Hx.
    apply list_elem_of_fmap in Hx as ([a n] & -> & Hin).
    exists n. exact (models_cells _ _ Hm _ _ Hin).
  - intros fuel Hfuel.
    destruct (destroy_keyword_dict_models s1 f fuel Hm) as (s2 & Hd & Hk2 & Hr2 & Hb2 & Hheap).
    { rewrite fsize_addrs.
      pose proof Hall as (q & k & -> & Hle & Hperm)%insert_all_shape.
      rewrite addrs_cons, app_nil_r. simpl. rewrite Hperm. simpl.
      rewrite length_seqZ. lia. }
    exists s2. split_and!; [done| |congruence|done|congruence].
    apply map_eq. intros x. rewrite Hheap.
    destruct (decide (x ∈ addrs f)) as [Hx|Hx].
    + apply (built_addrs s s1 f x Hb Hall) in Hx. symmetry. apply Hfresh. lia.
    + by apply Hframe.
Qed.

Lemma build_then_teardown_restores_heap_witness :
  ∃ s1, construct_keyword_dict tls_table = Ok 0 s1 ∧
    (∀ x, brk tls_table ≤ x < brk s1 → is_Some (heap s1 !! x)) ∧
    ∀ fuel, (Z.to_nat (brk s1 - brk tls_table) < fuel)%nat →
      ∃ s2, proto_identify_destroy_keyword_dict fuel s1 = Ok tt s2 ∧
        heap s2 = heap tls_table ∧ keywords s2 = keywords tls_table ∧
        brk s2 = brk s1 ∧ kd_root s2 = brk tls_table.
Proof.
  apply (build_then_teardown_restores_heap tls_table);
    [reflexivity|reflexivity|vm_compute; lia|intros x _; reflexivity].
Defined.

(** X6: a torn-down dictionary cannot be used nor rebuilt.  After a
    successful [proto_identify_destroy_keyword_dict] on a built dictionary,
    [identify_tcp_protocol] on any non-empty input reads the freed root
    block, and [proto_identify_init_keyword_dict] sees a non-[NULL]
    [kd_root], returns 1 and builds nothing. *)
Theorem torn_down_dictionary_unusable (fuel : nat) (s s' : machine) (b : Z)
    (data : list Z) :
  kd_root s ≠ NULL →
  proto_identify_destroy_keyword_dict fuel s = Ok tt s' →
  identify_tcp_protocol (b :: data) s' = Crash (BadPointer (kd_root s)) ∧
  proto_identify_init_keyword_dict s' = Ok 1 s'.
Proof.
  intros Hroot Hrun.
  destruct (destroy_keyword_dict_dangling fuel s s' Hroot Hrun) as (Hr & Hfree & _).
  split.
  - unfold identify_tcp_protocol.
    destruct (Z.eqb_spec (Z.of_nat (length (b :: data))) 0) as [Hl|_];
      [simpl in Hl; lia|].
    unfold bind at 1. unfold get at 1. rewrite Hr.
    destruct (Z.eqb_spec (kd_root s) NULL) as [?|_]; [done|].
    unfold bind at 1. unfold ret at 1. unfold bind at 1. unfold get at 1.
    rewrite Hr. cbn [search_keyword_dict].
    destruct (Z.eqb_spec (kd_root s) NULL) as [?|_]; [done|].
    unfold bind, load.
    destruct (Z.eqb_spec (kd_root s) NULL) as [?|_]; [done|]. by rewrite Hfree.
  - unfold proto_identify_init_keyword_dict, bind, get. rewrite Hr.
    by destruct (Z.eqb_spec (kd_root s) NULL) as [?|_].
Qed.

Lemma torn_down_dictionary_unusable_witness :
  identify_tcp_protocol [0x16; 0x03; 0x01] tls_torn_down =
    Crash (BadPointer (kd_root tls_dictionary)) ∧
  proto_identify_init_keyword_dict tls_torn_down = Ok 1 tls_torn_down.
Proof.
  apply (torn_down_dictionary_unusable 16 tls_dictionary tls_torn_down);
    [discriminate|vm_compute; reflexivity].
Defined.

(** ** The module interface, end to end *)

(** X7: the table never leaves its arrays.  In every state reached from
    process start through [add_keyword], [proto_identify_init_keyword_dict]
    and [identify_tcp_protocol], the table holds at most [MAX_KEYWORDS]
    keywords and every signature in it has at most [MAX_VAL_LEN] symbols. *)
Theorem keyword_table_within_bounds (s : machine) :
  reachable s →
  num_keywords s ≤ MAX_KEYWORDS ∧
  ∀ kc, kc ∈ keywords s → Z.of_nat (length (value kc)) ≤ MAX_VAL_LEN.
Proof.
  intros (Hlen & _ & Hval & _)%reachable_settled.
  unfold num_keywords, MAX_KEYWORDS, MAX_VAL_LEN. split; [lia|].
  intros kc Hkc. rewrite Forall_forall in Hval. apply Hval in Hkc. lia.
Qed.

Lemma keyword_table_within_bounds_witness :
  num_keywords tls_dictionary ≤ MAX_KEYWORDS ∧
  ∀ kc, kc ∈ keywords tls_dictionary → Z.of_nat (length (value kc)) ≤ MAX_VAL_LEN.
Proof.
  apply (keyword_table_within_bounds tls_dictionary).
  apply (reachable_init startup 0); [constructor|vm_compute; reflexivity].
Defined.

(** X8: a protocol id is never made up.  In every state reached from process
    start without a teardown, a non-zero result of [identify_tcp_protocol]
    is the protocol id of a keyword of the table whose signature matches the
    first bytes of the input (wildcards matching any byte). *)
Theorem classification_sound (s : machine) (data : list Z) (port : Z) (s' : machine) :
  reachable s →
  identify_tcp_protocol data s = Ok port s' → port ≠ 0 →
  ∃ kc, kc ∈ keywords s' ∧ app (kc_pi kc) = port ∧
        matches_prefix (value kc) data = true.
Proof.
  intros Hs%reachable_settled Hrun Hport.
  by destruct (identify_tcp_protocol_settled s data port s' Hs Hrun) as [_ H]; apply H.
Qed.

Lemma classification_sound_witness :
  ∃ kc, kc ∈ keywords tls_dictionary ∧ app (kc_pi kc) = 443 ∧
        matches_prefix (value kc) [0x16; 0x03; 0x01; 0x00; 0x2F; 0x01; 0x00] = true.
Proof.
  apply (classification_sound startup [0x16; 0x03; 0x01; 0x00; 0x2F; 0x01; 0x00]
           443 tls_dictionary);
    [constructor|vm_compute; reflexivity|discriminate].
Defined.

(** X9: keywords added after the build never reach the dictionary.  Once the
    dictionary exists, [identify_tcp_protocol] changes nothing in the state,
    and a later [add_keyword], successful or not, changes no answer: the
    dictionary is built once and never extended. *)
Theorem keyword_added_after_build_ignored (s : machine) (val : list Z) (n : Z)
    (p : pi_container) (r : Z) (s' : machine) (data : list Z) :
  reachable s → kd_root s ≠ NULL →
  add_keyword val n p s = Ok r s' →
  ∃ port, identify_tcp_protocol data s = Ok port s ∧
          identify_tcp_protocol data s' = Ok port s'.
Proof.
  intros Hs%reachable_settled Hroot Hadd.
  pose proof Hs as (_ & _ & _ & [?|(f & pre & post & _ & Hm & _)]); [done|].
  assert (models s' f ∧ heap s' = heap s) as [Hm' Hheap].
  { unfold add_keyword in Hadd.
    destruct (_ >=? _); [by injection Hadd as _ <-|].
    destruct (_ >? _); [by injection Hadd as _ <-|].
    injection Hadd as _ <-. destruct Hm as [Hr Hc Hnd Hbd]. by split. }
  destruct (identify_tcp_protocol_models s f data Hm) as (port & Hrun & Hnull & Hnode).
  destruct (identify_tcp_protocol_models s' f data Hm') as (port' & Hrun' & Hnull' & Hnode').
  exists port. split; [done|]. rewrite Hrun'. f_equal.
  destruct (Z.eqb_spec (fsearch data f) NULL) as [Hp|Hp].
  - by rewrite Hnull, Hnull'.
  - destruct (models_search s f data Hm) as [_ Hlive].
    destruct (Hlive Hp) as [node Hnode0].
    rewrite (Hnode node Hp Hnode0). apply Hnode'; [done|]. by rewrite Hheap.
Qed.

Lemma keyword_added_after_build_ignored_witness :
  ∃ port,
    identify_tcp_protocol [0x47; 0x45; 0x54; 0x20] tls_dictionary = Ok port tls_dictionary ∧
    identify_tcp_protocol [0x47; 0x45; 0x54; 0x20]
      (appended tls_dictionary (Keyword [0x47; 0x45; 0x54] (Pi DIR_CLIENT 80))) =
      Ok port (appended tls_dictionary (Keyword [0x47; 0x45; 0x54] (Pi DIR_CLIENT 80))).
Proof.
  apply (keyword_added_after_build_ignored tls_dictionary [0x47; 0x45; 0x54] 6
           (Pi DIR_CLIENT 80) 0);
    [apply (reachable_init startup 0); [constructor|vm_compute; reflexivity]
    |discriminate|vm_compute; reflexivity].
Defined.

(** X10: the first classification builds the dictionary.  While no
    dictionary exists, [identify_tcp_protocol] on a non-empty input leaves
    exactly the state [proto_identify_init_keyword_dict] would leave (the TLS
    catalog is loaded when the table is empty, a non-empty table is kept as
    it is), and answers as it answers in that state, which it then no longer
    changes. *)
Theorem first_classification_builds (s : machine) (data : list Z) :
  reachable s → kd_root s = NULL → data ≠ [] →
  ∃ s1 port,
    proto_identify_init_keyword_dict s = Ok 0 s1 ∧
    keywords s1 = (if decide (keywords s = []) then keywords tls_table else keywords s) ∧
    kd_root s1 ≠ NULL ∧
    identify_tcp_protocol data s = Ok port s1 ∧
    identify_tcp_protocol data s1 = Ok port s1.
Proof.
  intros Hs%reachable_settled Hroot Hdata.
  destruct (init_keyword_dict_settled s Hs Hroot) as (s1 & f & Hrun & Hbuilt & _ & Hk).
  pose proof (built_from_root _ _ _ Hbuilt) as Hroot1.
  destruct Hbuilt as [Hm _].
  destruct (identify_tcp_protocol_models s1 f data Hm) as (port & Hrun1 & _).
  exists s1, port. split_and!; [done..| |done].
  rewrite (identify_tcp_protocol_via s 0 s1); [done| |done|done].
  by destruct (Z.eqb_spec (kd_root s) NULL).
Qed.

Lemma first_classification_builds_witness :
  ∃ s1 port,
    proto_identify_init_keyword_dict client_table = Ok 0 s1 ∧
    keywords s1 = (if decide (keywords client_table = [])
                   then keywords tls_table else keywords client_table) ∧
    kd_root s1 ≠ NULL ∧
    identify_tcp_protocol [0x16; 0x03; 0x01] client_table = Ok port s1 ∧
    identify_tcp_protocol [0x16; 0x03; 0x01] s1 = Ok port s1.
Proof.
  apply (first_classification_builds client_table [0x16; 0x03; 0x01]);
    [apply (reachable_add startup tls_client_hello (sizeof tls_client_hello)
              (Pi DIR_CLIENT 443) 0); [constructor|reflexivity]
    |reflexivity|discriminate].
Defined.

(** ** Which signatures the search can report *)

Lemma built_marked kcs b0 f b' vals r :
  insert_all kcs (b0 + 1) (leaf 0 b0) = Some (f, b') →
  locate_pi vals f = Some r → app r ≠ 0 →
  ∃ kc, kc ∈ kcs ∧ value kc = vals ∧ kc_pi kc = r.
Proof.
  intros Hall Hpi Hr.
  assert (∀ vals r', locate_pi vals (leaf 0 b0) = Some r' → app r' ≠ 0 →
            ∃ kc, kc ∈ [] ∧ value kc = vals ∧ kc_pi kc = r') as Hleaf.
  { intros [|v vs] r'; simpl; [by intros [= <-]|by rewrite locate_pi_nil]. }
  exact (insert_all_marked _ [] _ _ _ _ _ _ _ _ Hall Hleaf vals r Hpi Hr).
Qed.

(** The path of the search, with what it passed on the way: every node
    before the last carries the protocol id 0. *)
Lemma fsearch_sound_minimal data : ∀ e0 a0 p0 k0 nx0,
  fsearch data (FCons e0 a0 p0 k0 nx0) ≠ NULL →
  ∃ path q,
    Forall2 (λ b e, edge_matches b e = true) (take (length path) data) path ∧
    locate path (FCons e0 a0 p0 k0 nx0) = fsearch data (FCons e0 a0 p0 k0 nx0) ∧
    locate_pi path (FCons e0 a0 p0 k0 nx0) = Some q ∧ app q ≠ 0 ∧
    ∀ pre ext, pre ≠ [] → ext ≠ [] → path = pre ++ ext →
      ∃ q', locate_pi pre (FCons e0 a0 p0 k0 nx0) = Some q' ∧ app q' = 0.
Proof.
  induction data as [|b data IH]; intros e0 a0 p0 k0 nx0 Hres; [done|].
  cbn [fsearch] in *.
  destruct (fsearch_chain_hit _ _ _ Hres) as (e & a & p & k & nx & He & Hhit & Heq).
  rewrite Heq in *. destruct (Z.eqb_spec (app p) 0) as [Hz|Hnz]; cbn [negb] in *.
  - destruct (_ =? 1); [done|].
    destruct (IH _ _ _ _ _ Hres) as (path & q & Hm & Hloc & Hpi & Hq & Hmin).
    exists (e :: path), q. cbn [locate locate_pi length firstn]. rewrite Hhit.
    split_and!; [by constructor|done..|].
    intros [|v pre] ext Hpre Hext Heq'; [done|]. injection Heq' as <- ->.
    cbn [locate_pi]. rewrite Hhit. destruct pre as [|v' pre].
    + by exists p.
    + by apply (Hmin (v' :: pre) ext).
  - exists [e], p. cbn [locate locate_pi length firstn]. rewrite Hhit. simpl.
    split_and!; [|done..|].
    + constructor; [done|]. rewrite take_0. constructor.
    + intros [|v [|v' pre]] [|x ext] Hpre Hext Heq'; done.
Qed.

(** X11: an empty signature is never reported.  [add_keyword] accepts a
    signature of length 0, and [keyword_dict_add_keyword] stores its
    inference at the root; but [search_keyword_dict] never returns the root,
    so an input that only empty signatures of the table match is left
    unclassified, although the empty signature matches every input. *)
Theorem empty_signature_never_reported (s : machine) :
  kd_root s = NULL → 0 < brk s → num_keywords s ≤ MAX_KEYWORDS →
  ∃ s', construct_keyword_dict s = Ok 0 s' ∧
    (∀ kc, kc ∈ keywords s → value kc = [] →
       path_end (value kc) (kd_root s') s' = Ok (kd_root s') s') ∧
    (∀ data p, search_keyword_dict (kd_root s') data s' = Ok p s' → p ≠ kd_root s') ∧
    (∀ data,
       (∀ kc, kc ∈ keywords s → matches_prefix (value kc) data = true → value kc = []) →
       identify_tcp_protocol data s' = Ok 0 s').
Proof.
  intros Hroot Hb Hlen.
  destruct (construct_keyword_dict_refines s Hroot Hb)
    as (s' & f & Hrun & Hall & Hm & _).
  { unfold num_keywords, MAX_KEYWORDS in Hlen. lia. }
  assert (∀ data, fsearch data f ≠ kd_root s') as Hnot.
  { intros data. pose proof Hm as [(q & k & ->) _ Hnd _].
    destruct (Z.eqb_spec (fsearch data (FCons 0 (kd_root s') q k FNil)) NULL) as [->|Hp].
    - intros Heq. symmetry in Heq. revert Heq.
      eapply models_nonzero; [done|]. rewrite addrs_cons. left.
    - apply fsearch_below in Hp. rewrite addrs_cons, app_nil_r in Hnd.
      apply NoDup_cons in Hnd as [Hr _]. intros Heq. by rewrite Heq in Hp. }
  exists s'. split_and!; [done| | |].
  - by intros kc _ ->.
  - intros data p Hsearch. destruct (models_search s' f data Hm) as [Hsearch' _].
    rewrite Hsearch' in Hsearch. injection Hsearch as <-. apply Hnot.
  - intros data Honly.
    destruct (identify_tcp_protocol_models s' f data Hm) as (port & -> & Hnull & _).
    f_equal. apply Hnull.
    destruct (Z.eqb_spec (fsearch data f) NULL) as [Hp|Hp]; [done|]. exfalso.
    pose proof Hm as [(q & k & ->) _ _ _].
    destruct (fsearch_sound _ _ _ _ _ _ Hp) as (path & r & Hmatch & Hloc & Hpi & Hr).
    destruct (built_marked _ _ _ _ _ _ Hall Hpi Hr) as (kc & Hkc & <- & _).
    apply matches_prefix_Forall2 in Hmatch.
    rewrite (Honly kc Hkc Hmatch) in Hloc. simpl in Hloc.
    by apply (Hnot data).
Qed.

Lemma empty_signature_never_reported_witness :
  ∃ s', construct_keyword_dict (appended startup (Keyword [] (Pi DIR_CLIENT 443)))
          = Ok 0 s' ∧
    (∀ kc, kc ∈ keywords (appended startup (Keyword [] (Pi DIR_CLIENT 443))) →
       value kc = [] →
       path_end (value kc) (kd_root s') s' = Ok (kd_root s') s') ∧
    (∀ data p, search_keyword_dict (kd_root s') data s' = Ok p s' → p ≠ kd_root s') ∧
    (∀ data,
       (∀ kc, kc ∈ keywords (appended startup (Keyword [] (Pi DIR_CLIENT 443))) →
              matches_prefix (value kc) data = true → value kc = []) →
       identify_tcp_protocol data s' = Ok 0 s').
Proof.
  apply (empty_signature_never_reported (appended startup (Keyword [] (Pi DIR_CLIENT 443))));
    [reflexivity|reflexivity|vm_compute; discriminate].
Defined.

(** Once the program's test accepts the first byte at the first edge of the
    root, the search stays below that edge. *)
Lemma first_edge_commits (s : machine) (v1 : Z) (r1 : list Z)
    (p1 : pi_container) (rest : list keyword_container) (b : Z) (data : list Z) :
  kd_root s = NULL → 0 < brk s → num_keywords s ≤ MAX_KEYWORDS →
  keywords s = Keyword (v1 :: r1) p1 :: rest →
  Forall (λ kc, head (value kc) ≠ Some v1) rest →
  edge_matches b v1 = true → matches_prefix r1 data = false →
  ∃ s', construct_keyword_dict s = Ok 0 s' ∧
    identify_tcp_protocol (b :: data) s' = Ok 0 s'.
Proof.
  intros Hroot Hb Hlen Hk Hrest Hedge Hmatch.
  destruct (construct_keyword_dict_refines s Hroot Hb)
    as (s' & f & Hrun & Hall & Hm & _).
  { unfold num_keywords, MAX_KEYWORDS in Hlen. lia. }
  exists s'. split; [done|].
  destruct (identify_tcp_protocol_models s' f (b :: data) Hm) as (port & -> & Hnull & _).
  f_equal. apply Hnull.
  assert (∀ path r, locate_pi (v1 :: path) f = Some r → app r ≠ 0 → path = r1) as Honly.
  { intros path r Hpi Hr.
    destruct (built_marked _ _ _ _ _ _ Hall Hpi Hr) as (kc & Hkc & Hv & _).
    rewrite Hk in Hkc. apply elem_of_cons in Hkc as [->|Hkc]; [by injection Hv|].
    rewrite Forall_forall in Hrest. apply Hrest in Hkc. by rewrite Hv in Hkc. }
  assert (spine [v1] f) as Hsp.
  { rewrite Hk in Hall. cbn [insert_all value kc_pi] in Hall.
    destruct (insert (v1 :: r1) _ _ _) as [[f1 b1]|] eqn:H1; [|done].
    eapply (insert_all_spine rest); [| |done].
    - by apply insert_shape in H1 as (? & ? & -> & _).
    - apply insert_leaf_chain, chain_of_spine in H1.
      destruct f1 as [|? ? ? [|? ? ? ? ?] ?]; try done. by destruct H1 as [-> _]. }
  pose proof Hm as [(q & k & ->) _ _ _].
  destruct k as [|e1 a1 q1 k1 nx1]; [done|]. destruct Hsp as [-> _].
  cbn [fsearch fsearch_chain]. rewrite Hedge.
  destruct (Z.eqb_spec (app q1) 0) as [Hz|Hnz]; cbn [negb].
  - destruct (_ =? 1); [done|].
    destruct (Z.eqb_spec (fsearch data (FCons v1 a1 q1 k1 nx1)) NULL) as [Hp|Hp]; [done|].
    exfalso.
    destruct (fsearch_sound _ _ _ _ _ _ Hp) as (path & r & Hm' & _ & Hpi & Hr).
    assert (path = r1) as ->.
    { apply (Honly path r); [|done]. cbn [locate_pi hit]. by rewrite Z.eqb_refl. }
    apply matches_prefix_Forall2 in Hm'. congruence.
  - exfalso. assert ([] = r1) as <-; [|done].
    apply (Honly [] q1); [|done]. cbn [locate_pi hit]. by rewrite Z.eqb_refl.
Qed.

(** X12: the search does not backtrack.  When the first keyword of the
    table is the only one that starts with its first symbol, and that symbol
    is a wildcard or a literal below [0x80], an input whose first byte it
    matches is judged by this keyword alone: if the rest of the signature
    does not match the bytes that follow, the input is left unclassified,
    whatever the other keywords are.  A signature with a leading wildcard at
    the head of the table thus hides every other signature. *)
Theorem first_edge_shadows_later (s : machine) (v1 : Z) (r1 : list Z)
    (p1 : pi_container) (rest : list keyword_container) (b : Z) (data : list Z) :
  kd_root s = NULL → 0 < brk s → num_keywords s ≤ MAX_KEYWORDS →
  keywords s = Keyword (v1 :: r1) p1 :: rest →
  Forall (λ kc, head (value kc) ≠ Some v1) rest →
  plain_symbol v1 → Forall is_symbol r1 →
  is_byte b → Forall is_byte data →
  symbol_matches b v1 = true → signature_matches r1 data = false →
  ∃ s', construct_keyword_dict s = Ok 0 s' ∧
    identify_tcp_protocol (b :: data) s' = Ok 0 s'.
Proof.
  intros Hroot Hb Hlen Hk Hrest Hv1 Hr1 Hbyte Hdata Hedge Hno.
  apply (first_edge_commits s v1 r1 p1 rest b data); [done..| |].
  - by apply symbol_matches_edge.
  - destruct (matches_prefix r1 data) eqn:Hm; [|done].
    by rewrite (matches_prefix_signature _ _ Hdata Hr1 Hm) in Hno.
Qed.

Lemma first_edge_shadows_later_witness :
  ∃ s', construct_keyword_dict
          (appended (appended startup (Keyword [WILDCARD; 0x01] (Pi DIR_CLIENT 80)))
                    (Keyword [0x16; 0x03] (Pi DIR_CLIENT 443))) = Ok 0 s' ∧
    identify_tcp_protocol [0x16; 0x03] s' = Ok 0 s'.
Proof.
  apply (first_edge_shadows_later
           (appended (appended startup (Keyword [WILDCARD; 0x01] (Pi DIR_CLIENT 80)))
                     (Keyword [0x16; 0x03] (Pi DIR_CLIENT 443)))
           WILDCARD [0x01] (Pi DIR_CLIENT 80)
           [Keyword [0x16; 0x03] (Pi DIR_CLIENT 443)] 0x16 [0x03]);
    [reflexivity|reflexivity|vm_compute; discriminate|reflexivity
    |repeat (apply Forall_cons_2; [discriminate|]); apply Forall_nil_2
    |left; reflexivity
    |repeat (apply Forall_cons_2; [unfold is_symbol; lia|]); apply Forall_nil_2
    |unfold is_byte; lia
    |repeat (apply Forall_cons_2; [unfold is_byte; lia|]); apply Forall_nil_2
    |reflexivity|reflexivity].
Defined.

(** X13: the shortest signature wins.  In the dictionary of a table whose
    keywords all carry a non-zero protocol id, the keyword at whose end node
    a search stops has no non-empty proper prefix among the signatures of
    the table: a signature that extends another one is never reported. *)
Theorem reported_signature_is_minimal (s : machine) :
  kd_root s = NULL → 0 < brk s → num_keywords s ≤ MAX_KEYWORDS →
  Forall (λ kc, app (kc_pi kc) ≠ 0) (keywords s) →
  ∃ s', construct_keyword_dict s = Ok 0 s' ∧
    ∀ data p, search_keyword_dict (kd_root s') data s' = Ok p s' → p ≠ NULL →
      ∃ kc, kc ∈ keywords s ∧
        path_end (value kc) (kd_root s') s' = Ok p s' ∧
        matches_prefix (value kc) data = true ∧
        ∀ kc' ext, kc' ∈ keywords s → value kc' ≠ [] → ext ≠ [] →
                   value kc ≠ value kc' ++ ext.
Proof.
  intros Hroot Hb Hlen Happ.
  destruct (construct_keyword_dict_refines s Hroot Hb)
    as (s' & f & Hrun & Hall & Hm & _).
  { unfold num_keywords, MAX_KEYWORDS in Hlen. lia. }
  exists s'. split; [done|]. intros data p Hsearch Hp.
  destruct (models_search s' f data Hm) as [Hsearch' _].
  rewrite Hsearch' in Hsearch. injection Hsearch as <-.
  pose proof Hm as [(q & k & ->) Hc _ _].
  destruct (fsearch_sound_minimal _ _ _ _ _ _ Hp)
    as (path & r & Hmatch & Hloc & Hpi & Hr & Hmin).
  destruct (built_marked _ _ _ _ _ _ Hall Hpi Hr) as (kc & Hkc & <- & <-).
  exists kc. rewrite <- Hloc. split_and!; [done| |by apply matches_prefix_Forall2|].
  - apply path_end_refines; [done|]. intros x Hx. by eapply models_nonzero.
  - intros kc' ext Hkc' Hne Hext Heq.
    destruct (Hmin (value kc') ext Hne Hext Heq) as (q' & Hq' & Hz).
    destruct (insert_all_locate_pi _ [] _ _ _ _ _ _ _ _ Hall) with (kc := kc')
      as (kc'' & Hkc'' & _ & Hpi''); [by intros ? ?%elem_of_nil|done|].
    simpl in Hkc''. rewrite Forall_forall in Happ. apply Happ in Hkc''.
    congruence.
Qed.

Lemma reported_signature_is_minimal_witness :
  ∃ s', construct_keyword_dict prefix_table = Ok 0 s' ∧
    ∀ data p, search_keyword_dict (kd_root s') data s' = Ok p s' → p ≠ NULL →
      ∃ kc, kc ∈ keywords prefix_table ∧
        path_end (value kc) (kd_root s') s' = Ok p s' ∧
        matches_prefix (value kc) data = true ∧
        value kc = [0x41].
Proof.
  destruct (reported_signature_is_minimal prefix_table) as (s' & Hrun & Hmin);
    [reflexivity|reflexivity|vm_compute; discriminate
    |repeat (apply Forall_cons_2; [discriminate|]); apply Forall_nil_2|].
  exists s'. split; [exact Hrun|]. intros data p Hsearch Hp.
  destruct (Hmin data p Hsearch Hp) as (kc & Hkc & Hend & Hmatch & Hno).
  exists kc. split_and!; [done..|].
  pose proof Hkc as Hkc'. unfold prefix_table, appended in Hkc'. simpl in Hkc'.
  apply elem_of_cons in Hkc' as [Heq|Heq%list_elem_of_singleton]; subst kc; [|done].
  exfalso. apply (Hno (Keyword [0x41] (Pi DIR_CLIENT 8080)) [0x42]); [|done..].
  unfold prefix_table, appended. simpl. right. left.
Defined.

(** ** Size of the dictionary *)

Lemma insert_alloc vals p : ∀ b e a q kids nx f' b',
  insert vals p b (FCons e a q kids nx) = Some (f', b') →
  b' - b ≤ Z.of_nat (length vals).
Proof.
  induction vals as [|v vs IH]; intros b e a q kids nx f' b' Hins; simpl in Hins.
  - injection Hins as _ <-. simpl. lia.
  - destruct (split_chain v kids) as (pre & ck & -> & Hnin & Hck).
    rewrite chain_insert_plug in Hins by done.
    destruct ck as [|e' a' q' k' nx'].
    + destruct (_ =? _); [done|].
      destruct (insert vs p (b + 1) (leaf v b)) as [[ck' b'']|] eqn:Hrec; [|done].
      injection Hins as _ <-. apply IH in Hrec. simpl length. lia.
    + destruct (insert vs p b (FCons e' a' q' k' nx')) as [[ck' b'']|] eqn:Hrec; [|done].
      injection Hins as _ <-. apply IH in Hrec. simpl length. lia.
Qed.

Lemma insert_all_alloc kcs : ∀ b e a q kids nx f' b',
  insert_all kcs b (FCons e a q kids nx) = Some (f', b') →
  b' - b ≤ total_symbols kcs.
Proof.
  induction kcs as [|kc kcs IH]; intros b e a q kids nx f' b' Hall; simpl in Hall.
  - injection Hall as _ <-. simpl. lia.
  - destruct (insert _ _ _ _) as [[f1 b1]|] eqn:H1; [|done].
    pose proof (insert_alloc _ _ _ _ _ _ _ _ _ _ H1) as Hle.
    apply insert_shape in H1 as (q1 & k1 & -> & _).
    apply IH in Hall. cbn [total_symbols foldr]. fold (total_symbols kcs). lia.
Qed.

Lemma total_symbols_bound kcs :
  Forall (λ kc, (length (value kc) ≤ 32)%nat) kcs →
  total_symbols kcs ≤ 32 * Z.of_nat (length kcs).
Proof.
  induction 1 as [|kc kcs Hkc _ IH]; [done|].
  cbn [total_symbols foldr length]. fold (total_symbols kcs). lia.
Qed.

(** X14: the dictionary has at most one node per signature symbol, plus the
    root.  [construct_keyword_dict] allocates at least the root and at most
    [1 + total_symbols] nodes, touches no block that existed before, and
    for a table as [add_keyword] fills it (at most 256 signatures of at
    most 32 symbols) never more than 8193 nodes. *)
Theorem dictionary_size_bound (s : machine) :
  kd_root s = NULL → 0 < brk s → num_keywords s ≤ MAX_KEYWORDS →
  ∃ s', construct_keyword_dict s = Ok 0 s' ∧
    1 ≤ brk s' - brk s ≤ 1 + total_symbols (keywords s) ∧
    (∀ x, x < brk s → heap s' !! x = heap s !! x) ∧
    (Forall (λ kc, Z.of_nat (length (value kc)) ≤ MAX_VAL_LEN) (keywords s) →
     brk s' - brk s ≤ 1 + MAX_KEYWORDS * MAX_VAL_LEN).
Proof.
  intros Hroot Hb Hlen.
  destruct (construct_keyword_dict_refines s Hroot Hb)
    as (s' & f & Hrun & Hall & Hm & _ & _ & _ & _ & Hframe).
  { unfold num_keywords, MAX_KEYWORDS in Hlen. lia. }
  pose proof (insert_all_alloc _ _ _ _ _ _ _ _ _ Hall) as Hle.
  pose proof Hall as (q & k & _ & Hge & _)%insert_all_shape.
  exists s'. split_and!; [done|lia|lia| |].
  - intros x Hx. apply Hframe. rewrite (built_addrs s s' f x Hb Hall). lia.
  - intros Hval.
    pose proof (total_symbols_bound (keywords s)) as Hbound.
    unfold num_keywords, MAX_KEYWORDS, MAX_VAL_LEN in *.
    assert (total_symbols (keywords s) ≤ 32 * Z.of_nat (length (keywords s))); [|lia].
    apply Hbound. eapply Forall_impl; [done|]. simpl. intros; lia.
Qed.

Lemma dictionary_size_bound_witness :
  ∃ s', construct_keyword_dict byte_table = Ok 0 s' ∧
    1 ≤ brk s' - brk byte_table ≤ 1 + total_symbols (keywords byte_table) ∧
    (∀ x, x < brk byte_table → heap s' !! x = heap byte_table !! x) ∧
    (Forall (λ kc, Z.of_nat (length (value kc)) ≤ MAX_VAL_LEN) (keywords byte_table) →
     brk s' - brk byte_table ≤ 1 + MAX_KEYWORDS * MAX_VAL_LEN).
Proof.
  apply (dictionary_size_bound byte_table); [reflexivity|reflexivity|].
  vm_compute. discriminate.
Defined.

(** ** Edges and children *)

Lemma chain_at_forest h c :
  holds h (cells c) → (∀ x, x ∈ addrs c → x ≠ NULL) →
  chain_at h (faddr c) (length (labels c)).
Proof.
  induction c as [|e a p k _ nx IH]; intros Hc Hnz; [done|].
  simpl in Hc. apply holds_cons in Hc as [Ha Hc]. apply holds_app in Hc as [_ Hnx].
  cbn [faddr labels length chain_at]. split.
  - apply Hnz. rewrite addrs_cons. left.
  - eexists. split; [exact Ha|]. cbn [sibling]. apply IH; [done|].
    intros x Hx. apply Hnz. rewrite addrs_cons. right. apply elem_of_app. by right.
Qed.

Lemma cells_node f a n :
  (a, n) ∈ cells f →
  ∃ kids, edge n = labels kids ∧ child n = faddr kids ∧
          ∀ x, x ∈ cells kids → x ∈ cells f.
Proof.
  induction f as [|e a' p k IHk nx IHn]; simpl; [by intros ?%elem_of_nil|].
  intros [[= -> ->]|[Hin|Hin]%elem_of_app]%elem_of_cons.
  - exists k. split_and!; [done..|]. intros x Hx. right. apply elem_of_app. by left.
  - destruct (IHk Hin) as (kids & ? & ? & Hsub). exists kids. split_and!; [done..|].
    intros x Hx. right. apply elem_of_app. left. by apply Hsub.
  - destruct (IHn Hin) as (kids & ? & ? & Hsub). exists kids. split_and!; [done..|].
    intros x Hx. right. apply elem_of_app. right. by apply Hsub.
Qed.

(** X15: edges and children stay aligned.  At every node of the dictionary
    [construct_keyword_dict] builds, following [sibling] from [child] visits
    exactly [num_children] live nodes and then reaches [NULL]; so the k-th
    edge always has its k-th child, and [child] is [NULL] exactly when
    [num_children] is 0. *)
Theorem children_chain_aligned (s : machine) :
  kd_root s = NULL → 0 < brk s → num_keywords s ≤ MAX_KEYWORDS →
  ∃ s', construct_keyword_dict s = Ok 0 s' ∧
    ∀ a, brk s ≤ a < brk s' →
      ∃ n, heap s' !! a = Some n ∧
        chain_at (heap s') (child n) (Z.to_nat (num_children n)) ∧
        (child n = NULL ↔ num_children n = 0).
Proof.
  intros Hroot Hb Hlen.
  destruct (construct_keyword_dict_refines s Hroot Hb)
    as (s' & f & Hrun & Hall & Hm & _).
  { unfold num_keywords, MAX_KEYWORDS in Hlen. lia. }
  exists s'. split; [done|]. intros a Ha.
  apply (built_addrs s s' f a Hb Hall) in Ha.
  apply list_elem_of_fmap in Ha as ([a' n] & -> & Hin). simpl.
  exists n. split; [exact (models_cells _ _ Hm _ _ Hin)|].
  destruct (cells_node f a' n Hin) as (kids & He & Hc & Hsub).
  assert (chain_at (heap s') (child n) (Z.to_nat (num_children n))) as Hchain.
  { unfold num_children. rewrite Nat2Z.id, He, Hc. apply chain_at_forest.
    - intros x y Hxy. apply (models_cells _ _ Hm). by apply Hsub.
    - intros x Hx. apply (models_nonzero s' f); [done|].
      apply list_elem_of_fmap in Hx as (c & -> & Hc').
      apply list_elem_of_fmap. exists c. split; [done|]. by apply Hsub. }
  split; [done|]. unfold num_children in *. rewrite Nat2Z.id in Hchain.
  destruct (edge n) as [|e es]; simpl in *; [done|].
  destruct Hchain as [Hne _]. split; [done|lia].
Qed.

Lemma children_chain_aligned_witness :
  ∃ s', construct_keyword_dict byte_table = Ok 0 s' ∧
    ∀ a, brk byte_table ≤ a < brk s' →
      ∃ n, heap s' !! a = Some n ∧
        chain_at (heap s') (child n) (Z.to_nat (num_children n)) ∧
        (child n = NULL ↔ num_children n = 0).
Proof.
  apply (children_chain_aligned byte_table); [reflexivity|reflexivity|].
  vm_compute. discriminate.
Defined.
